(** * magnet-handler: the local document store

    A shallow embedding of the store of [magnet-handler.go]: the entry and
    database model, the JSON encoding of the database, the checksum, the
    loader with its three schemas, the merge, the reconcile step and the
    save, followed by the properties of the store that were checked against
    this embedding.

    Go strings and byte slices are [string]s (sequences of 8-bit
    characters), [int64] values are [Z] with the wrap-around written out,
    Go maps are finite maps that may be nil, and everything that touches
    the file system, the clock or the random source runs in a state monad
    over an explicit [World]. *)

From Stdlib Require Import ZArith Ascii String List.
From stdpp Require Import gmap strings list sorting.

Set Warnings "-register-all".
Open Scope Z_scope.

(** ** Bytes and strings *)

Definition code (c : ascii) : Z := Z.of_N (N_of_ascii c).
Definition chr (z : Z) : ascii := ascii_of_N (Z.to_N z).

Fixpoint bytes_of (s : string) : list Z :=
  match s with
  | "" => []
  | String c r => code c :: bytes_of r
  end.

Fixpoint sdrop (n : nat) (s : string) : string :=
  match n, s with
  | S n', String _ r => sdrop n' r
  | _, _ => s
  end.

Fixpoint stake (n : nat) (s : string) : string :=
  match n, s with
  | S n', String c r => String c (stake n' r)
  | _, _ => ""
  end.

Definition byte_at (i : nat) (s : string) : Z :=
  match String.get i s with Some c => code c | None => -1 end.

Fixpoint all_chars (p : ascii → bool) (s : string) : bool :=
  match s with
  | "" => true
  | String c r => p c && all_chars p r
  end.

Fixpoint map_chars (f : ascii → ascii) (s : string) : string :=
  match s with
  | "" => ""
  | String c r => String (f c) (map_chars f r)
  end.

Fixpoint strip_prefix (p s : string) : option string :=
  match p, s with
  | "", _ => Some s
  | String a p', String b s' => if Ascii.eqb a b then strip_prefix p' s' else None
  | _, "" => None
  end.

(** The digit of the table "0123456789abcdef". *)
Definition hexdigit (n : Z) : ascii := chr (if n <? 10 then 48 + n else 87 + n).

(** Decimal digits of a non-negative number, most significant first. *)
Fixpoint decimal_go (fuel : nat) (n : Z) (acc : string) : string :=
  match fuel with
  | O => acc
  | S fuel' =>
    let acc' := String (chr (48 + n mod 10)) acc in
    if n / 10 =? 0 then acc' else decimal_go fuel' (n / 10) acc'
  end.

(** strconv.FormatInt(n, 10) *)
Definition FormatInt (n : Z) : string :=
  if n <? 0 then String "-" (decimal_go (Z.to_nat (Z.log2 (- n)) + 1) (- n) "")
  else decimal_go (Z.to_nat (Z.log2 n) + 1) n "".

(** ** int64 *)

Definition wrap64 (x : Z) : Z := (x + 2 ^ 63) mod 2 ^ 64 - 2 ^ 63.
Definition MinInt64 : Z := - 2 ^ 63.
Definition MaxInt64 : Z := 2 ^ 63 - 1.

(** ** encoding/hex *)

Module hex.
Definition byte (b : Z) : string :=
  String (hexdigit (Z.shiftr b 4)) (String (hexdigit (Z.land b 15)) "").

Fixpoint EncodeToString (bs : list Z) : string :=
  match bs with
  | [] => ""
  | b :: r => byte b +:+ EncodeToString r
  end.
End hex.

(** ** crypto/sha1 (FIPS 180-4) *)

Module sha1.
Definition w32 (x : Z) : Z := Z.land x 4294967295.
Definition rotl (n x : Z) : Z := w32 (Z.lor (Z.shiftl x n) (Z.shiftr x (32 - n))).
Definition add32 (x y : Z) : Z := w32 (x + y).

Definition be32 (w : Z) : list Z :=
  [Z.land (Z.shiftr w 24) 255; Z.land (Z.shiftr w 16) 255;
   Z.land (Z.shiftr w 8) 255; Z.land w 255].

Definition be64 (w : Z) : list Z := be32 (Z.shiftr w 32) ++ be32 (w32 w).

Definition pad (msg : list Z) : list Z :=
  let len := Z.of_nat (length msg) in
  msg ++ 128 :: repeat 0 (Z.to_nat ((55 - len) mod 64)) ++ be64 (8 * len).

Fixpoint words (bs : list Z) : list Z :=
  match bs with
  | a :: b :: c :: d :: r =>
      Z.lor (Z.shiftl a 24) (Z.lor (Z.shiftl b 16) (Z.lor (Z.shiftl c 8) d)) :: words r
  | _ => []
  end.

Fixpoint blocks (n : nat) (ws : list Z) : list (list Z) :=
  match n with
  | O => []
  | S n' => match ws with [] => [] | _ => take 16 ws :: blocks n' (drop 16 ws) end
  end.

(** The message schedule, most recent word first. *)
Fixpoint schedule (n : nat) (rw : list Z) : list Z :=
  match n with
  | O => rw
  | S n' =>
      let x := Z.lxor (Z.lxor (nth 2 rw 0) (nth 7 rw 0))
                      (Z.lxor (nth 13 rw 0) (nth 15 rw 0)) in
      schedule n' (rotl 1 x :: rw)
  end.

Record digest := Digest { h0 : Z; h1 : Z; h2 : Z; h3 : Z; h4 : Z }.

Definition init : digest :=
  Digest 1732584193 4023233417 2562383102 271733878 3285377520.

Definition round (i : nat) (s : digest) (w : Z) : digest :=
  let '(Digest a b c d e) := s in
  let '(f, k) :=
    if (i <? 20)%nat then
      (Z.lor (Z.land b c) (Z.land (Z.lxor b 4294967295) d), 1518500249)
    else if (i <? 40)%nat then (Z.lxor b (Z.lxor c d), 1859775393)
    else if (i <? 60)%nat then
      (Z.lor (Z.lor (Z.land b c) (Z.land b d)) (Z.land c d), 2400959708)
    else (Z.lxor b (Z.lxor c d), 3395469782) in
  Digest (add32 (add32 (add32 (add32 (rotl 5 a) f) e) k) w) a (rotl 30 b) c d.

Fixpoint rounds (i : nat) (s : digest) (ws : list Z) : digest :=
  match ws with
  | [] => s
  | w :: r => rounds (S i) (round i s w) r
  end.

Definition block (h : digest) (ws : list Z) : digest :=
  let s := rounds 0 h (rev (schedule 64 (rev ws))) in
  Digest (add32 (h0 h) (h0 s)) (add32 (h1 h) (h1 s)) (add32 (h2 h) (h2 s))
         (add32 (h3 h) (h3 s)) (add32 (h4 h) (h4 s)).

Definition Sum (msg : list Z) : list Z :=
  let ws := words (pad msg) in
  let h := fold_left block (blocks (length ws) ws) init in
  be32 (h0 h) ++ be32 (h1 h) ++ be32 (h2 h) ++ be32 (h3 h) ++ be32 (h4 h).
End sha1.

(** ** unicode/utf8 and unicode/utf16 *)

Module utf8.
Definition RuneError : Z := 65533.
Definition locb : Z := 128.
Definition hicb : Z := 191.

(** The [first] table with its accept ranges: for a leading byte, the size
    of the sequence and the range of its second byte. *)
Definition first (b : Z) : option (nat * Z * Z) :=
  if (194 <=? b) && (b <=? 223) then Some (2%nat, locb, hicb)
  else if b =? 224 then Some (3%nat, 160, hicb)
  else if (225 <=? b) && (b <=? 236) then Some (3%nat, locb, hicb)
  else if b =? 237 then Some (3%nat, locb, 159)
  else if (238 <=? b) && (b <=? 239) then Some (3%nat, locb, hicb)
  else if b =? 240 then Some (4%nat, 144, hicb)
  else if (241 <=? b) && (b <=? 243) then Some (4%nat, locb, hicb)
  else if b =? 244 then Some (4%nat, locb, 143)
  else None.

Definition DecodeRune (s : string) : Z * nat :=
  match s with
  | "" => (RuneError, 0%nat)
  | String c0 _ =>
    let s0 := code c0 in
    if s0 <? 128 then (s0, 1%nat) else
    match first s0 with
    | None => (RuneError, 1%nat)
    | Some (sz, lo, hi) =>
      if (String.length s <? sz)%nat then (RuneError, 1%nat) else
      let s1 := byte_at 1 s in
      if (s1 <? lo) || (hi <? s1) then (RuneError, 1%nat) else
      if (sz <=? 2)%nat then
        (Z.lor (Z.shiftl (Z.land s0 31) 6) (Z.land s1 63), 2%nat) else
      let s2 := byte_at 2 s in
      if (s2 <? locb) || (hicb <? s2) then (RuneError, 1%nat) else
      if (sz <=? 3)%nat then
        (Z.lor (Z.shiftl (Z.land s0 15) 12)
           (Z.lor (Z.shiftl (Z.land s1 63) 6) (Z.land s2 63)), 3%nat) else
      let s3 := byte_at 3 s in
      if (s3 <? locb) || (hicb <? s3) then (RuneError, 1%nat) else
      (Z.lor (Z.shiftl (Z.land s0 7) 18)
         (Z.lor (Z.shiftl (Z.land s1 63) 12)
            (Z.lor (Z.shiftl (Z.land s2 63) 6) (Z.land s3 63))), 4%nat)
    end
  end.

Definition EncodeRune (r : Z) : string :=
  let r := if (r <? 0) || (1114111 <? r) || ((55296 <=? r) && (r <=? 57343))
           then RuneError else r in
  if r <=? 127 then String (chr r) ""
  else if r <=? 2047 then
    String (chr (Z.lor 192 (Z.shiftr r 6))) (String (chr (Z.lor 128 (Z.land r 63))) "")
  else if r <=? 65535 then
    String (chr (Z.lor 224 (Z.shiftr r 12)))
      (String (chr (Z.lor 128 (Z.land (Z.shiftr r 6) 63)))
         (String (chr (Z.lor 128 (Z.land r 63))) ""))
  else
    String (chr (Z.lor 240 (Z.shiftr r 18)))
      (String (chr (Z.lor 128 (Z.land (Z.shiftr r 12) 63)))
         (String (chr (Z.lor 128 (Z.land (Z.shiftr r 6) 63)))
            (String (chr (Z.lor 128 (Z.land r 63))) ""))).

Fixpoint valid_go (n : nat) (s : string) : bool :=
  match n, s with
  | _, "" => true
  | O, _ => false
  | S n', _ =>
    let '(r, sz) := DecodeRune s in
    if (r =? RuneError) && (sz =? 1)%nat then false else valid_go n' (sdrop sz s)
  end.

Definition ValidString (s : string) : bool := valid_go (String.length s) s.
End utf8.

Module utf16.
Definition IsSurrogate (r : Z) : bool := (55296 <=? r) && (r <? 57344).

Definition DecodeRune (r1 r2 : Z) : Z :=
  if (55296 <=? r1) && (r1 <? 56320) && (56320 <=? r2) && (r2 <? 57344)
  then Z.lor (Z.shiftl (r1 - 55296) 10) (r2 - 56320) + 65536
  else utf8.RuneError.
End utf16.

(** ** encoding/json: values and their encoding *)

Module json.
Inductive value :=
| JNull
| JBool (b : bool)
| JNum (lit : string)
| JStr (s : string)
| JArr (l : list value)
| JObj (kvs : list (string * value)).

Definition dq : ascii := "034"%char.
Definition bs : ascii := "092"%char.
Definition nl : ascii := "010"%char.

(** [htmlSafeSet]: the ASCII characters that are written as they are. *)
Definition htmlSafe (b : Z) : bool :=
  (32 <=? b) && negb ((b =? 34) || (b =? 92) || (b =? 60) || (b =? 62) || (b =? 38)).

Definition escape (b : Z) : string :=
  if (b =? 92) || (b =? 34) then String bs (String (chr b) "")
  else if b =? 8 then "\b"
  else if b =? 12 then "\f"
  else if b =? 10 then "\n"
  else if b =? 13 then "\r"
  else if b =? 9 then "\t"
  else "\u00" +:+ String (hexdigit (Z.shiftr b 4)) (String (hexdigit (Z.land b 15)) "").

(** [appendString] with [escapeHTML]: bytes that are not valid UTF-8 are
    written as the escape of U+FFFD, U+2028 and U+2029 are escaped. *)
Fixpoint appendString_go (n : nat) (src : string) : string :=
  match n, src with
  | S n', String c r =>
    let b := code c in
    if b <? 128 then
      (if htmlSafe b then String c "" else escape b) +:+ appendString_go n' r
    else
      let '(rn, size) := utf8.DecodeRune (stake 4 src) in
      if (rn =? utf8.RuneError) && (size =? 1)%nat then
        "\u" +:+ "fffd" +:+ appendString_go n' r
      else if (rn =? 8232) || (rn =? 8233) then
        "\u202" +:+ String (hexdigit (Z.land rn 15)) (appendString_go n' (sdrop size src))
      else stake size src +:+ appendString_go n' (sdrop size src)
  | _, _ => ""
  end.

Definition appendString (src : string) : string :=
  String dq (appendString_go (String.length src) src +:+ String dq "").

(** The compact encoding, as [Marshal] writes it. *)
Fixpoint compact (j : value) : string :=
  match j with
  | JNull => "null"
  | JBool true => "true"
  | JBool false => "false"
  | JNum lit => lit
  | JStr s => appendString s
  | JArr l =>
      "[" +:+ (fix elems (l : list value) : string :=
                 match l with
                 | [] => ""
                 | x :: r => compact x +:+ match r with [] => "" | _ => "," +:+ elems r end
                 end) l +:+ "]"
  | JObj kvs =>
      "{" +:+ (fix members (l : list (string * value)) : string :=
                 match l with
                 | [] => ""
                 | (k, x) :: r =>
                     appendString k +:+ ":" +:+ compact x
                       +:+ match r with [] => "" | _ => "," +:+ members r end
                 end) kvs +:+ "}"
  end.

Fixpoint spaces (ind : string) (d : nat) : string :=
  match d with O => "" | S d' => ind +:+ spaces ind d' end.

Definition newline (ind : string) (d : nat) : string := String nl (spaces ind d).

(** The encoding [MarshalIndent] writes for an empty prefix: the compact
    encoding passed through [Indent]. *)
Fixpoint indented (ind : string) (d : nat) (j : value) : string :=
  match j with
  | JArr [] => "[]"
  | JObj [] => "{}"
  | JArr l =>
      "[" +:+ newline ind (S d) +:+
        (fix elems (l : list value) : string :=
           match l with
           | [] => ""
           | x :: r =>
               indented ind (S d) x
                 +:+ match r with [] => "" | _ => "," +:+ newline ind (S d) +:+ elems r end
           end) l +:+ newline ind d +:+ "]"
  | JObj kvs =>
      "{" +:+ newline ind (S d) +:+
        (fix members (l : list (string * value)) : string :=
           match l with
           | [] => ""
           | (k, x) :: r =>
               appendString k +:+ ": " +:+ indented ind (S d) x
                 +:+ match r with [] => "" | _ => "," +:+ newline ind (S d) +:+ members r end
           end) kvs +:+ newline ind d +:+ "}"
  | _ => compact j
  end.

(** *** The scanner and [unquote] *)

Definition is_ws (c : ascii) : bool :=
  let b := code c in (b =? 32) || (b =? 9) || (b =? 13) || (b =? 10).

Fixpoint skip_ws (s : string) : string :=
  match s with
  | String c r => if is_ws c then skip_ws r else s
  | "" => ""
  end.

Definition is_digit (c : ascii) : bool := let b := code c in (48 <=? b) && (b <=? 57).

Definition hexval (c : ascii) : option Z :=
  let b := code c in
  if (48 <=? b) && (b <=? 57) then Some (b - 48)
  else if (97 <=? b) && (b <=? 102) then Some (b - 87)
  else if (65 <=? b) && (b <=? 70) then Some (b - 55)
  else None.

Definition hex4 (s : string) : option Z :=
  match s with
  | String a (String b (String c (String d _))) =>
      match hexval a, hexval b, hexval c, hexval d with
      | Some x, Some y, Some z, Some w => Some (((x * 16 + y) * 16 + z) * 16 + w)
      | _, _, _, _ => None
      end
  | _ => None
  end.

(** [getu4]: the code unit of a backslash-u escape at the head of [s], or -1. *)
Definition getu4 (s : string) : Z :=
  match s with
  | String c0 (String c1 r) =>
      if (code c0 =? 92) && (code c1 =? 117) then
        match hex4 r with Some v => v | None => -1 end
      else -1
  | _ => -1
  end.

Definition is_escape (c : ascii) : bool :=
  let b := code c in
  (b =? 34) || (b =? 92) || (b =? 47) || (b =? 98) || (b =? 102) || (b =? 110)
  || (b =? 114) || (b =? 116).

(** The scanner on a string literal, after its opening quote: the raw
    contents up to the closing quote and the input that follows it. *)
Fixpoint literal (s : string) : option (string * string) :=
  match s with
  | "" => None
  | String c r =>
    let b := code c in
    if b =? 34 then Some ("", r)
    else if b =? 92 then
      match r with
      | String e r' =>
        if is_escape e then
          match literal r' with
          | Some (raw, rest) => Some (String c (String e raw), rest)
          | None => None
          end
        else if code e =? 117 then
          match hex4 r' with
          | Some _ =>
            match literal r' with
            | Some (raw, rest) => Some (String c (String e raw), rest)
            | None => None
            end
          | None => None
          end
        else None
      | "" => None
      end
    else if b <? 32 then None
    else match literal r with
         | Some (raw, rest) => Some (String c raw, rest)
         | None => None
         end
  end.

Definition unescape (e : ascii) : ascii :=
  let b := code e in
  if b =? 98 then chr 8 else if b =? 102 then chr 12 else if b =? 110 then chr 10
  else if b =? 114 then chr 13 else if b =? 116 then chr 9 else e.

(** [unquote] on the raw contents of a literal the scanner accepted. *)
Fixpoint unquote_go (n : nat) (s : string) : string :=
  match n, s with
  | S n', String c r =>
    let b := code c in
    if b =? 92 then
      match r with
      | String e r' =>
        if code e =? 117 then
          let rr := getu4 s in
          let r2 := sdrop 4 r' in
          if utf16.IsSurrogate rr then
            let dec := utf16.DecodeRune rr (getu4 r2) in
            if negb (dec =? utf8.RuneError)
            then utf8.EncodeRune dec +:+ unquote_go n' (sdrop 6 r2)
            else utf8.EncodeRune utf8.RuneError +:+ unquote_go n' r2
          else utf8.EncodeRune rr +:+ unquote_go n' r2
        else String (unescape e) (unquote_go n' r')
      | "" => ""
      end
    else if b <? 128 then String c (unquote_go n' r)
    else
      let '(rr, size) := utf8.DecodeRune s in
      utf8.EncodeRune rr +:+ unquote_go n' (sdrop size s)
  | _, _ => ""
  end.

Definition unquote (raw : string) : string := unquote_go (String.length raw) raw.

Fixpoint digits (s : string) : string * string :=
  match s with
  | String c r =>
      if is_digit c then let '(d, rest) := digits r in (String c d, rest) else ("", s)
  | "" => ("", "")
  end.

(** A number literal: an optional minus sign, an integer part without a
    leading zero, an optional fraction and an optional exponent. *)
Definition number (s : string) : option (string * string) :=
  let '(sign, s1) :=
    match s with
    | String c r => if code c =? 45 then ("-", r) else ("", s)
    | "" => ("", s)
    end in
  let int_part :=
    match s1 with
    | String c r =>
        if code c =? 48 then Some ("0", r)
        else if is_digit c then let '(d, rest) := digits r in Some (String c d, rest)
        else None
    | "" => None
    end in
  match int_part with
  | None => None
  | Some (ip, s2) =>
    let frac :=
      match s2 with
      | String c r =>
          if code c =? 46 then
            match digits r with
            | ("", _) => None
            | (d, rest) => Some (String c d, rest)
            end
          else Some ("", s2)
      | "" => Some ("", s2)
      end in
    match frac with
    | None => None
    | Some (fp, s3) =>
      let exp :=
        match s3 with
        | String c r =>
            if (code c =? 101) || (code c =? 69) then
              let '(sg, r1) :=
                match r with
                | String c' r' =>
                    if (code c' =? 43) || (code c' =? 45) then (String c' "", r') else ("", r)
                | "" => ("", r)
                end in
              match digits r1 with
              | ("", _) => None
              | (d, rest) => Some (String c (sg +:+ d), rest)
              end
            else Some ("", s3)
        | "" => Some ("", s3)
        end in
      match exp with
      | None => None
      | Some (ep, s4) => Some (sign +:+ ip +:+ fp +:+ ep, s4)
      end
    end
  end.

Definition keyword (kw : string) (s : string) : option string := strip_prefix kw s.

Definition maxNestingDepth : Z := 10000.

(** The grammar of one value; [n] bounds the number of recursive calls and
    [depth] counts the arrays and objects that are open. *)
Fixpoint scan_value (n : nat) (depth : Z) (s : string) : option (value * string) :=
  match n with
  | O => None
  | S n' =>
    match s with
    | "" => None
    | String c r =>
      let b := code c in
      if b =? 123 then
        if maxNestingDepth <=? depth then None else
        match skip_ws r with
        | String c' r' =>
            if code c' =? 125 then Some (JObj [], r')
            else match scan_members n' (depth + 1) (skip_ws r) with
                 | Some (kvs, rest) => Some (JObj kvs, rest)
                 | None => None
                 end
        | "" => None
        end
      else if b =? 91 then
        if maxNestingDepth <=? depth then None else
        match skip_ws r with
        | String c' r' =>
            if code c' =? 93 then Some (JArr [], r')
            else match scan_elements n' (depth + 1) (skip_ws r) with
                 | Some (l, rest) => Some (JArr l, rest)
                 | None => None
                 end
        | "" => None
        end
      else if b =? 34 then
        match literal r with
        | Some (raw, rest) => Some (JStr (unquote raw), rest)
        | None => None
        end
      else if (b =? 45) || is_digit c then
        match number s with
        | Some (lit, rest) => Some (JNum lit, rest)
        | None => None
        end
      else if b =? 116 then option_map (pair (JBool true)) (keyword "true" s)
      else if b =? 102 then option_map (pair (JBool false)) (keyword "false" s)
      else if b =? 110 then option_map (pair JNull) (keyword "null" s)
      else None
    end
  end
with scan_members (n : nat) (depth : Z) (s : string)
  : option (list (string * value) * string) :=
  match n with
  | O => None
  | S n' =>
    match s with
    | String c r =>
      if code c =? 34 then
        match literal r with
        | Some (raw, s1) =>
          match skip_ws s1 with
          | String c1 s2 =>
            if code c1 =? 58 then
              match scan_value n' depth (skip_ws s2) with
              | Some (v, s3) =>
                match skip_ws s3 with
                | String c3 s4 =>
                  if code c3 =? 44 then
                    match scan_members n' depth (skip_ws s4) with
                    | Some (kvs, rest) => Some ((unquote raw, v) :: kvs, rest)
                    | None => None
                    end
                  else if code c3 =? 125 then Some ([(unquote raw, v)], s4)
                  else None
                | "" => None
                end
              | None => None
              end
            else None
          | "" => None
          end
        | None => None
        end
      else None
    | "" => None
    end
  end
with scan_elements (n : nat) (depth : Z) (s : string) : option (list value * string) :=
  match n with
  | O => None
  | S n' =>
    match scan_value n' depth s with
    | Some (v, s1) =>
      match skip_ws s1 with
      | String c s2 =>
        if code c =? 44 then
          match scan_elements n' depth (skip_ws s2) with
          | Some (l, rest) => Some (v :: l, rest)
          | None => None
          end
        else if code c =? 93 then Some ([v], s2)
        else None
      | "" => None
      end
    | None => None
    end
  end.

(** [checkValid] together with the value the document denotes: [None] is
    a syntax error. *)
Definition parse (data : string) : option value :=
  match scan_value (2 * String.length data + 2) 0 (skip_ws data) with
  | Some (j, rest) => if String.eqb (skip_ws rest) "" then Some j else None
  | None => None
  end.
End json.

(** ** Errors *)

Inductive error :=
| ErrNotExist (path : string)
| ErrIO (msg : string)
| ErrUnmarshalType (value type : string)
| ErrSyntax
| Errorf (msg : string)
| Wrapf (prefix : string) (cause : error).

(** ** Go maps with string keys

    A map value is nil or an allocated table.  Reading, [len], [range] and
    [delete] treat nil as empty; storing into nil panics. *)

Inductive gomap (V : Type) :=
| GoNil
| GoMap (m : gmap string V).
Arguments GoNil {V}.
Arguments GoMap {V} m.

Definition entries {V} (m : gomap V) : gmap string V :=
  match m with GoNil => ∅ | GoMap t => t end.

Definition make {V} : gomap V := GoMap ∅.

Definition go_len {V} (m : gomap V) : Z := Z.of_nat (size (entries m)).

Definition go_get {V} (m : gomap V) (k : string) : option V := entries m !! k.

(** [m[k] = v]; [None] is the panic of a store into a nil map. *)
Definition go_set {V} (m : gomap V) (k : string) (v : V) : option (gomap V) :=
  match m with
  | GoNil => None
  | GoMap t => Some (GoMap (<[k := v]> t))
  end.

Definition go_delete {V} (m : gomap V) (k : string) : gomap V :=
  match m with
  | GoNil => GoNil
  | GoMap t => GoMap (delete k t)
  end.

(** The order in which [range] visits a map is not specified: it is chosen
    by an oracle that permutes its argument. *)
Record range_oracle := RangeOracle {
  shuffle : ∀ A : Type, list A → list A;
  shuffle_perm : ∀ (A : Type) (l : list A), shuffle A l ≡ₚ l
}.

Definition go_range {V} (o : range_oracle) (m : gomap V) : list (string * V) :=
  shuffle o _ (map_to_list (entries m)).

Definition go_keys {V} (o : range_oracle) (m : gomap V) : list string :=
  (go_range o m).*1.

(** ** The entry and database model *)

Record MagnetEntry := {
  UUID : string;
  ID : Z;
  Title : string;
  Hash : string;
  URI : string;
  AddedDate : string;
  FirstSeen : string;
  LastAttempt : string;
  Status : string;
  TorrentID : string;
  AddedToDeluge : string;
  RetryCount : Z;
  SavePath : string;
  TorrentName : string
}.

Record DatabaseMetadata := {
  LastSequence : Z;
  LastModified : string;
  Checksum : string
}.

Record MagnetDatabase := {
  Metadata : DatabaseMetadata;
  Added : gomap MagnetEntry;
  Retry : gomap MagnetEntry
}.

Definition zero_entry : MagnetEntry :=
  {| UUID := ""; ID := 0; Title := ""; Hash := ""; URI := ""; AddedDate := "";
     FirstSeen := ""; LastAttempt := ""; Status := ""; TorrentID := "";
     AddedToDeluge := ""; RetryCount := 0; SavePath := ""; TorrentName := "" |}.

Definition zero_metadata : DatabaseMetadata :=
  {| LastSequence := 0; LastModified := ""; Checksum := "" |}.

(** [&MagnetDatabase{Added: make(...), Retry: make(...)}] *)
Definition empty_database : MagnetDatabase :=
  {| Metadata := zero_metadata; Added := make; Retry := make |}.

Definition with_ID (e : MagnetEntry) (id : Z) : MagnetEntry :=
  {| UUID := UUID e; ID := id; Title := Title e; Hash := Hash e; URI := URI e;
     AddedDate := AddedDate e; FirstSeen := FirstSeen e; LastAttempt := LastAttempt e;
     Status := Status e; TorrentID := TorrentID e; AddedToDeluge := AddedToDeluge e;
     RetryCount := RetryCount e; SavePath := SavePath e; TorrentName := TorrentName e |}.

Definition with_UUID (e : MagnetEntry) (u : string) : MagnetEntry :=
  {| UUID := u; ID := ID e; Title := Title e; Hash := Hash e; URI := URI e;
     AddedDate := AddedDate e; FirstSeen := FirstSeen e; LastAttempt := LastAttempt e;
     Status := Status e; TorrentID := TorrentID e; AddedToDeluge := AddedToDeluge e;
     RetryCount := RetryCount e; SavePath := SavePath e; TorrentName := TorrentName e |}.

(** The legacy schemas. *)
Module V0.
Record MagnetEntryV0 := {
  Hash : string;
  Title : string;
  URI : string;
  TorrentName : string;
  SavePath : string;
  State : string;
  Progress : string;  (* the accepted number literal stands for the float64 *)
  Status : string;
  TorrentID : string;
  AddedToDeluge : string;
  FirstSeen : string;
  LastAttempt : string;
  Backfilled : string
}.

Definition zero : MagnetEntryV0 :=
  {| Hash := ""; Title := ""; URI := ""; TorrentName := ""; SavePath := "";
     State := ""; Progress := ""; Status := ""; TorrentID := ""; AddedToDeluge := "";
     FirstSeen := ""; LastAttempt := ""; Backfilled := "" |}.
End V0.

Module V1.
Record MagnetEntryV1 := {
  Title : string;
  Hash : string;
  URI : string;
  AddedDate : string;
  LastAttempt : string;
  RetryCount : Z;
  SavePath : string;
  TorrentName : string
}.

Record MagnetDatabaseV1 := {
  Added : gomap MagnetEntryV1;
  Retry : gomap MagnetEntryV1
}.

Definition zero : MagnetEntryV1 :=
  {| Title := ""; Hash := ""; URI := ""; AddedDate := ""; LastAttempt := "";
     RetryCount := 0; SavePath := ""; TorrentName := "" |}.
End V1.

(** ** Marshal of the database *)

Import json.

Definition key_le {V} (a b : string * V) : Prop := String.le a.1 b.1.

#[global] Instance key_le_dec {V} : RelDecision (@key_le V).
Proof. intros a b. unfold key_le. apply _. Defined.

(** Map keys are written in sorted order. *)
Definition sorted_entries {V} (m : gmap string V) : list (string * V) :=
  merge_sort key_le (map_to_list m).

Definition string_field (omitempty : bool) (name s : string) : list (string * value) :=
  if omitempty && String.eqb s "" then [] else [(name, JStr s)].

Definition int_field (omitempty : bool) (name : string) (n : Z) : list (string * value) :=
  if omitempty && (n =? 0) then [] else [(name, JNum (FormatInt n))].

Definition entry_json (e : MagnetEntry) : value :=
  JObj (string_field false "uuid" (UUID e)
        ++ int_field true "id" (ID e)
        ++ string_field false "title" (Title e)
        ++ string_field false "hash" (Hash e)
        ++ string_field false "uri" (URI e)
        ++ string_field false "added_date" (AddedDate e)
        ++ string_field true "first_seen" (FirstSeen e)
        ++ string_field true "last_attempt" (LastAttempt e)
        ++ string_field true "status" (Status e)
        ++ string_field true "torrent_id" (TorrentID e)
        ++ string_field true "added_to_deluge" (AddedToDeluge e)
        ++ int_field true "retry_count" (RetryCount e)
        ++ string_field true "save_path" (SavePath e)
        ++ string_field true "torrent_name" (TorrentName e)).

Definition metadata_json (m : DatabaseMetadata) : value :=
  JObj (int_field false "last_sequence" (LastSequence m)
        ++ string_field false "last_modified" (LastModified m)
        ++ string_field false "checksum" (Checksum m)).

Definition map_json (m : gomap MagnetEntry) : value :=
  match m with
  | GoNil => JNull
  | GoMap t => JObj (prod_map id entry_json <$> sorted_entries t)
  end.

Definition database_json (db : MagnetDatabase) : value :=
  JObj [("metadata", metadata_json (Metadata db));
        ("added", map_json (Added db));
        ("retry", map_json (Retry db))].

(** [json.Marshal(db)] and [json.MarshalIndent(db, "", "  ")]; neither can
    fail on a [MagnetDatabase]. *)
Definition Marshal (db : MagnetDatabase) : string * option error :=
  (compact (database_json db), None).

Definition MarshalIndent (db : MagnetDatabase) : string * option error :=
  (indented "  " 0 (database_json db), None).

(** ** The checksums *)

(** ComputeChecksum generates SHA1 hash of database contents *)
Definition ComputeChecksum (db : MagnetDatabase) : string :=
  let '(data, err) := Marshal db in
  match err with
  | Some _ => ""
  | None => hex.EncodeToString (sha1.Sum (bytes_of data))
  end.

(** ** Unmarshal into the three schemas

    A syntax error leaves the target untouched.  A value of the wrong kind
    is skipped: the first such error is kept and decoding goes on. *)

Definition save_error (saved new : option error) : option error :=
  match saved with Some _ => saved | None => new end.

Definition kind (j : value) : string :=
  match j with
  | JNull => "null"
  | JBool _ => "bool"
  | JNum _ => "number"
  | JStr _ => "string"
  | JArr _ => "array"
  | JObj _ => "object"
  end.

Fixpoint digits_value (s : string) (acc : Z) : option Z :=
  match s with
  | "" => Some acc
  | String c r => if is_digit c then digits_value r (10 * acc + (code c - 48)) else None
  end.

(** strconv.ParseInt(lit, 10, 64) *)
Definition ParseInt (lit : string) : option Z :=
  let '(neg, ds) :=
    match lit with
    | String c r =>
        if code c =? 45 then (true, r) else if code c =? 43 then (false, r) else (false, lit)
    | "" => (false, lit)
    end in
  match ds with
  | "" => None
  | _ =>
    match digits_value ds 0 with
    | Some v =>
        let n := if neg then - v else v in
        if (MinInt64 <=? n) && (n <=? MaxInt64) then Some n else None
    | None => None
    end
  end.

(** Whether strconv.ParseFloat(lit, 64) reports a range error on a number
    literal: its value is at least 2^1024 - 2^970 in magnitude. *)
Definition float_out_of_range (lit : string) : bool :=
  let s0 := match lit with
            | String c r => if code c =? 45 then r else lit
            | "" => lit
            end in
  let '(ip, s1) := digits s0 in
  let '(fp, s2) :=
    match s1 with
    | String c r => if code c =? 46 then digits r else ("", s1)
    | "" => ("", s1)
    end in
  let ex :=
    match s2 with
    | String _ (String c r) =>
        if code c =? 45 then - default 0 (digits_value r 0)
        else if code c =? 43 then default 0 (digits_value r 0)
        else default 0 (digits_value (String c r) 0)
    | _ => 0
    end in
  let mant := default 0 (digits_value (ip +:+ fp) 0) in
  let x := ex - Z.of_nat (String.length fp) in
  let ndigits := Z.of_nat (String.length (ip +:+ fp)) in
  if mant =? 0 then false
  else if 400 <? x then true
  else if ndigits <? - x then false
  else if 0 <=? x then 2 ^ 1024 - 2 ^ 970 <=? mant * 10 ^ x
  else (2 ^ 1024 - 2 ^ 970) * 10 ^ (- x) <=? mant.

Definition store_string (j : value) (old : string) : string * option error :=
  match j with
  | JStr s => (s, None)
  | JNull => (old, None)
  | _ => (old, Some (ErrUnmarshalType (kind j) "string"))
  end.

Definition store_int (j : value) (old : Z) : Z * option error :=
  match j with
  | JNum lit =>
      match ParseInt lit with
      | Some n => (n, None)
      | None => (old, Some (ErrUnmarshalType ("number " +:+ lit) "int64"))
      end
  | JNull => (old, None)
  | _ => (old, Some (ErrUnmarshalType (kind j) "int64"))
  end.

Definition store_float (j : value) (old : string) : string * option error :=
  match j with
  | JNum lit =>
      if float_out_of_range lit
      then (old, Some (ErrUnmarshalType ("number " +:+ lit) "float64"))
      else (lit, None)
  | JNull => (old, None)
  | _ => (old, Some (ErrUnmarshalType (kind j) "float64"))
  end.

(** [foldName] on a key, as far as it can meet an ASCII field name: ASCII
    letters are upper-cased, and so are the two runes whose fold set holds
    an ASCII letter (U+017F and U+212A). *)
Fixpoint foldName (s : string) : string :=
  match s with
  | "" => ""
  | String c r =>
    let b := code c in
    if (97 <=? b) && (b <=? 122) then String (chr (b - 32)) (foldName r)
    else
      match r with
      | String c1 r1 =>
        if (b =? 197) && (code c1 =? 191) then String "S" (foldName r1)
        else
          match r1 with
          | String c2 r2 =>
            if (b =? 226) && (code c1 =? 132) && (code c2 =? 170)
            then String "K" (foldName r2)
            else String c (foldName r)
          | "" => String c (foldName r)
          end
      | "" => String c ""
      end
  end.

(** The field a key selects: the exact name first, then the folded one. *)
Definition field_index (names : list string) (key : string) : option nat :=
  match list_find (λ n, n = key) names with
  | Some (i, _) => Some i
  | None => fst <$> list_find (λ n, foldName n = foldName key) names
  end.

Definition decode_struct {T} (goType : string) (names : list string)
    (store : nat → value → T → T * option error)
    (j : value) (t : T) : T * option error :=
  match j with
  | JObj kvs =>
      fold_left
        (λ acc kv,
           let '(t, err) := acc in
           match field_index names kv.1 with
           | Some i => let '(t', e) := store i kv.2 t in (t', save_error err e)
           | None => (t, err)
           end)
        kvs (t, None)
  | JNull => (t, None)
  | _ => (t, Some (ErrUnmarshalType (kind j) goType))
  end.

(** An object is decoded into the table of the map, which is allocated
    when the map is nil; every element starts from the zero value and is
    stored under its key.  [null] sets the map to nil. *)
Definition decode_map {V} (goType : string) (zero : V)
    (dec : value → V → V * option error)
    (j : value) (m : gomap V) : gomap V * option error :=
  match j with
  | JObj kvs =>
      let '(t, err) :=
        fold_left
          (λ acc kv,
             let '(t, err) := acc in
             let '(v, e) := dec kv.2 zero in
             (<[kv.1 := v]> t, save_error err e))
          kvs (entries m, None) in
      (GoMap t, err)
  | JNull => (GoNil, None)
  | _ => (m, Some (ErrUnmarshalType (kind j) goType))
  end.

Definition MagnetEntry_names : list string :=
  ["uuid"; "id"; "title"; "hash"; "uri"; "added_date"; "first_seen"; "last_attempt";
   "status"; "torrent_id"; "added_to_deluge"; "retry_count"; "save_path"; "torrent_name"].

Definition store_MagnetEntry (i : nat) (j : value) (e : MagnetEntry)
  : MagnetEntry * option error :=
  let '(Build_MagnetEntry f0 f1 f2 f3 f4 f5 f6 f7 f8 f9 f10 f11 f12 f13) := e in
  match i with
  | 0%nat => let '(x, er) := store_string j f0 in
             (Build_MagnetEntry x f1 f2 f3 f4 f5 f6 f7 f8 f9 f10 f11 f12 f13, er)
  | 1%nat => let '(x, er) := store_int j f1 in
             (Build_MagnetEntry f0 x f2 f3 f4 f5 f6 f7 f8 f9 f10 f11 f12 f13, er)
  | 2%nat => let '(x, er) := store_string j f2 in
             (Build_MagnetEntry f0 f1 x f3 f4 f5 f6 f7 f8 f9 f10 f11 f12 f13, er)
  | 3%nat => let '(x, er) := store_string j f3 in
             (Build_MagnetEntry f0 f1 f2 x f4 f5 f6 f7 f8 f9 f10 f11 f12 f13, er)
  | 4%nat => let '(x, er) := store_string j f4 in
             (Build_MagnetEntry f0 f1 f2 f3 x f5 f6 f7 f8 f9 f10 f11 f12 f13, er)
  | 5%nat => let '(x, er) := store_string j f5 in
             (Build_MagnetEntry f0 f1 f2 f3 f4 x f6 f7 f8 f9 f10 f11 f12 f13, er)
  | 6%nat => let '(x, er) := store_string j f6 in
             (Build_MagnetEntry f0 f1 f2 f3 f4 f5 x f7 f8 f9 f10 f11 f12 f13, er)
  | 7%nat => let '(x, er) := store_string j f7 in
             (Build_MagnetEntry f0 f1 f2 f3 f4 f5 f6 x f8 f9 f10 f11 f12 f13, er)
  | 8%nat => let '(x, er) := store_string j f8 in
             (Build_MagnetEntry f0 f1 f2 f3 f4 f5 f6 f7 x f9 f10 f11 f12 f13, er)
  | 9%nat => let '(x, er) := store_string j f9 in
             (Build_MagnetEntry f0 f1 f2 f3 f4 f5 f6 f7 f8 x f10 f11 f12 f13, er)
  | 10%nat => let '(x, er) := store_string j f10 in
              (Build_MagnetEntry f0 f1 f2 f3 f4 f5 f6 f7 f8 f9 x f11 f12 f13, er)
  | 11%nat => let '(x, er) := store_int j f11 in
              (Build_MagnetEntry f0 f1 f2 f3 f4 f5 f6 f7 f8 f9 f10 x f12 f13, er)
  | 12%nat => let '(x, er) := store_string j f12 in
              (Build_MagnetEntry f0 f1 f2 f3 f4 f5 f6 f7 f8 f9 f10 f11 x f13, er)
  | _ => let '(x, er) := store_string j f13 in
         (Build_MagnetEntry f0 f1 f2 f3 f4 f5 f6 f7 f8 f9 f10 f11 f12 x, er)
  end.

Definition decode_MagnetEntry : value → MagnetEntry → MagnetEntry * option error :=
  decode_struct "main.MagnetEntry" MagnetEntry_names store_MagnetEntry.

Definition store_DatabaseMetadata (i : nat) (j : value) (m : DatabaseMetadata)
  : DatabaseMetadata * option error :=
  let '(Build_DatabaseMetadata f0 f1 f2) := m in
  match i with
  | 0%nat => let '(x, er) := store_int j f0 in (Build_DatabaseMetadata x f1 f2, er)
  | 1%nat => let '(x, er) := store_string j f1 in (Build_DatabaseMetadata f0 x f2, er)
  | _ => let '(x, er) := store_string j f2 in (Build_DatabaseMetadata f0 f1 x, er)
  end.

Definition decode_DatabaseMetadata
  : value → DatabaseMetadata → DatabaseMetadata * option error :=
  decode_struct "main.DatabaseMetadata" ["last_sequence"; "last_modified"; "checksum"]
    store_DatabaseMetadata.

Definition decode_entries : value → gomap MagnetEntry → gomap MagnetEntry * option error :=
  decode_map "map[string]main.MagnetEntry" zero_entry decode_MagnetEntry.

Definition store_MagnetDatabase (i : nat) (j : value) (db : MagnetDatabase)
  : MagnetDatabase * option error :=
  let '(Build_MagnetDatabase md a r) := db in
  match i with
  | 0%nat => let '(x, er) := decode_DatabaseMetadata j md in (Build_MagnetDatabase x a r, er)
  | 1%nat => let '(x, er) := decode_entries j a in (Build_MagnetDatabase md x r, er)
  | _ => let '(x, er) := decode_entries j r in (Build_MagnetDatabase md a x, er)
  end.

(** [json.Unmarshal(data, db)] *)
Definition Unmarshal (data : string) (db : MagnetDatabase) : MagnetDatabase * option error :=
  match parse data with
  | None => (db, Some ErrSyntax)
  | Some j =>
      decode_struct "main.MagnetDatabase" ["metadata"; "added"; "retry"]
        store_MagnetDatabase j db
  end.

Definition MagnetEntryV0_names : list string :=
  ["hash"; "title"; "uri"; "torrent_name"; "save_path"; "state"; "progress"; "status";
   "torrent_id"; "added_to_deluge"; "first_seen"; "last_attempt"; "backfilled"].

Definition store_MagnetEntryV0 (i : nat) (j : value) (e : V0.MagnetEntryV0)
  : V0.MagnetEntryV0 * option error :=
  let '(V0.Build_MagnetEntryV0 f0 f1 f2 f3 f4 f5 f6 f7 f8 f9 f10 f11 f12) := e in
  match i with
  | 0%nat => let '(x, er) := store_string j f0 in
             (V0.Build_MagnetEntryV0 x f1 f2 f3 f4 f5 f6 f7 f8 f9 f10 f11 f12, er)
  | 1%nat => let '(x, er) := store_string j f1 in
             (V0.Build_MagnetEntryV0 f0 x f2 f3 f4 f5 f6 f7 f8 f9 f10 f11 f12, er)
  | 2%nat => let '(x, er) := store_string j f2 in
             (V0.Build_MagnetEntryV0 f0 f1 x f3 f4 f5 f6 f7 f8 f9 f10 f11 f12, er)
  | 3%nat => let '(x, er) := store_string j f3 in
             (V0.Build_MagnetEntryV0 f0 f1 f2 x f4 f5 f6 f7 f8 f9 f10 f11 f12, er)
  | 4%nat => let '(x, er) := store_string j f4 in
             (V0.Build_MagnetEntryV0 f0 f1 f2 f3 x f5 f6 f7 f8 f9 f10 f11 f12, er)
  | 5%nat => let '(x, er) := store_string j f5 in
             (V0.Build_MagnetEntryV0 f0 f1 f2 f3 f4 x f6 f7 f8 f9 f10 f11 f12, er)
  | 6%nat => let '(x, er) := store_float j f6 in
             (V0.Build_MagnetEntryV0 f0 f1 f2 f3 f4 f5 x f7 f8 f9 f10 f11 f12, er)
  | 7%nat => let '(x, er) := store_string j f7 in
             (V0.Build_MagnetEntryV0 f0 f1 f2 f3 f4 f5 f6 x f8 f9 f10 f11 f12, er)
  | 8%nat => let '(x, er) := store_string j f8 in
             (V0.Build_MagnetEntryV0 f0 f1 f2 f3 f4 f5 f6 f7 x f9 f10 f11 f12, er)
  | 9%nat => let '(x, er) := store_string j f9 in
             (V0.Build_MagnetEntryV0 f0 f1 f2 f3 f4 f5 f6 f7 f8 x f10 f11 f12, er)
  | 10%nat => let '(x, er) := store_string j f10 in
              (V0.Build_MagnetEntryV0 f0 f1 f2 f3 f4 f5 f6 f7 f8 f9 x f11 f12, er)
  | 11%nat => let '(x, er) := store_string j f11 in
              (V0.Build_MagnetEntryV0 f0 f1 f2 f3 f4 f5 f6 f7 f8 f9 f10 x f12, er)
  | _ => let '(x, er) := store_string j f12 in
         (V0.Build_MagnetEntryV0 f0 f1 f2 f3 f4 f5 f6 f7 f8 f9 f10 f11 x, er)
  end.

(** [json.Unmarshal(data, &dbV0)] *)
Definition UnmarshalV0 (data : string) (m : gomap V0.MagnetEntryV0)
  : gomap V0.MagnetEntryV0 * option error :=
  match parse data with
  | None => (m, Some ErrSyntax)
  | Some j =>
      decode_map "map[string]main.MagnetEntryV0" V0.zero
        (decode_struct "main.MagnetEntryV0" MagnetEntryV0_names store_MagnetEntryV0) j m
  end.

Definition MagnetEntryV1_names : list string :=
  ["title"; "hash"; "uri"; "added_date"; "last_attempt"; "retry_count"; "save_path";
   "torrent_name"].

Definition store_MagnetEntryV1 (i : nat) (j : value) (e : V1.MagnetEntryV1)
  : V1.MagnetEntryV1 * option error :=
  let '(V1.Build_MagnetEntryV1 f0 f1 f2 f3 f4 f5 f6 f7) := e in
  match i with
  | 0%nat => let '(x, er) := store_string j f0 in (V1.Build_MagnetEntryV1 x f1 f2 f3 f4 f5 f6 f7, er)
  | 1%nat => let '(x, er) := store_string j f1 in (V1.Build_MagnetEntryV1 f0 x f2 f3 f4 f5 f6 f7, er)
  | 2%nat => let '(x, er) := store_string j f2 in (V1.Build_MagnetEntryV1 f0 f1 x f3 f4 f5 f6 f7, er)
  | 3%nat => let '(x, er) := store_string j f3 in (V1.Build_MagnetEntryV1 f0 f1 f2 x f4 f5 f6 f7, er)
  | 4%nat => let '(x, er) := store_string j f4 in (V1.Build_MagnetEntryV1 f0 f1 f2 f3 x f5 f6 f7, er)
  | 5%nat => let '(x, er) := store_int j f5 in (V1.Build_MagnetEntryV1 f0 f1 f2 f3 f4 x f6 f7, er)
  | 6%nat => let '(x, er) := store_string j f6 in (V1.Build_MagnetEntryV1 f0 f1 f2 f3 f4 f5 x f7, er)
  | _ => let '(x, er) := store_string j f7 in (V1.Build_MagnetEntryV1 f0 f1 f2 f3 f4 f5 f6 x, er)
  end.

Definition decode_entriesV1
  : value → gomap V1.MagnetEntryV1 → gomap V1.MagnetEntryV1 * option error :=
  decode_map "map[string]main.MagnetEntryV1" V1.zero
    (decode_struct "main.MagnetEntryV1" MagnetEntryV1_names store_MagnetEntryV1).

Definition store_MagnetDatabaseV1 (i : nat) (j : value) (db : V1.MagnetDatabaseV1)
  : V1.MagnetDatabaseV1 * option error :=
  let '(V1.Build_MagnetDatabaseV1 a r) := db in
  match i with
  | 0%nat => let '(x, er) := decode_entriesV1 j a in (V1.Build_MagnetDatabaseV1 x r, er)
  | _ => let '(x, er) := decode_entriesV1 j r in (V1.Build_MagnetDatabaseV1 a x, er)
  end.

(** [json.Unmarshal(data, dbV1)] *)
Definition UnmarshalV1 (data : string) (db : V1.MagnetDatabaseV1)
  : V1.MagnetDatabaseV1 * option error :=
  match parse data with
  | None => (db, Some ErrSyntax)
  | Some j =>
      decode_struct "main.MagnetDatabaseV1" ["added"; "retry"] store_MagnetDatabaseV1 j db
  end.

(** ** The world: files, faults, entropy and time *)

(** A fault makes the next file operation fail with [fault_msg]; a failed
    write may leave the first [n] bytes behind ([fault_partial = Some n])
    or not create the file at all. *)
Record fault := Fault {
  fault_msg : string;
  fault_partial : option nat
}.

Inductive platform := Unix | Windows.

Record World := {
  files : gmap string string;     (* path to contents *)
  faults : list (option fault);   (* outcome of the coming file operations *)
  entropy : list string;          (* what the coming reads of crypto/rand fill in *)
  clock : string;                 (* time.Now().Format(time.RFC3339) *)
  nanos : Z;                      (* time.Now().UnixNano() *)
  order : range_oracle;           (* iteration order of range over a map *)
  os : platform
}.

Definition set_files (w : World) (f : gmap string string) : World :=
  {| files := f; faults := faults w; entropy := entropy w; clock := clock w;
     nanos := nanos w; order := order w; os := os w |}.

Definition set_faults (w : World) (l : list (option fault)) : World :=
  {| files := files w; faults := l; entropy := entropy w; clock := clock w;
     nanos := nanos w; order := order w; os := os w |}.

Definition set_entropy (w : World) (l : list string) : World :=
  {| files := files w; faults := faults w; entropy := l; clock := clock w;
     nanos := nanos w; order := order w; os := os w |}.

(** Computations over the world; [None] is a run-time panic. *)
Definition M (A : Type) : Type := World → option (A * World).

#[global] Instance M_ret : MRet M := λ A a w, Some (a, w).
#[global] Instance M_bind : MBind M := λ A B k m w,
  match m w with
  | Some (a, w') => k a w'
  | None => None
  end.

Definition get_world : M World := λ w, Some (w, w).
Definition panic {A} : M A := λ _, None.
Definition must {A} (o : option A) : M A :=
  match o with Some a => mret a | None => panic end.

Definition put_files (f : gmap string string) : M unit := λ w,
  Some (tt, set_files w f).

Definition next_fault : M (option fault) := λ w,
  match faults w with
  | [] => Some (None, w)
  | f :: r => Some (f, set_faults w r)
  end.

(** os.Stat, as far as [os.IsNotExist] looks at it *)
Definition Stat_IsNotExist (path : string) : M bool := λ w,
  Some (bool_decide (files w !! path = None), w).

Definition ReadFile (path : string) : M (string * option error) :=
  f ← next_fault;
  match f with
  | Some ft => mret ("", Some (ErrIO (fault_msg ft)))
  | None =>
      w ← get_world;
      match files w !! path with
      | Some data => mret (data, None)
      | None => mret ("", Some (ErrNotExist path))
      end
  end.

Definition WriteFile (path data : string) : M (option error) :=
  f ← next_fault;
  w ← get_world;
  match f with
  | Some ft =>
      match fault_partial ft with
      | Some n => put_files (<[path := stake n data]> (files w))
      | None => mret tt
      end;;
      mret (Some (ErrIO (fault_msg ft)))
  | None =>
      put_files (<[path := data]> (files w));;
      mret None
  end.

Definition Rename (oldpath newpath : string) : M (option error) :=
  f ← next_fault;
  w ← get_world;
  match f with
  | Some ft => mret (Some (ErrIO (fault_msg ft)))
  | None =>
      match files w !! oldpath with
      | Some data =>
          put_files (<[newpath := data]> (delete oldpath (files w)));;
          mret None
      | None => mret (Some (ErrNotExist oldpath))
      end
  end.

(** os.Remove *)
Definition Remove (path : string) : M (option error) :=
  f ← next_fault;
  w ← get_world;
  match f with
  | Some ft => mret (Some (ErrIO (fault_msg ft)))
  | None =>
      match files w !! path with
      | Some _ =>
          put_files (delete path (files w));;
          mret None
      | None => mret (Some (ErrNotExist path))
      end
  end.

Definition Sleep (milliseconds : Z) : M unit := mret tt.

Definition Now_RFC3339 : M string := λ w, Some (clock w, w).

(** GenerateUUID generates a RFC4122 v4 UUID *)
Definition GenerateUUID : M string := λ w,
  let '(read, rest) :=
    match entropy w with
    | [] => (None, [])
    | s :: r => (if (String.length s =? 16)%nat then Some (bytes_of s) else None, r)
    end in
  let w' := set_entropy w rest in
  match read with
  | None => Some ("fallback-" +:+ FormatInt (nanos w), w')
  | Some uuid =>
      let uuid := alter (λ b, Z.lor (Z.land b 15) 64) 6%nat uuid in
      let uuid := alter (λ b, Z.lor (Z.land b 63) 128) 8%nat uuid in
      let part (i n : nat) := hex.EncodeToString (take n (drop i uuid)) in
      Some (part 0 4 +:+ "-" +:+ part 4 2 +:+ "-" +:+ part 6 2 +:+ "-" +:+ part 8 2
              +:+ "-" +:+ part 10 6, w')
  end%nat.

(** ComputeFileChecksum computes SHA1 hash of file contents on disk *)
Definition ComputeFileChecksum (path : string) : M (string * option error) :=
  '(data, err) ← ReadFile path;
  match err with
  | Some e => mret ("", Some e)
  | None => mret (hex.EncodeToString (sha1.Sum (bytes_of data)), None)
  end.

(** ** Configuration *)

Record Config := {
  DelugeHost : string;
  DelugePort : string;
  DelugePassword : string;
  DelugeLabel : string;
  JSONPath : string;
  RemotePath : string
}.

Definition GetDefaultRemotePath (p : platform) : string :=
  match p with
  | Unix => ""
  | Windows => "W:\magnet-list-network.json"
  end.

(** GetRemotePath returns the remote path for the database from config *)
Definition GetRemotePath (config : option Config) : M string :=
  match config with
  | Some c =>
      if negb (String.eqb (RemotePath c) "") then mret (RemotePath c)
      else w ← get_world; mret (GetDefaultRemotePath (os w))
  | None => w ← get_world; mret (GetDefaultRemotePath (os w))
  end.

(** ** LoadJSONDatabase *)

Definition is_nil {A} (o : option A) : bool :=
  match o with None => true | Some _ => false end.

(** [for hash, v0 := range dbV0]: every V0 entry goes into "added". *)
Fixpoint range_V0 (l : list (string * V0.MagnetEntryV0))
    (added : gomap MagnetEntry) (nextID : Z) : M (gomap MagnetEntry * Z) :=
  match l with
  | [] => mret (added, nextID)
  | (hash, v0) :: r =>
      let uri := if String.eqb (V0.URI v0) ""
                 then "magnet:?xt=urn:btih:" +:+ V0.Hash v0
                 else V0.URI v0 in
      uuid ← GenerateUUID;
      added ← must (go_set added hash
        {| UUID := uuid; ID := nextID; Title := V0.Title v0; Hash := V0.Hash v0;
           URI := uri; AddedDate := V0.FirstSeen v0; FirstSeen := V0.FirstSeen v0;
           LastAttempt := V0.LastAttempt v0; Status := V0.Status v0;
           TorrentID := V0.TorrentID v0; AddedToDeluge := V0.AddedToDeluge v0;
           RetryCount := 0; SavePath := V0.SavePath v0;
           TorrentName := V0.TorrentName v0 |});
      range_V0 r added (wrap64 (nextID + 1))
  end.

(** [for hash, v1 := range dbV1.Added] and [... range dbV1.Retry] *)
Fixpoint range_V1 (l : list (string * V1.MagnetEntryV1))
    (target : gomap MagnetEntry) (nextID : Z) : M (gomap MagnetEntry * Z) :=
  match l with
  | [] => mret (target, nextID)
  | (hash, v1) :: r =>
      uuid ← GenerateUUID;
      target ← must (go_set target hash
        {| UUID := uuid; ID := nextID; Title := V1.Title v1; Hash := V1.Hash v1;
           URI := V1.URI v1; AddedDate := V1.AddedDate v1; FirstSeen := "";
           LastAttempt := V1.LastAttempt v1; Status := ""; TorrentID := "";
           AddedToDeluge := ""; RetryCount := V1.RetryCount v1;
           SavePath := V1.SavePath v1; TorrentName := V1.TorrentName v1 |});
      range_V1 r target (wrap64 (nextID + 1))
  end.

Definition with_sequence_and_checksum (db : MagnetDatabase) (seq : Z) : MagnetDatabase :=
  let db1 := {| Metadata := {| LastSequence := seq;
                               LastModified := LastModified (Metadata db);
                               Checksum := Checksum (Metadata db) |};
                Added := Added db; Retry := Retry db |} in
  {| Metadata := {| LastSequence := seq;
                    LastModified := LastModified (Metadata db);
                    Checksum := ComputeChecksum db1 |};
     Added := Added db; Retry := Retry db |}.

(** What the loader does with the bytes it has read: the three schemas
    are tried in turn on the same buffer (the body of the read loop after
    a successful read). *)
Definition parse_database (data : string) (db : MagnetDatabase)
  : M (option MagnetDatabase * option error) :=
  (* Try to parse as current format first *)
  let '(db, err) := Unmarshal data db in
  if is_nil err && ((0 <? go_len (Added db)) || (0 <? go_len (Retry db))) then
    mret (Some db, None)
  else
  (* Try V0 format (Python version - flat map of hash->entry) *)
  let '(dbV0, errV0) := UnmarshalV0 data make in
  if is_nil errV0 && (0 <? go_len dbV0) then
    w ← get_world;
    '(added, nextID) ← range_V0 (go_range (order w) dbV0) (Added db) 1;
    let db := {| Metadata := Metadata db; Added := added; Retry := Retry db |} in
    mret (Some (with_sequence_and_checksum db (wrap64 (nextID - 1))), None)
  else
  (* Try V1 format (no metadata, no IDs, but has added/retry) *)
  let '(dbV1, errV1) := UnmarshalV1 data {| V1.Added := make; V1.Retry := make |} in
  if is_nil errV1 && ((0 <? go_len (V1.Added dbV1)) || (0 <? go_len (V1.Retry dbV1))) then
    w ← get_world;
    '(added, nextID) ← range_V1 (go_range (order w) (V1.Added dbV1)) (Added db) 1;
    '(retry, nextID) ← range_V1 (go_range (order w) (V1.Retry dbV1)) (Retry db) nextID;
    let db := {| Metadata := Metadata db; Added := added; Retry := retry |} in
    let db := with_sequence_and_checksum db (wrap64 (nextID - 1)) in
    let totalEntries := go_len (Added db) + go_len (Retry db) in
    if (1024 <? Z.of_nat (String.length data)) && (totalEntries =? 0) then
      mret (None, Some (Errorf "V1 parsing failed: 0 entries"))
    else mret (Some db, None)
  else
  (* SAFETY CHECK: a large file is only reported in the log *)
  mret (None, Some (Errorf "unrecognized format")).

(** The guards of the three branches: a schema is accepted when its parse
    succeeds and yields at least one entry. *)
Definition accepts_current (data : string) (db : MagnetDatabase) : bool :=
  let '(db, err) := Unmarshal data db in
  is_nil err && ((0 <? go_len (Added db)) || (0 <? go_len (Retry db))).

Definition accepts_V0 (data : string) : bool :=
  let '(dbV0, errV0) := UnmarshalV0 data make in
  is_nil errV0 && (0 <? go_len dbV0).

Definition accepts_V1 (data : string) : bool :=
  let '(dbV1, errV1) := UnmarshalV1 data {| V1.Added := make; V1.Retry := make |} in
  is_nil errV1 && ((0 <? go_len (V1.Added dbV1)) || (0 <? go_len (V1.Retry dbV1))).

(** [for attempt := 0; attempt < 5; attempt++]: [todo] attempts are left. *)
Fixpoint load_attempts (todo : nat) (attempt : Z) (path : string) (db : MagnetDatabase)
  : M (option MagnetDatabase * option error) :=
  match todo with
  | O => mret (Some db, Some (Errorf "failed to load JSON after retries"))
  | S todo' =>
      '(data, err) ← ReadFile path;
      match err with
      | Some e =>
          if attempt <? 4 then
            Sleep ((attempt + 1) * 500);;
            load_attempts todo' (attempt + 1) path db
          else mret (Some db, Some e)
      | None => parse_database data db
      end
  end.

(** LoadJSONDatabase loads the JSON database file with retry logic *)
Definition LoadJSONDatabase (path : string) : M (option MagnetDatabase * option error) :=
  let db := empty_database in
  missing ← Stat_IsNotExist path;
  if missing : bool then mret (Some db, None)
  else load_attempts 5 0 path db.

(** [db.Metadata.LastModified = now] followed by
    [db.Metadata.Checksum = ComputeChecksum(db)]: the checksum is taken
    after the new time has been stored, over the old checksum. *)
Definition stamp (now : string) (db : MagnetDatabase) : MagnetDatabase :=
  let db := {| Metadata := {| LastSequence := LastSequence (Metadata db);
                              LastModified := now;
                              Checksum := Checksum (Metadata db) |};
               Added := Added db; Retry := Retry db |} in
  {| Metadata := {| LastSequence := LastSequence (Metadata db);
                    LastModified := now;
                    Checksum := ComputeChecksum db |};
     Added := Added db; Retry := Retry db |}.

(** ** MergeDatabases *)

Record candidate := Candidate {
  entry : MagnetEntry;
  isAdded : bool;
  exists_ : bool
}.

(** [v, ok := m[k]] *)
Definition comma_ok (m : gomap MagnetEntry) (k : string) : MagnetEntry * bool :=
  match go_get m k with
  | Some v => (v, true)
  | None => (zero_entry, false)
  end.

(** The loop over the candidates: [(winner, inAdded, winnerFound)]. *)
Definition select_winner (candidates : list candidate) : MagnetEntry * bool * bool :=
  fold_left
    (λ st c,
       let '(winner, inAdded, winnerFound) := st in
       if negb (exists_ c) then st
       else if negb winnerFound || (isAdded c && negb inAdded) || (ID winner <? ID (entry c))
       then (entry c, isAdded c, true)
       else st)
    candidates (zero_entry, false, false).

Definition candidates_of (local remote : MagnetDatabase) (hash : string) : list candidate :=
  let '(localAdded, inLocalAdded) := comma_ok (Added local) hash in
  let '(localRetry, inLocalRetry) := comma_ok (Retry local) hash in
  let '(remoteAdded, inRemoteAdded) := comma_ok (Added remote) hash in
  let '(remoteRetry, inRemoteRetry) := comma_ok (Retry remote) hash in
  [Candidate localAdded true inLocalAdded;
   Candidate localRetry false inLocalRetry;
   Candidate remoteAdded true inRemoteAdded;
   Candidate remoteRetry false inRemoteRetry].

(** The state of the loop over all hashes: the two maps of [merged] and
    [nextID]. *)
Definition merge_state : Type := gmap string MagnetEntry * gmap string MagnetEntry * Z.

Definition merge_step (local remote : MagnetDatabase) (st : merge_state) (hash : string)
  : merge_state :=
  let '(added, retry, nextID) := st in
  let '(winner, inAdded, winnerFound) := select_winner (candidates_of local remote hash) in
  if winnerFound then
    (* Assign new sequential ID if needed *)
    let '(winner, nextID) :=
      if ID winner =? 0 then (with_ID winner nextID, wrap64 (nextID + 1))
      else if nextID <=? ID winner then (winner, wrap64 (ID winner + 1))
      else (winner, nextID) in
    if inAdded then (<[hash := winner]> added, retry, nextID)
    else (added, <[hash := winner]> retry, nextID)
  else st.

Definition allHashes (local remote : MagnetDatabase) : gset string :=
  dom (entries (Added local)) ∪ dom (entries (Retry local))
  ∪ dom (entries (Added remote)) ∪ dom (entries (Retry remote)).

(** MergeDatabases intelligently merges two databases based on sequence
    numbers.  It reads the clock and the iteration order of the world. *)
Definition MergeDatabases (w : World) (local remote : MagnetDatabase) : MagnetDatabase :=
  let '(added, retry, nextID) :=
    fold_left (merge_step local remote)
      (shuffle (order w) _ (elements (allHashes local remote))) (∅, ∅, 1) in
  (* Update metadata *)
  stamp (clock w)
    {| Metadata := {| LastSequence := wrap64 (nextID - 1);
                      LastModified := "";
                      Checksum := "" |};
       Added := GoMap added; Retry := GoMap retry |}.

(** ** SyncWithRemote *)

(** SyncWithRemote syncs local database with remote, returns merged result *)
Definition SyncWithRemote (localPath remotePath : string)
  : M (option MagnetDatabase * option error) :=
  (* Compute file checksums BEFORE loading/parsing *)
  '(localFileChecksum, localFileErr) ← ComputeFileChecksum localPath;
  '(remoteFileChecksum, remoteFileErr) ← ComputeFileChecksum remotePath;
  (* If file checksums match, no need to merge *)
  if is_nil localFileErr && is_nil remoteFileErr
     && String.eqb localFileChecksum remoteFileChecksum
     && (8 <=? String.length localFileChecksum)%nat
  then
    '(local, err) ← LoadJSONDatabase localPath;
    match err with
    | Some e => mret (None, Some (Wrapf "failed to load local: " e))
    | None => mret (local, None)
    end
  else
    (* Load local *)
    '(local, err) ← LoadJSONDatabase localPath;
    let local := if is_nil err then local else Some empty_database in
    (* Try to load remote *)
    '(remote, err) ← LoadJSONDatabase remotePath;
    match err with
    | Some _ => mret (local, None)
    | None =>
        (* Files differ, need to merge *)
        local ← must local;
        remote ← must remote;
        w ← get_world;
        mret (Some (MergeDatabases w local remote), None)
    end.

(** ** SaveDatabaseLocal *)

(** SaveDatabaseLocal saves database to local path only (fast).  The
    metadata of the caller's database is updated in place: the updated
    database is returned with the error. *)
Definition SaveDatabaseLocal (path : string) (db : MagnetDatabase)
  : M (MagnetDatabase * option error) :=
  (* Update metadata *)
  now ← Now_RFC3339;
  let db := stamp now db in
  (* Write to temp file first, then rename (atomic) *)
  let tempPath := path +:+ ".tmp" in
  let '(data, err) := MarshalIndent db in
  match err with
  | Some e => mret (db, Some e)
  | None =>
      err ← WriteFile tempPath data;
      match err with
      | Some e => mret (db, Some e)
      | None =>
          (* Atomic rename *)
          err ← Rename tempPath path;
          match err with
          | Some e => Remove tempPath;; mret (db, Some e)
          | None => mret (db, None)
          end
      end
  end.

(** ** SaveJSONDatabase *)

Definition assign_id (entry : MagnetEntry) (nextID : Z) : MagnetEntry * Z :=
  if ID entry =? 0 then (with_ID entry nextID, wrap64 (nextID + 1)) else (entry, nextID).

(** [for hash, entry := range updates.Added] *)
Fixpoint apply_added (l : list (string * MagnetEntry))
    (added retry : gomap MagnetEntry) (nextID : Z)
  : option (gomap MagnetEntry * gomap MagnetEntry * Z) :=
  match l with
  | [] => Some (added, retry, nextID)
  | (hash, entry) :: r =>
      let '(entry, nextID) := assign_id entry nextID in
      added ← go_set added hash entry;
      (* Remove from retry if exists *)
      apply_added r added (go_delete retry hash) nextID
  end.

(** [for hash, entry := range updates.Retry] *)
Fixpoint apply_retry (l : list (string * MagnetEntry))
    (retry : gomap MagnetEntry) (nextID : Z) : option (gomap MagnetEntry * Z) :=
  match l with
  | [] => Some (retry, nextID)
  | (hash, entry) :: r =>
      let '(entry, nextID) := assign_id entry nextID in
      retry ← go_set retry hash entry;
      apply_retry r retry nextID
  end.

(** "Apply updates to merged database": the overlay of [updates] on the
    reconciled database inside SaveJSONDatabase. *)
Definition applyUpdates (o : range_oracle) (merged updates : MagnetDatabase)
  : option MagnetDatabase :=
  let nextID := wrap64 (LastSequence (Metadata merged) + 1) in
  '(added, retry, nextID) ←
    apply_added (go_range o (Added updates)) (Added merged) (Retry merged) nextID;
  '(retry, nextID) ← apply_retry (go_range o (Retry updates)) retry nextID;
  Some {| Metadata := {| LastSequence := wrap64 (nextID - 1);
                         LastModified := LastModified (Metadata merged);
                         Checksum := Checksum (Metadata merged) |};
          Added := added; Retry := retry |}.

(** SaveJSONDatabase saves database locally with smart sync logic *)
Definition SaveJSONDatabase (localPath : string) (updates : MagnetDatabase)
    (config : option Config) : M (option error) :=
  remotePath ← GetRemotePath config;
  (* Load and sync with remote first *)
  '(merged, err) ← SyncWithRemote localPath remotePath;
  merged ←
    (if is_nil err then mret merged
     else
       (* Try to at least load local *)
       '(merged, err) ← LoadJSONDatabase localPath;
       if is_nil err then mret merged else mret (Some empty_database));
  merged ← must merged;
  (* Safety check: if merged database is empty but remote has data, use remote *)
  merged ←
    (if (go_len (Added merged) =? 0) && (go_len (Retry merged) =? 0)
        && negb (String.eqb remotePath "")
     then
       '(remote, err) ← LoadJSONDatabase remotePath;
       match err, remote with
       | None, Some remote =>
           if (0 <? go_len (Added remote)) || (0 <? go_len (Retry remote))
           then mret remote else mret merged
       | None, None => panic
       | Some _, _ => mret merged
       end
     else mret merged);
  (* Apply updates to merged database *)
  w ← get_world;
  merged ← must (applyUpdates (order w) merged updates);
  (* Save locally (fast, no network) *)
  '(merged, err) ← SaveDatabaseLocal localPath merged;
  match err with
  | Some e => mret (Some (Wrapf "failed to save local: " e))
  | None =>
      (* Try to copy to remote (best effort, don't fail if network issue) *)
      (if negb (String.eqb remotePath "")
       then SaveDatabaseLocal remotePath merged;; mret tt
       else mret tt);;
      mret None
  end.

(** ** regexp: the fragment the store uses *)

Module regexp.
Inductive syntax :=
| Lit (s : string)                (* literal text *)
| Class (p : ascii → bool)        (* one character of a class *)
| Cat (a b : syntax)              (* concatenation *)
| Alt (a b : syntax)              (* a|b, the left branch is preferred *)
| Repeat (n : nat) (a : syntax)   (* a{n} *)
| Capture (a : syntax).           (* a parenthesised group *)

(** A backtracking matcher: [k] continues with the rest of the input and
    the text of the group.  The first success in the order of preference
    is the leftmost-first match. *)
Fixpoint run {X} (r : syntax) (s : string) (cap : option string)
    (k : string → option string → option X) : option X :=
  match r with
  | Lit l =>
      match strip_prefix l s with
      | Some rest => k rest cap
      | None => None
      end
  | Class p =>
      match s with
      | String c rest => if p c then k rest cap else None
      | "" => None
      end
  | Cat a b => run a s cap (λ s' cap', run b s' cap' k)
  | Alt a b =>
      match run a s cap k with
      | Some x => Some x
      | None => run b s cap k
      end
  | Repeat n a =>
      (fix rep (n : nat) (s : string) (cap : option string) : option X :=
         match n with
         | O => k s cap
         | S n' => run a s cap (λ s' cap', rep n' s' cap')
         end) n s cap
  | Capture a =>
      run a s cap (λ s' _, k s' (Some (stake (String.length s - String.length s') s)))
  end.

(** A match that starts at the head of [s]: the matched text and the group. *)
Definition match_here (r : syntax) (s : string) : option (string * option string) :=
  run r s None (λ s' cap, Some (stake (String.length s - String.length s') s, cap)).

(** FindStringSubmatch for a pattern with one group: the leftmost match
    and its group, or nil. *)
Fixpoint FindStringSubmatch (r : syntax) (s : string) : list string :=
  match match_here r s with
  | Some (whole, cap) => [whole; default "" cap]
  | None =>
      match s with
      | "" => []
      | String _ rest => FindStringSubmatch r rest
      end
  end.
(** The words a pattern without groups matches. *)
Fixpoint lang (r : syntax) (w : string) : Prop :=
  match r with
  | Lit l => w = l
  | Class p => ∃ c, w = String c "" ∧ p c = true
  | Cat a b => ∃ u v, w = u +:+ v ∧ lang a u ∧ lang b v
  | Alt a b => lang a w ∨ lang b w
  | Repeat n a =>
      (fix rep (n : nat) (w : string) : Prop :=
         match n with
         | O => w = ""
         | S n' => ∃ u v, w = u +:+ v ∧ lang a u ∧ rep n' v
         end) n w
  | Capture a => lang a w
  end.

Fixpoint capture_free (r : syntax) : bool :=
  match r with
  | Lit _ | Class _ => true
  | Cat a b | Alt a b => capture_free a && capture_free b
  | Repeat _ a => capture_free a
  | Capture _ => false
  end.
End regexp.

Definition in_range (lo hi : Z) (c : ascii) : bool := (lo <=? code c) && (code c <=? hi).

(** [a-fA-F0-9] *)
Definition hex_class (c : ascii) : bool :=
  in_range 97 102 c || in_range 65 70 c || in_range 48 57 c.

(** [a-zA-Z0-9] *)
Definition alnum_class (c : ascii) : bool :=
  in_range 97 122 c || in_range 65 90 c || in_range 48 57 c.

(** [xt=urn:btih:([a-fA-F0-9]{40}|[a-zA-Z0-9]{32})] *)
Definition magnet_hash_re : regexp.syntax :=
  regexp.Cat (regexp.Lit "xt=urn:btih:")
    (regexp.Capture
       (regexp.Alt (regexp.Repeat 40 (regexp.Class hex_class))
                   (regexp.Repeat 32 (regexp.Class alnum_class)))).

(** [a-z0-9] *)
Definition lower_alnum (c : ascii) : bool := in_range 97 122 c || in_range 48 57 c.

(** strings.ToLower on ASCII text *)
Definition lower (c : ascii) : ascii :=
  if in_range 65 90 c then chr (code c + 32) else c.

Definition ToLower (s : string) : string := map_chars lower s.

(** ExtractMagnetHash extracts the info hash from a magnet URI *)
Definition ExtractMagnetHash (uri : string) : string :=
  let matches := regexp.FindStringSubmatch magnet_hash_re uri in
  if (1 <? length matches)%nat then ToLower (nth 1 matches "") else "".

(** ** ValidateMagnetURI *)

(** strings.HasPrefix *)
Definition HasPrefix (s prefix : string) : bool :=
  match strip_prefix prefix s with Some _ => true | None => false end.

(** strings.Contains *)
Fixpoint Contains (s substr : string) : bool :=
  match strip_prefix substr s with
  | Some _ => true
  | None => match s with "" => false | String _ r => Contains r substr end
  end.

(** [a*] and [a+] unrolled [n] times, the longer match first: exact on
    inputs of at most [n] characters when [a] consumes a character. *)
Fixpoint star (n : nat) (a : regexp.syntax) : regexp.syntax :=
  match n with
  | O => regexp.Lit ""
  | S n' => regexp.Alt (regexp.Cat a (star n' a)) (regexp.Lit "")
  end.

Definition plus (n : nat) (a : regexp.syntax) : regexp.syntax := regexp.Cat a (star n a).

(** MatchString for a pattern between [^] and [$]. *)
Definition MatchString_anchored (r : regexp.syntax) (s : string) : bool :=
  match regexp.run r s None (λ s' _, if String.eqb s' "" then Some tt else None) with
  | Some _ => true
  | None => false
  end.

(** [a-zA-Z0-9:?&=%\-_.~+] *)
Definition valid_class (c : ascii) : bool :=
  alnum_class c
  || existsb (Ascii.eqb c) [":"; "?"; "&"; "="; "%"; "-"; "_"; "."; "~"; "+"]%char.

(** [^magnet:\?[a-zA-Z0-9:?&=%\-_.~+]+$], for an input of [n] characters *)
Definition validPattern (n : nat) : regexp.syntax :=
  regexp.Cat (regexp.Lit "magnet:?") (plus n (regexp.Class valid_class)).

(** ValidateMagnetURI strictly validates a magnet URI to prevent injection *)
Definition ValidateMagnetURI (uri : string) : bool :=
  (* Must start with magnet:? *)
  if negb (HasPrefix uri "magnet:?") then false
  else if negb (MatchString_anchored (validPattern (String.length uri)) uri) then false
  (* Must have xt parameter *)
  else if negb (Contains uri "xt=urn:btih:") then false
  else true.

(** ** ExtractMagnetName *)

(** [[^&]] *)
Definition not_amp (c : ascii) : bool := negb (Ascii.eqb c "&").

(** [dn=([^&]+)], for an input of [n] characters *)
Definition dn_re (n : nat) : regexp.syntax :=
  regexp.Cat (regexp.Lit "dn=") (regexp.Capture (plus n (regexp.Class not_amp))).

(** strings.ReplaceAll(name, "+", " "), character by character *)
Definition plus_to_space (c : ascii) : ascii := if Ascii.eqb c "+" then " "%char else c.

(** The one-byte spaces that the scanner of fmt skips; a newline is an
    error instead. *)
Definition scan_space (c : ascii) : bool :=
  (code c =? 9) || (code c =? 11) || (code c =? 12) || (code c =? 13) || (code c =? 32).

(** [fmt.Sscanf(hexVal, "%02x", &b)] on the two bytes of [hexVal]: leading
    space is skipped, then one or two hexadecimal digits are read; what is
    left of the input is ignored. *)
Definition Sscanf_02x (h1 h2 : ascii) : option Z :=
  match json.hexval h1 with
  | Some d1 =>
      match json.hexval h2 with
      | Some d2 => Some (16 * d1 + d2)
      | None => Some d1
      end
  | None => if scan_space h1 then json.hexval h2 else None
  end.

(** The decoding loop of ExtractMagnetName; [string(b)] of a byte is the
    UTF-8 encoding of the code point [b]. *)
Fixpoint decode_name (name : string) : string :=
  match name with
  | "" => ""
  | String c r =>
      match r with
      | String h1 (String h2 r') =>
          if Ascii.eqb c "%" then
            match Sscanf_02x h1 h2 with
            | Some b => utf8.EncodeRune b +:+ decode_name r'
            | None => utf8.EncodeRune (code c) +:+ decode_name r
            end
          else utf8.EncodeRune (code c) +:+ decode_name r
      | _ => utf8.EncodeRune (code c) +:+ decode_name r
      end
  end.

(** ExtractMagnetName extracts the display name from a magnet URI *)
Definition ExtractMagnetName (uri : string) : string :=
  (* Find dn= parameter *)
  let matches := regexp.FindStringSubmatch (dn_re (String.length uri)) uri in
  if (1 <? length matches)%nat then
    decode_name (map_chars plus_to_space (nth 1 matches ""))
  else "Unknown".

(** ** MigrateFileFormat *)

(** [for hash, entry := range m]: an entry without a UUID is given one
    and stored back under its hash. *)
Fixpoint fill_uuids (l : list (string * MagnetEntry)) (m : gomap MagnetEntry)
  : M (gomap MagnetEntry) :=
  match l with
  | [] => mret m
  | (hash, entry) :: r =>
      if String.eqb (UUID entry) "" then
        uuid ← GenerateUUID;
        m ← must (go_set m hash (with_UUID entry uuid));
        fill_uuids r m
      else fill_uuids r m
  end.

(** MigrateFileFormat migrates a JSON file to the new format with proper
    checksums *)
Definition MigrateFileFormat (path : string) : M (option error) :=
  (* Compute original file checksum BEFORE loading *)
  missing ← Stat_IsNotExist path;
  (if missing : bool then mret tt else ComputeFileChecksum path;; mret tt);;
  (* Load the file (will handle legacy format) *)
  '(db, err) ← LoadJSONDatabase path;
  match err with
  | Some e => mret (Some (Wrapf "failed to load database: " e))
  | None =>
      db ← must db;
      (* Update checksum and metadata *)
      let checksum := ComputeChecksum db in
      (* Generate UUIDs for entries that don't have them *)
      w ← get_world;
      added ← fill_uuids (go_range (order w) (Added db)) (Added db);
      retry ← fill_uuids (go_range (order w) (Retry db)) (Retry db);
      now ← Now_RFC3339;
      let db := {| Metadata := {| LastSequence := LastSequence (Metadata db);
                                  LastModified := now;
                                  Checksum := checksum |};
                   Added := added; Retry := retry |} in
      (* Save with new format *)
      '(db, err) ← SaveDatabaseLocal path db;
      match err with
      | Some e => mret (Some (Wrapf "failed to save migrated file: " e))
      | None =>
          (* Compute new file checksum AFTER saving *)
          ComputeFileChecksum path;;
          mret None
      end
  end.

(** ** Worlds and inputs used in the examples *)

Program Definition in_order : range_oracle :=
  {| shuffle := λ A l, l |}.
Next Obligation. reflexivity. Qed.

Program Definition reversed : range_oracle :=
  {| shuffle := λ A l, rev l |}.
Next Obligation. intros A l. symmetry. apply Permutation_rev. Qed.

Definition quiet (fs : gmap string string) : World :=
  {| files := fs; faults := []; entropy := []; clock := "2024-01-01T00:00:00Z";
     nanos := 1704067200000000000; order := in_order; os := Unix |}.

Definition sample_entry (hash title : string) (id : Z) : MagnetEntry :=
  {| UUID := ""; ID := id; Title := title; Hash := hash; URI := ""; AddedDate := "";
     FirstSeen := ""; LastAttempt := ""; Status := ""; TorrentID := "";
     AddedToDeluge := ""; RetryCount := 0; SavePath := ""; TorrentName := "" |}.

Definition database (seq : Z) (added retry : list (string * MagnetEntry)) : MagnetDatabase :=
  {| Metadata := {| LastSequence := seq; LastModified := ""; Checksum := "" |};
     Added := GoMap (list_to_map added); Retry := GoMap (list_to_map retry) |}.

Definition hash_h : string := "aaaaaaaaaaaaaaaaaaaaaaaaaaaaaaaaaaaaaaaa".

(** Two replicas that disagree on the section of [hash_h]. *)
Definition local_added_1 : MagnetDatabase :=
  database 1 [(hash_h, sample_entry hash_h "local" 1)] [].

Definition remote_retry_5 : MagnetDatabase :=
  database 5 [] [(hash_h, sample_entry hash_h "remote" 5)].

(** A reconciled database that holds [hash_h] in "added", and an update
    that queues the same hash for a retry. *)
Definition reconciled_added : MagnetDatabase :=
  database 1 [(hash_h, sample_entry hash_h "done" 1)] [].

Definition update_retry : MagnetDatabase :=
  database 0 [] [(hash_h, sample_entry hash_h "again" 0)].

(** A reconciled database at sequence 3, and an update whose entry comes
    with the identifier 50. *)
Definition reconciled_seq_3 : MagnetDatabase := database 3 [] [].

Definition update_preset_50 : MagnetDatabase :=
  database 0 [(hash_h, sample_entry hash_h "preset" 50)] [].

(** A database whose counter is ahead of its entries. *)
Definition local_seq_10 : MagnetDatabase :=
  database 10 [(hash_h, sample_entry hash_h "kept" 1)] [].

(** Two databases with the same entries and different metadata. *)
Definition content_seq_0 : MagnetDatabase :=
  database 0 [("hash1", sample_entry "hash1" "Test1" 0)] [].

Definition content_seq_7 : MagnetDatabase :=
  database 7 [("hash1", sample_entry "hash1" "Test1" 0)] [].

(** * Vocabulary of the statements *)

(** ** Merge *)

(** The [winnerFound] flag of the selection loop. *)
Definition st_found (st : MagnetEntry * bool * bool) : bool := st.2.

(** The hash is a key of one of the four input maps. *)
Definition known (local remote : MagnetDatabase) (h : string) : Prop :=
  is_Some (go_get (Added local) h) ∨ is_Some (go_get (Retry local) h)
  ∨ is_Some (go_get (Added remote) h) ∨ is_Some (go_get (Retry remote) h).

(** The hash is a key of one of the two maps built so far. *)
Definition holds (st : merge_state) (h : string) : Prop :=
  is_Some (st.1.1 !! h) ∨ is_Some (st.1.2 !! h).

(** ** The hash of a magnet URI *)

(** The two alternatives of the group of [magnet_hash_re]. *)
Definition hash_shape (g : string) : Prop :=
  (String.length g = 40%nat ∧ all_chars hex_class g = true)
  ∨ (String.length g = 32%nat ∧ all_chars alnum_class g = true).

(** ** Results of a load *)

(** The load returned [nil] and an error. *)
Definition nil_database_error (r : option ((option MagnetDatabase * option error) * World)) : Prop :=
  ∃ e w', r = Some ((None, Some e), w').

(** ** UTF-8 text and the string encoder *)

(** The well-formed sequences of two, three and four bytes. *)
Inductive sequence : string → Z → nat → Prop :=
| Seq2 c0 c1 :
    194 ≤ code c0 ≤ 223 → 128 ≤ code c1 ≤ 191 →
    sequence (String c0 (String c1 "")) (code c0 mod 32 * 64 + code c1 mod 64) 2
| Seq3 c0 c1 c2 :
    224 ≤ code c0 ≤ 239 → 128 ≤ code c1 ≤ 191 → 128 ≤ code c2 ≤ 191 →
    (code c0 = 224 → 160 ≤ code c1) → (code c0 = 237 → code c1 ≤ 159) →
    sequence (String c0 (String c1 (String c2 "")))
      (code c0 mod 16 * 4096 + code c1 mod 64 * 64 + code c2 mod 64) 3
| Seq4 c0 c1 c2 c3 :
    240 ≤ code c0 ≤ 244 → 128 ≤ code c1 ≤ 191 → 128 ≤ code c2 ≤ 191 →
    128 ≤ code c3 ≤ 191 →
    (code c0 = 240 → 144 ≤ code c1) → (code c0 = 244 → code c1 ≤ 143) →
    sequence (String c0 (String c1 (String c2 (String c3 ""))))
      (code c0 mod 8 * 262144 + code c1 mod 64 * 4096 + code c2 mod 64 * 64
       + code c3 mod 64) 4.

(** Well-formed UTF-8 text. *)
Inductive wf_utf8 : string → Prop :=
| wf_nil : wf_utf8 ""
| wf_ascii c s : code c < 128 → wf_utf8 s → wf_utf8 (String c s)
| wf_seq u rn size s : sequence u rn size → wf_utf8 s → wf_utf8 (u +:+ s).

(** The characters the scanner takes as they are inside a literal. *)
Definition plain (c : ascii) : bool :=
  (32 <=? code c) && negb (code c =? 34) && negb (code c =? 92).

(** One step of the string encoder: the bytes it reads and what it writes. *)
Inductive unit_enc : string → string → Prop :=
| enc_plain c :
    32 ≤ code c < 128 → code c ≠ 34 → code c ≠ 92 →
    unit_enc (String c "") (String c "")
| enc_escape c e :
    is_escape e = true → unescape e = c →
    unit_enc (String c "") (String bs (String e ""))
| enc_unicode s rn h :
    hex4 h = Some rn → String.length h = 4%nat →
    all_chars plain h = true →
    utf16.IsSurrogate rn = false → utf8.EncodeRune rn = s → s ≠ "" →
    unit_enc s (String bs (String "u" h))
| enc_sequence u rn size :
    sequence u rn size → unit_enc u u.

(** The encoder's steps over a whole string. *)
Inductive units : string → string → Prop :=
| units_nil : units "" ""
| units_cons s x src q : unit_enc s x → units src q → units (s +:+ src) (x +:+ q).

(** The result of scanning a literal, with [u] in front of the raw text. *)
Definition prepend (u : string) (r : option (string * string)) : option (string * string) :=
  match r with
  | Some (raw, rest) => Some (u +:+ raw, rest)
  | None => None
  end.

(** ** Numbers *)

(** The literal starts with the digit 0. *)
Definition first_is_zero (d : string) : bool :=
  match d with String c _ => code c =? 48 | "" => false end.

(** What may follow a number in the encoding: the end of the input, or a
    character that cannot continue the literal. *)
Definition delimited (rest : string) : Prop :=
  match rest with
  | "" => True
  | String c _ => is_digit c = false ∧ code c ≠ 46 ∧ code c ≠ 101 ∧ code c ≠ 69
  end.

(** ** The values Marshal writes *)

(** The scalars Marshal writes: [null], the decimal form of an integer,
    and valid UTF-8 text. *)
Definition scalar (j : value) : Prop :=
  match j with
  | JNull => True
  | JNum lit => ∃ n, lit = FormatInt n
  | JStr s => wf_utf8 s
  | _ => False
  end.

(** The values Marshal writes for a database, of nesting at most [h]. *)
Fixpoint wfv (h : nat) (j : value) : Prop :=
  match h with
  | O => scalar j
  | S h' =>
      scalar j
      ∨ ∃ kvs, j = JObj kvs ∧ Forall (λ kv, wf_utf8 kv.1 ∧ wfv h' kv.2) kvs
  end.

(** The members of an object as [indented] writes them at depth [d]. *)
Fixpoint members_text (ind : string) (d : nat) (l : list (string * value)) : string :=
  match l with
  | [] => ""
  | (k, x) :: r =>
      appendString k +:+ ": " +:+ indented ind (S d) x
        +:+ match r with [] => "" | _ => "," +:+ newline ind (S d) +:+ members_text ind d r end
  end.

(** ** Databases whose encoding can be read back *)

(** The number is the value of an [int64]. *)
Definition int64_ok (n : Z) : bool := (MinInt64 <=? n) && (n <=? MaxInt64).

Definition entry_ok (e : MagnetEntry) : bool :=
  utf8.ValidString (UUID e) && int64_ok (ID e) && utf8.ValidString (Title e)
  && utf8.ValidString (Hash e) && utf8.ValidString (URI e)
  && utf8.ValidString (AddedDate e) && utf8.ValidString (FirstSeen e)
  && utf8.ValidString (LastAttempt e) && utf8.ValidString (Status e)
  && utf8.ValidString (TorrentID e) && utf8.ValidString (AddedToDeluge e)
  && int64_ok (RetryCount e) && utf8.ValidString (SavePath e)
  && utf8.ValidString (TorrentName e).

Definition entries_ok (m : gomap MagnetEntry) : bool :=
  forallb (λ kv, utf8.ValidString kv.1 && entry_ok kv.2) (map_to_list (entries m)).

(** A database whose numbers fit an int64 and whose text is valid UTF-8. *)
Definition database_ok (db : MagnetDatabase) : bool :=
  int64_ok (LastSequence (Metadata db)) && entries_ok (Added db) && entries_ok (Retry db).

(** The body of the loop of [decode_struct]. *)
Definition decode_step {T} (names : list string)
    (store : nat → value → T → T * option error)
    (acc : T * option error) (kv : string * value) : T * option error :=
  let '(t, err) := acc in
  match field_index names kv.1 with
  | Some i => let '(t', e) := store i kv.2 t in (t', save_error err e)
  | None => (t, err)
  end.

(** ** Files and inputs of the save and load examples *)

(** The byte 0xFF, which is not valid UTF-8, and the encoding of U+FFFD. *)
Definition garbled : string := String (chr 255) "".

Definition replacement : string := String (chr 239) (String (chr 191) (String (chr 189) "")).

Definition garbled_title : MagnetDatabase :=
  database 1 [(hash_h, sample_entry hash_h garbled 1)] [].

(** [&MagnetDatabase{}]: both maps are nil. *)
Definition nil_sections : MagnetDatabase :=
  {| Metadata := zero_metadata; Added := GoNil; Retry := GoNil |}.

(** The same saved database under the local and the remote path. *)
Definition two_copies : World :=
  quiet {[ "/local.json" := (MarshalIndent local_added_1).1;
           "/remote.json" := (MarshalIndent local_added_1).1 ]}.

Definition only_braces : World := quiet {[ "/db.json" := "{}" ]}.

(** The fault of the [n]-th coming file operation, when it is to fail. *)
Definition coming_fault (w : World) (n : nat) : option fault :=
  default None (faults w !! n).

(** The write succeeds; the rename and the removal after it fail. *)
Definition permission_denied : fault :=
  {| fault_msg := "permission denied"; fault_partial := None |}.

Definition rename_and_remove_fail : World :=
  set_faults (quiet ∅) [None; Some permission_denied; Some permission_denied].

(** The files after [local_added_1] was saved under [/db.json]. *)
Definition saved_world : World :=
  quiet {[ "/db.json" := (MarshalIndent (stamp (clock (quiet ∅)) local_added_1)).1 ]}.

(** ** The merge, hash by hash *)

(** [e] is [winner], or [winner] with a newly assigned identifier. *)
Definition assigned (winner e : MagnetEntry) : Prop :=
  e = winner ∨ (ID winner = 0 ∧ e = with_ID winner (ID e)).

(** What the loop over the hashes has stored for [h] once its step has
    run: the selected winner in the section it was selected for, and
    nothing in the other section. *)
Definition settled (local remote : MagnetDatabase) (st : merge_state) (h : string) : Prop :=
  let '(winner, inAdded, found) := select_winner (candidates_of local remote h) in
  if found then
    ∃ e, assigned winner e
         ∧ (if inAdded then st.1.1 !! h = Some e ∧ st.1.2 !! h = None
            else st.1.1 !! h = None ∧ st.1.2 !! h = Some e)
  else st.1.1 !! h = None ∧ st.1.2 !! h = None.

(** The step of the selection loop. *)
Definition select_step (st : MagnetEntry * bool * bool) (c : candidate)
  : MagnetEntry * bool * bool :=
  let '(winner, inAdded, winnerFound) := st in
  if negb (exists_ c) then st
  else if negb winnerFound || (isAdded c && negb inAdded) || (ID winner <? ID (entry c))
       then (entry c, isAdded c, true)
       else st.

(** Every identifier of the map is at most [B]. *)
Definition ids_at_most (B : Z) (m : gomap MagnetEntry) : Prop :=
  map_Forall (λ _ e, ID e ≤ B) (entries m).

(** No identifier of the map is 0. *)
Definition ids_assigned (m : gomap MagnetEntry) : Prop :=
  map_Forall (λ _ e, ID e ≠ 0) (entries m).

(** After [k] steps: the counter is ahead of every stored identifier and
    at most [k] ahead of the bound [B]. *)
Definition counter_ok (B k : Z) (st : merge_state) : Prop :=
  1 ≤ st.2 ≤ B + k + 1
  ∧ ∀ h e, st.1.1 !! h = Some e ∨ st.1.2 !! h = Some e → ID e < st.2.

(** ** The overlay of an update *)

(** The number of entries of the map whose identifier is 0. *)
Definition unassigned (m : gomap MagnetEntry) : Z :=
  Z.of_nat (length (filter (λ kv, ID kv.2 = 0) (map_to_list (entries m)))).

(** The number of pairs of the list whose identifier is 0. *)
Definition zeros (l : list (string * MagnetEntry)) : Z :=
  Z.of_nat (length (filter (λ kv, ID kv.2 = 0) l)).

(** ** Worlds that were only read *)

(** The second world differs from the first at most in the faults and the
    random bytes that were consumed. *)
Definition reads_only (w w' : World) : Prop :=
  files w' = files w ∧ clock w' = clock w ∧ nanos w' = nanos w
  ∧ order w' = order w ∧ os w' = os w
  ∧ ∃ k, faults w' = drop k (faults w).

(** ** UUIDs, checksums and display names *)

(** [0-9a-f] *)
Definition lower_hex (c : ascii) : bool := in_range 48 57 c || in_range 97 102 c.

(** The entry [e'] is [e] with a UUID that is not empty; a UUID that [e]
    had is kept. *)
Definition with_some_UUID (e e' : MagnetEntry) : Prop :=
  e' = with_UUID e (UUID e') ∧ UUID e' ≠ "" ∧ (UUID e ≠ "" → e' = e).

(** A character of a name that the decoder copies. *)
Definition copied (c : ascii) : bool :=
  (code c <? 128) && negb (Ascii.eqb c "&") && negb (Ascii.eqb c "%").

(** ** Entries of the flat map *)

(** The entry the loader makes of a flat-map entry. *)
Definition of_V0 (v0 : V0.MagnetEntryV0) (uuid : string) (id : Z) : MagnetEntry :=
  {| UUID := uuid; ID := id; Title := V0.Title v0; Hash := V0.Hash v0;
     URI := if String.eqb (V0.URI v0) ""
            then "magnet:?xt=urn:btih:" +:+ V0.Hash v0 else V0.URI v0;
     AddedDate := V0.FirstSeen v0; FirstSeen := V0.FirstSeen v0;
     LastAttempt := V0.LastAttempt v0; Status := V0.Status v0;
     TorrentID := V0.TorrentID v0; AddedToDeluge := V0.AddedToDeluge v0;
     RetryCount := 0; SavePath := V0.SavePath v0;
     TorrentName := V0.TorrentName v0 |}.

(** ** Further inputs of the examples *)

(** The world a computation leaves behind. *)
Definition world_after {A} (m : M A) (w : World) : World :=
  match m w with Some (_, w') => w' | None => w end.

(** The results of the overlays of the examples. *)
Definition overlaid_preset_50 : MagnetDatabase :=
  database 3 [(hash_h, sample_entry hash_h "preset" 50)] [].

Definition overlaid_two : MagnetDatabase :=
  database 2 [(hash_h, sample_entry hash_h "local" 1);
              ("hash1", sample_entry "hash1" "Test1" 2)] [].

Definition overlaid_done : MagnetDatabase :=
  database 5 [(hash_h, sample_entry hash_h "done" 1)] [].

Definition overlaid_again : MagnetDatabase :=
  database 4 [] [(hash_h, sample_entry hash_h "again" 4)].

(** A file system whose next operations fail. *)
Definition busy : fault := {| fault_msg := "resource busy"; fault_partial := None |}.

Definition flaky (fs : gmap string string) (l : list (option fault)) : World :=
  set_faults (quiet fs) l.

Definition saved_local_added_1 : gmap string string :=
  {[ "/db.json" := (MarshalIndent local_added_1).1 ]}.

(** Two unreadable copies of the same text. *)
Definition two_braces : World :=
  quiet {[ "/local.json" := "{}"; "/remote.json" := "{}" ]}.

(** A flat map of the first version with one entry. *)
Definition flat_entry : V0.MagnetEntryV0 :=
  {| V0.Hash := "abc"; V0.Title := "T"; V0.URI := ""; V0.TorrentName := "";
     V0.SavePath := ""; V0.State := ""; V0.Progress := ""; V0.Status := "";
     V0.TorrentID := ""; V0.AddedToDeluge := ""; V0.FirstSeen := "";
     V0.LastAttempt := ""; V0.Backfilled := "" |}.

Definition flat_text : string :=
  compact (JObj [("abc", JObj [("hash", JStr "abc"); ("title", JStr "T")])]).

(** A disk that is full at the third file operation. *)
Definition disk_full : fault := {| fault_msg := "no space left"; fault_partial := None |}.

Definition full_at_save : World := flaky ∅ [None; None; Some disk_full].

(** A file next to the database. *)
Definition with_other_file : World := quiet {[ "/other.json" := "x" ]}.

(** * Properties *)

(** ** Strings *)

Lemma app_cons (c : ascii) (s t : string) : String c s +:+ t = String c (s +:+ t).
Proof. reflexivity. Qed.

Lemma app_nil_l (s : string) : "" +:+ s = s.
Proof. reflexivity. Qed.

Lemma app_nil_r (s : string) : s +:+ "" = s.
Proof. induction s as [|c s IH]; [done|]. by rewrite app_cons, IH. Qed.

Lemma app_assoc_s (s t u : string) : (s +:+ t) +:+ u = s +:+ (t +:+ u).
Proof. induction s as [|c s IH]; [done|]. by rewrite !app_cons, IH. Qed.

Lemma length_app_s (s t : string) :
  String.length (s +:+ t) = (String.length s + String.length t)%nat.
Proof. induction s as [|c s IH]; [done|]. rewrite app_cons. simpl. by rewrite IH. Qed.

Lemma stake_app (u v : string) : stake (String.length u) (u +:+ v) = u.
Proof. induction u as [|c u IH]; [by destruct v|]. rewrite app_cons. simpl. by rewrite IH. Qed.

Lemma sdrop_app (u v : string) : sdrop (String.length u) (u +:+ v) = v.
Proof. induction u as [|c u IH]; [by destruct v|]. rewrite app_cons. simpl. by rewrite IH. Qed.

Lemma strip_prefix_Some (p s r : string) : strip_prefix p s = Some r → s = p +:+ r.
Proof.
  revert s. induction p as [|a p IH]; intros s H.
  - simpl in H. by injection H as ->.
  - destruct s as [|b s]; [done|]. simpl in H.
    destruct (Ascii.eqb_spec a b) as [->|]; [|done].
    rewrite app_cons. f_equal. by apply IH.
Qed.

Lemma length_map_chars f (s : string) : String.length (map_chars f s) = String.length s.
Proof. induction s as [|c s IH]; [done|]. simpl. by rewrite IH. Qed.

(** ** The merge keeps every hash *)

Section merge.
Context (local remote : MagnetDatabase).

Lemma select_winner_step_found st c :
  st_found st = true ∨ exists_ c = true →
  st_found
    (let '(winner, inAdded, winnerFound) := st in
     if negb (exists_ c) then st
     else if negb winnerFound || (isAdded c && negb inAdded) || (ID winner <? ID (entry c))
          then (entry c, isAdded c, true)
          else st) = true.
Proof.
  destruct st as [[winner inAdded] winnerFound]. unfold st_found. simpl.
  intros [-> | Hc].
  - destruct (exists_ c); simpl; [|done]. by destruct (_ || _).
  - rewrite Hc. simpl. destruct winnerFound; simpl; [|done]. by destruct (_ || _).
Qed.

Lemma select_winner_found_from (cs : list candidate) st :
  st_found st = true ∨ (∃ c, c ∈ cs ∧ exists_ c = true) →
  st_found
    (fold_left
       (λ st c,
          let '(winner, inAdded, winnerFound) := st in
          if negb (exists_ c) then st
          else if negb winnerFound || (isAdded c && negb inAdded) || (ID winner <? ID (entry c))
               then (entry c, isAdded c, true)
               else st) cs st) = true.
Proof.
  revert st. induction cs as [|c cs IH]; intros st H; simpl.
  - destruct H as [H | (c & Hc & _)]; [done | by apply elem_of_nil in Hc].
  - apply IH. destruct H as [H | (c' & Hc' & Hex)].
    + left. apply select_winner_step_found. by left.
    + apply elem_of_cons in Hc' as [-> | Hin].
      * left. apply select_winner_step_found. by right.
      * right. eauto.
Qed.

Lemma comma_ok_Some (m : gomap MagnetEntry) h :
  is_Some (go_get m h) → (comma_ok m h).2 = true.
Proof. intros [e He]. unfold comma_ok. by rewrite He. Qed.

Lemma known_allHashes h : known local remote h ↔ h ∈ allHashes local remote.
Proof.
  unfold known, allHashes, go_get. rewrite !elem_of_union, !elem_of_dom. tauto.
Qed.

Lemma candidates_found h :
  known local remote h → (select_winner (candidates_of local remote h)).2 = true.
Proof.
  intros Hk. unfold select_winner. apply (select_winner_found_from _ (zero_entry, false, false)).
  right. unfold candidates_of.
  destruct (comma_ok (Added local) h) as [la ila] eqn:E1.
  destruct (comma_ok (Retry local) h) as [lr ilr] eqn:E2.
  destruct (comma_ok (Added remote) h) as [ra ira] eqn:E3.
  destruct (comma_ok (Retry remote) h) as [rr irr] eqn:E4.
  destruct Hk as [H | [H | [H | H]]]; apply comma_ok_Some in H.
  - rewrite E1 in H. simpl in H. subst. eexists. split; [apply list_elem_of_here|done].
  - rewrite E2 in H. simpl in H. subst. eexists. split; [do 1 apply list_elem_of_further; apply list_elem_of_here|done].
  - rewrite E3 in H. simpl in H. subst. eexists. split; [do 2 apply list_elem_of_further; apply list_elem_of_here|done].
  - rewrite E4 in H. simpl in H. subst. eexists. split; [do 3 apply list_elem_of_further; apply list_elem_of_here|done].
Qed.

Lemma merge_step_keeps st h h' :
  holds st h → holds (merge_step local remote st h') h.
Proof.
  destruct st as [[added retry] nextID]. unfold holds, merge_step. simpl.
  destruct (select_winner _) as [[winner inAdded] found].
  destruct found; [|done].
  destruct (ID winner =? 0); [|destruct (nextID <=? ID winner)];
    destruct inAdded; simpl; rewrite ?lookup_insert_is_Some; intros [H | H]; eauto;
    destruct (decide (h' = h)); eauto.
Qed.

Lemma merge_step_adds st h :
  known local remote h → holds (merge_step local remote st h) h.
Proof.
  intros Hk. destruct st as [[added retry] nextID]. unfold holds, merge_step.
  pose proof (candidates_found h Hk) as Hf.
  destruct (select_winner _) as [[winner inAdded] found]. simpl in Hf. subst found.
  destruct (ID winner =? 0); [|destruct (nextID <=? ID winner)];
    destruct inAdded; simpl; rewrite ?lookup_insert_is_Some; eauto.
Qed.

Lemma merge_fold_holds (l : list string) st h :
  known local remote h → h ∈ l ∨ holds st h →
  holds (fold_left (merge_step local remote) l st) h.
Proof.
  intros Hk. revert st. induction l as [|h' l IH]; intros st H; simpl.
  - destruct H as [H | H]; [by apply elem_of_nil in H | done].
  - apply IH. destruct H as [H | H].
    + apply elem_of_cons in H as [-> | H]; [right; by apply merge_step_adds | by left].
    + right. by apply merge_step_keeps.
Qed.
End merge.

Lemma MergeDatabases_maps w local remote :
  ∃ st, st = fold_left (merge_step local remote)
               (shuffle (order w) _ (elements (allHashes local remote))) (∅, ∅, 1)
        ∧ Added (MergeDatabases w local remote) = GoMap st.1.1
        ∧ Retry (MergeDatabases w local remote) = GoMap st.1.2
        ∧ LastSequence (Metadata (MergeDatabases w local remote)) = wrap64 (st.2 - 1).
Proof.
  eexists. split; [reflexivity|]. unfold MergeDatabases.
  by destruct (fold_left _ _ _) as [[added retry] nextID].
Qed.

(** C7. Every hash that is present in the [added] or [retry] map of either
    input is present in the [added] or the [retry] map of the merged
    database, for every iteration order. *)
Theorem merge_lossless (w : World) (local remote : MagnetDatabase) (h : string) :
  is_Some (go_get (Added local) h) ∨ is_Some (go_get (Retry local) h)
  ∨ is_Some (go_get (Added remote) h) ∨ is_Some (go_get (Retry remote) h) →
  is_Some (go_get (Added (MergeDatabases w local remote)) h)
  ∨ is_Some (go_get (Retry (MergeDatabases w local remote)) h).
Proof.
  intros Hk.
  destruct (MergeDatabases_maps w local remote) as (st & Hst & -> & -> & _).
  unfold go_get. simpl. subst st.
  apply (merge_fold_holds local remote); [done|]. left.
  rewrite (shuffle_perm (order w)). apply elem_of_elements.
  by apply known_allHashes.
Qed.

(** ** The hash of a magnet URI *)

Lemma code_range (c : ascii) : 0 ≤ code c < 256.
Proof.
  unfold code. pose proof (N_ascii_bounded c). lia.
Qed.

Lemma code_chr (z : Z) : 0 ≤ z < 256 → code (chr z) = z.
Proof.
  intros H. unfold code, chr. rewrite N_ascii_embedding by lia. lia.
Qed.

Lemma chr_code (c : ascii) : chr (code c) = c.
Proof. unfold code, chr. rewrite N2Z.id. apply ascii_N_embedding. Qed.

Section magnet_hash.
Import regexp.

Lemma run_repeat_unfold {X} n a s cap (k : string → option string → option X) :
  run (Repeat (S n) a) s cap k = run a s cap (λ s' cap', run (Repeat n a) s' cap' k).
Proof. reflexivity. Qed.

Lemma lang_repeat_unfold n a w :
  lang (Repeat (S n) a) w ↔ ∃ u v, w = u +:+ v ∧ lang a u ∧ lang (Repeat n a) v.
Proof. reflexivity. Qed.

Lemma run_sound (r : syntax) :
  capture_free r = true →
  ∀ X s cap (k : string → option string → option X) x,
    run r s cap k = Some x →
    ∃ u s', s = u +:+ s' ∧ lang r u ∧ k s' cap = Some x.
Proof.
  induction r as [l | p | a IHa b IHb | a IHa b IHb | n a IHa | a IHa]; intros Hcf X s cap k x Hrun.
  - simpl in Hrun. destruct (strip_prefix l s) as [rest|] eqn:E; [|done].
    apply strip_prefix_Some in E. by exists l, rest.
  - simpl in Hrun. destruct s as [|c rest]; [done|].
    destruct (p c) eqn:E; [|done].
    exists (String c ""), rest. split; [done|]. split; [|done]. by exists c.
  - simpl in Hcf. apply andb_prop in Hcf as [Ha Hb]. simpl in Hrun.
    apply (IHa Ha) in Hrun as (u1 & s1 & -> & Hu1 & Hrun).
    apply (IHb Hb) in Hrun as (u2 & s2 & -> & Hu2 & Hk).
    exists (u1 +:+ u2), s2. rewrite app_assoc_s. split; [done|]. split; [|done].
    by exists u1, u2.
  - simpl in Hcf. apply andb_prop in Hcf as [Ha Hb]. simpl in Hrun.
    destruct (run a s cap k) as [y|] eqn:E.
    + injection Hrun as ->. apply (IHa Ha) in E as (u & s' & -> & Hu & Hk).
      exists u, s'. split; [done|]. split; [by left | done].
    + apply (IHb Hb) in Hrun as (u & s' & -> & Hu & Hk).
      exists u, s'. split; [done|]. split; [by right | done].
  - simpl in Hcf. revert s cap Hrun. induction n as [|n IHn]; intros s cap Hrun.
    + simpl in Hrun. exists "", s. by split.
    + rewrite run_repeat_unfold in Hrun.
      apply (IHa Hcf) in Hrun as (u1 & s1 & -> & Hu1 & Hrun).
      apply IHn in Hrun as (u2 & s2 & -> & Hu2 & Hk).
      exists (u1 +:+ u2), s2. rewrite app_assoc_s. split; [done|]. split; [|done].
      apply lang_repeat_unfold. by exists u1, u2.
  - done.
Qed.

Lemma lang_repeat_class n p w :
  lang (Repeat n (Class p)) w → String.length w = n ∧ all_chars p w = true.
Proof.
  revert w. induction n as [|n IH]; intros w H.
  - simpl in H. by subst.
  - apply lang_repeat_unfold in H as (u & v & -> & (c & -> & Hc) & Hv).
    apply IH in Hv as [Hl Ha]. rewrite app_cons, app_nil_l. simpl.
    by rewrite Hl, Hc, Ha.
Qed.

Lemma run_cat {X} a b s cap (k : string → option string → option X) :
  run (Cat a b) s cap k = run a s cap (λ s' cap', run b s' cap' k).
Proof. reflexivity. Qed.

Lemma run_lit {X} l s cap (k : string → option string → option X) :
  run (Lit l) s cap k
  = match strip_prefix l s with Some rest => k rest cap | None => None end.
Proof. reflexivity. Qed.

Lemma run_capture {X} a s cap (k : string → option string → option X) :
  run (Capture a) s cap k
  = run a s cap (λ s' _, k s' (Some (stake (String.length s - String.length s') s))).
Proof. reflexivity. Qed.

Lemma match_here_magnet (s whole : string) (cap : option string) :
  match_here magnet_hash_re s = Some (whole, cap) →
  ∃ g post, s = "xt=urn:btih:" +:+ g +:+ post ∧ cap = Some g ∧ hash_shape g.
Proof.
  unfold match_here, magnet_hash_re. rewrite run_cat, run_lit.
  destruct (strip_prefix _ s) as [s1|] eqn:E; [|done].
  apply strip_prefix_Some in E. rewrite run_capture. intros Hrun.
  apply run_sound in Hrun as (g & post & -> & Hg & Hk); [|done].
  exists g, post. split; [done|].
  injection Hk as _ <-.
  rewrite length_app_s. replace (_ + _ - _)%nat with (String.length g) by lia.
  rewrite stake_app. split; [done|].
  destruct Hg as [Hg | Hg]; apply lang_repeat_class in Hg; [by left | by right].
Qed.

Lemma FindStringSubmatch_spec (r : syntax) (s : string) :
  FindStringSubmatch r s = []
  ∨ ∃ pre rest whole cap,
      s = pre +:+ rest
      ∧ match_here r rest = Some (whole, cap)
      ∧ FindStringSubmatch r s = [whole; default "" cap]
      ∧ ∀ m, (m < String.length pre)%nat → match_here r (sdrop m s) = None.
Proof.
  induction s as [|c s IH].
  - simpl. destruct (match_here r "") as [[whole cap]|] eqn:E; [|by left].
    right. exists "", "", whole, cap. repeat split; try done. simpl. lia.
  - simpl. destruct (match_here r (String c s)) as [[whole cap]|] eqn:E.
    + right. exists "", (String c s), whole, cap. repeat split; try done. simpl. lia.
    + destruct IH as [IH | (pre & rest & whole & cap & -> & Hm & Hf & Hleft)]; [by left|].
      right. exists (String c pre), rest, whole, cap. rewrite app_cons.
      repeat split; try done.
      intros [|m] Hlt; [done|]. simpl. apply Hleft. simpl in Hlt. lia.
Qed.

Lemma lower_alnum_lower (c : ascii) : alnum_class c = true → lower_alnum (lower c) = true.
Proof.
  unfold alnum_class, lower_alnum, lower, in_range. intros H.
  pose proof (code_range c).
  destruct ((65 <=? code c) && (code c <=? 90)) eqn:E.
  - rewrite code_chr by lia. lia.
  - lia.
Qed.

Lemma hex_alnum (c : ascii) : hex_class c = true → alnum_class c = true.
Proof. unfold hex_class, alnum_class, in_range. lia. Qed.

Lemma all_chars_impl (p q : ascii → bool) (f : ascii → ascii) (s : string) :
  (∀ c, p c = true → q (f c) = true) →
  all_chars p s = true → all_chars q (map_chars f s) = true.
Proof.
  intros Hpq. induction s as [|c s IH]; [done|]. simpl.
  intros [Hc Hs]%andb_prop. by rewrite (Hpq c Hc), IH.
Qed.

(** C10. ExtractMagnetHash returns the empty string, or the lower-cased
    group of the leftmost match of [xt=urn:btih:] followed by exactly 40
    hexadecimal or exactly 32 alphanumeric characters; a non-empty result
    is lower-case alphanumeric and 40 or 32 characters long. *)
Theorem ExtractMagnetHash_shape (uri : string) :
  ExtractMagnetHash uri = ""
  ∨ ∃ pre g post,
      uri = pre +:+ "xt=urn:btih:" +:+ g +:+ post
      ∧ (∀ m, (m < String.length pre)%nat →
              regexp.match_here magnet_hash_re (sdrop m uri) = None)
      ∧ ((String.length g = 40%nat ∧ all_chars hex_class g = true)
         ∨ (String.length g = 32%nat ∧ all_chars alnum_class g = true))
      ∧ ExtractMagnetHash uri = ToLower g
      ∧ (String.length (ExtractMagnetHash uri) = 40%nat
         ∨ String.length (ExtractMagnetHash uri) = 32%nat)
      ∧ all_chars lower_alnum (ExtractMagnetHash uri) = true.
Proof.
  unfold ExtractMagnetHash.
  destruct (FindStringSubmatch_spec magnet_hash_re uri)
    as [-> | (pre & rest & whole & cap & -> & Hm & -> & Hleft)]; [by left|].
  right. apply match_here_magnet in Hm as (g & post & -> & -> & Hg).
  exists pre, g, post. simpl. split; [done|]. split; [done|]. split; [done|].
  split; [done|]. unfold ToLower. rewrite length_map_chars. split.
  - destruct Hg as [[-> _] | [-> _]]; [by left | by right].
  - apply (all_chars_impl alnum_class); [apply lower_alnum_lower|].
    destruct Hg as [[_ H] | [_ H]]; [|done].
    clear -H. induction g as [|c g IH]; [done|]. simpl in *.
    apply andb_prop in H as [Hc Hg]. by rewrite (hex_alnum c Hc), IH.
Qed.

End magnet_hash.

Example ExtractMagnetHash_test_40 :
  ExtractMagnetHash "magnet:?xt=urn:btih:AaBbCcDdEeFf1234567890AaBbCcDdEeFf123456&dn=Test"
  = "aabbccddeeff1234567890aabbccddeeff123456".
Proof. reflexivity. Qed.

Example ExtractMagnetHash_test_32 :
  ExtractMagnetHash "magnet:?xt=urn:btih:AAAAAAAAAAAAAAAAAAAAAAAAAAAAAAAA&dn=Test"
  = "aaaaaaaaaaaaaaaaaaaaaaaaaaaaaaaa".
Proof. reflexivity. Qed.

Example ExtractMagnetHash_test_none : ExtractMagnetHash "magnet:?dn=Test" = "".
Proof. reflexivity. Qed.

Example sha1_abc :
  hex.EncodeToString (sha1.Sum (bytes_of "abc")) = "a9993e364706816aba3e25717850c26c9cd0d89d".
Proof. vm_compute. reflexivity. Qed.

(** ** Saving is atomic *)

Ltac run_monad := unfold mbind, M_bind, mret, M_ret, get_world, put_files in *.

Lemma temp_path_differs (path : string) : path +:+ ".tmp" ≠ path.
Proof.
  intros H. apply (f_equal String.length) in H. rewrite length_app_s in H. simpl in H. lia.
Qed.

Lemma next_fault_spec (w : World) :
  next_fault w = Some (default None (head (faults w)), set_faults w (tail (faults w))).
Proof.
  unfold next_fault. destruct w as [fs [|f l] en cl na o p]; reflexivity.
Qed.

Lemma WriteFile_spec (path data : string) (w : World) :
  ∃ err w', WriteFile path data w = Some (err, w')
    ∧ (∀ p, p ≠ path → files w' !! p = files w !! p)
    ∧ (err = None → files w' !! path = Some data)
    ∧ (err = None ↔ default None (head (faults w)) = None)
    ∧ faults w' = tail (faults w).
Proof.
  unfold WriteFile. run_monad. rewrite next_fault_spec.
  destruct (default None (head (faults w))) as [ft|]; simpl.
  - destruct (fault_partial ft) as [n|]; simpl; eexists _, _; (split; [reflexivity|]);
      simpl; repeat split; try done; intros p Hp; by rewrite ?lookup_insert_ne.
  - eexists _, _. split; [reflexivity|]. simpl. repeat split; try done.
    + intros p Hp. by rewrite lookup_insert_ne.
    + intros _. by rewrite lookup_insert_eq.
Qed.

Lemma Rename_spec (oldpath newpath : string) (w : World) :
  ∃ err w', Rename oldpath newpath w = Some (err, w')
    ∧ match err with
      | Some _ => files w' = files w
      | None => ∃ data, files w !! oldpath = Some data
                        ∧ files w' = <[newpath := data]> (delete oldpath (files w))
      end.
Proof.
  unfold Rename. run_monad. rewrite next_fault_spec.
  destruct (default None (head (faults w))) as [ft|]; simpl.
  - eexists _, _. split; [reflexivity|]. done.
  - destruct (files w !! oldpath) as [data|] eqn:E; simpl.
    + eexists _, _. split; [reflexivity|]. simpl. eauto.
    + eexists _, _. split; [reflexivity|]. done.
Qed.

Lemma Remove_spec (path : string) (w : World) :
  ∃ err w', Remove path w = Some (err, w')
    ∧ (∀ p, p ≠ path → files w' !! p = files w !! p).
Proof.
  unfold Remove. run_monad. rewrite next_fault_spec.
  destruct (default None (head (faults w))) as [ft|]; simpl.
  - eexists _, _. split; [reflexivity|]. done.
  - destruct (files w !! path); simpl; eexists _, _; (split; [reflexivity|]); simpl;
      intros p Hp; by rewrite ?lookup_delete_ne.
Qed.

Lemma SaveDatabaseLocal_spec (path : string) (db : MagnetDatabase) (w : World) :
  let db' := stamp (clock w) db in
  ∃ err w',
    SaveDatabaseLocal path db w = Some ((db', err), w')
    ∧ (is_Some err → files w' !! path = files w !! path)
    ∧ (∀ p, p ≠ path → p ≠ path +:+ ".tmp" → files w' !! p = files w !! p)
    ∧ (err = None →
       files w' !! path = Some (MarshalIndent db').1
       ∧ files w' !! (path +:+ ".tmp") = None).
Proof.
  intros db'. unfold SaveDatabaseLocal, Now_RFC3339. run_monad. fold db'.
  unfold MarshalIndent at 1.
  destruct (WriteFile_spec (path +:+ ".tmp") (json.indented "  " 0 (database_json db')) w)
    as (e1 & w1 & -> & Hother & Hsame & Hok & _).
  pose proof (temp_path_differs path) as Hne.
  destruct e1 as [e1|].
  - exists (Some e1), w1. split; [reflexivity|]. split; [|split].
    + intros _. apply Hother. congruence.
    + intros p _ Hp. by apply Hother.
    + done.
  - destruct (Rename_spec (path +:+ ".tmp") path w1) as (e2 & w2 & -> & Hren).
    destruct e2 as [e2|].
    + destruct (Remove_spec (path +:+ ".tmp") w2) as (e3 & w3 & -> & Hrm).
      exists (Some e2), w3. split; [reflexivity|]. split; [|split].
      * intros _. rewrite Hrm by congruence. rewrite Hren. apply Hother. congruence.
      * intros p _ Hp. rewrite Hrm by done. rewrite Hren. by apply Hother.
      * done.
    + destruct Hren as (data & Hdata & Hfiles).
      exists None, w2. split; [reflexivity|]. split; [|split].
      * by intros [? ?].
      * intros p Hp1 Hp2. rewrite Hfiles. rewrite lookup_insert_ne by done.
        rewrite lookup_delete_ne by done. by apply Hother.
      * intros _. rewrite Hfiles. rewrite lookup_insert_eq.
        rewrite lookup_insert_ne by congruence. rewrite lookup_delete_eq.
        rewrite Hsame in Hdata by done. by injection Hdata as <-.
Qed.

(** C9. SaveDatabaseLocal always returns, and returns the database with
    its new time stamp and checksum.  What it does is decided by the file
    operations that fail.  When the write of the temp file [path.tmp] and
    the rename succeed there is no error, [path] holds the encoding of the
    stamped database, no temp file remains and no other file has changed.
    When the write fails its error is returned and [path] is as it was.
    When the rename fails its error is returned and [path] is as it was;
    the temp file is then removed, unless the removal fails as well: its
    error is discarded and the temp file stays behind with the whole
    encoding. *)
Theorem save_atomic (path : string) (db : MagnetDatabase) (w : World) :
  let db' := stamp (clock w) db in
  let data := (MarshalIndent db').1 in
  let tempPath := path +:+ ".tmp" in
  ∃ w',
    match coming_fault w 0, coming_fault w 1 with
    | Some f, _ =>
        SaveDatabaseLocal path db w = Some ((db', Some (ErrIO (fault_msg f))), w')
        ∧ files w' !! path = files w !! path
        ∧ files w' = match fault_partial f with
                     | Some n => <[tempPath := stake n data]> (files w)
                     | None => files w
                     end
    | None, Some f =>
        SaveDatabaseLocal path db w = Some ((db', Some (ErrIO (fault_msg f))), w')
        ∧ files w' !! path = files w !! path
        ∧ files w' = match coming_fault w 2 with
                     | Some _ => <[tempPath := data]> (files w)
                     | None => delete tempPath (files w)
                     end
    | None, None =>
        SaveDatabaseLocal path db w = Some ((db', None), w')
        ∧ files w' !! path = Some data
        ∧ files w' = <[path := data]> (delete tempPath (files w))
    end.
Proof.
  intros db' data tempPath.
  pose proof (temp_path_differs path) as Hne. fold tempPath in Hne.
  assert (∀ m : gmap string string, delete tempPath (<[tempPath := data]> m) = delete tempPath m)
    as Hdel.
  { intros m. apply map_eq. intros p. destruct (decide (p = tempPath)) as [->|Hp].
    - by rewrite !lookup_delete_eq.
    - by rewrite !lookup_delete_ne, lookup_insert_ne. }
  unfold SaveDatabaseLocal, Now_RFC3339, WriteFile, Rename, Remove, coming_fault.
  run_monad. fold db'. unfold MarshalIndent in *. cbn [fst snd] in data.
  fold data. fold tempPath. clearbody data tempPath db'. unfold next_fault.
  destruct (faults w) as [|[f0|] [|[f1|] [|[f2|] fl]]] eqn:Ef; simpl; rewrite ?Ef; simpl;
    rewrite ?lookup_insert_eq; simpl;
    try (destruct (fault_partial f0) as [n|] eqn:Ep; simpl);
    eexists; (split; [reflexivity|]); simpl; rewrite ?Hdel;
    rewrite ?lookup_insert_eq, ?lookup_delete_ne, ?lookup_insert_ne by done; done.
Qed.

(** C9, the claim as stated fails: when the rename fails and the removal
    fails after it, SaveDatabaseLocal returns the error of the rename and
    the temp file is still there, with the whole encoding. *)
Lemma failed_remove_leaves_temp_file :
  let w := rename_and_remove_fail in
  let db' := stamp (clock w) local_added_1 in
  ∃ w', SaveDatabaseLocal "/db.json" local_added_1 w
        = Some ((db', Some (ErrIO "permission denied")), w')
        ∧ files w' !! "/db.json" = None
        ∧ files w' !! "/db.json.tmp" = Some (MarshalIndent db').1.
Proof. eexists. vm_compute. repeat split. Qed.

(** ** The short-circuit of the reconcile step *)

Lemma length_EncodeToString (bs : list Z) :
  String.length (hex.EncodeToString bs) = (2 * length bs)%nat.
Proof.
  induction bs as [|b bs IH]; [done|]. simpl. rewrite length_app_s, IH. simpl. lia.
Qed.

Lemma length_sha1_Sum (msg : list Z) : length (sha1.Sum msg) = 20%nat.
Proof. unfold sha1.Sum. by rewrite !length_app. Qed.

Lemma ComputeFileChecksum_length (path ck : string) (w w' : World) :
  ComputeFileChecksum path w = Some ((ck, None), w') → String.length ck = 40%nat.
Proof.
  unfold ComputeFileChecksum. run_monad.
  destruct (ReadFile path w) as [[[data [e|]] w1]|]; [done| |done].
  intros H. assert (ck = hex.EncodeToString (sha1.Sum (bytes_of data))) as -> by congruence.
  by rewrite length_EncodeToString, length_sha1_Sum.
Qed.

(** C8. When both paths are readable and their file checksums are equal,
    SyncWithRemote returns what LoadJSONDatabase returns for the local
    path: the loaded database with its metadata as it was read, or the
    error of the load; MergeDatabases is not involved. *)
Theorem reconcile_short_circuit (localPath remotePath ck : string) (w w1 w2 : World) :
  ComputeFileChecksum localPath w = Some ((ck, None), w1) →
  ComputeFileChecksum remotePath w1 = Some ((ck, None), w2) →
  SyncWithRemote localPath remotePath w
  = match LoadJSONDatabase localPath w2 with
    | Some ((local, None), w3) => Some ((local, None), w3)
    | Some ((_, Some e), w3) => Some ((None, Some (Wrapf "failed to load local: " e)), w3)
    | None => None
    end.
Proof.
  intros Hl Hr. unfold SyncWithRemote. run_monad. rewrite Hl, Hr. simpl.
  rewrite String.eqb_refl. rewrite (ComputeFileChecksum_length _ _ _ _ Hl). simpl.
  destruct (LoadJSONDatabase localPath w2) as [[[local [e|]] w3]|]; reflexivity.
Qed.

(** ** When the loader reports a format error *)

Lemma go_len_set {V} (m m' : gomap V) k v : go_set m k v = Some m' → 0 < go_len m'.
Proof.
  destruct m as [|t]; [done|]. intros [= <-]. unfold go_len. simpl.
  assert (size (<[k:=v]> t) ≠ 0%nat); [|lia].
  apply map_size_non_empty_iff, insert_non_empty.
Qed.

Lemma range_V1_has (l : list (string * V1.MagnetEntryV1)) target nextID w r w' k :
  range_V1 l target nextID w = Some (r, w') →
  is_Some (go_get target k) → is_Some (go_get r.1 k).
Proof.
  revert target nextID w. induction l as [|[hash v1] l IH]; intros target nextID w.
  - simpl. run_monad. by intros [= <- _].
  - simpl. run_monad. destruct (GenerateUUID w) as [[uuid w1]|]; [|done].
    destruct (go_set target hash _) as [t'|] eqn:E; simpl; [|done].
    intros H Hk. eapply IH; [exact H|].
    destruct target as [|t]; [done|]. injection E as <-. unfold go_get in *. simpl in *.
    rewrite lookup_insert_is_Some. destruct (decide (hash = k)); eauto.
Qed.

Lemma go_len_pos_has {V} (m : gomap V) k : is_Some (go_get m k) → 0 < go_len m.
Proof.
  intros [v Hv]. unfold go_len, go_get in *.
  assert (size (entries m) ≠ 0%nat); [|lia].
  apply map_size_non_empty_iff. intros H. rewrite H in Hv. by rewrite lookup_empty in Hv.
Qed.

Lemma range_V1_nonempty (l : list (string * V1.MagnetEntryV1)) target nextID w r w' :
  range_V1 l target nextID w = Some (r, w') →
  l ≠ [] ∨ 0 < go_len target → 0 < go_len r.1.
Proof.
  destruct l as [|[hash v1] l].
  - simpl. run_monad. intros [= <- _] [H | H]; done.
  - simpl. run_monad. destruct (GenerateUUID w) as [[uuid w1]|]; [|done].
    destruct (go_set target hash _) as [t'|] eqn:E; simpl; [|done].
    intros H _. apply (go_len_pos_has _ hash). eapply range_V1_has; [exact H|].
    destruct target as [|t]; [done|]. injection E as <-. unfold go_get. simpl.
    rewrite lookup_insert_eq. eauto.
Qed.

Lemma range_V1_len_mono (l : list (string * V1.MagnetEntryV1)) target nextID w r w' :
  range_V1 l target nextID w = Some (r, w') → 0 < go_len target → 0 < go_len r.1.
Proof. intros H Hp. eapply range_V1_nonempty; eauto. Qed.

Lemma go_range_nonempty {V} (o : range_oracle) (m : gomap V) :
  0 < go_len m → go_range o m ≠ [].
Proof.
  unfold go_len, go_range. intros H Hnil.
  pose proof (shuffle_perm o _ (map_to_list (entries m))) as Hp.
  rewrite Hnil in Hp. apply Permutation_nil_l in Hp. symmetry in Hp.
  apply map_to_list_empty_iff in Hp. rewrite Hp, map_size_empty in H. lia.
Qed.

Lemma parse_database_format_error (data : string) (db : MagnetDatabase) (w : World) :
  nil_database_error (parse_database data db w)
  ↔ accepts_current data db = false ∧ accepts_V0 data = false ∧ accepts_V1 data = false.
Proof.
  unfold parse_database, accepts_current, accepts_V0, accepts_V1, nil_database_error.
  destruct (Unmarshal data db) as [db1 err].
  destruct (is_nil err && _) eqn:E1.
  { run_monad. split; [intros (e & w' & [=]) | intros [[=] _]]. }
  destruct (UnmarshalV0 data make) as [dbV0 errV0].
  destruct (is_nil errV0 && _) eqn:E0.
  { run_monad. split; [|intros (_ & [=] & _)].
    destruct (range_V0 _ _ _ _) as [[[added nextID] w1]|]; intros (e & w' & [=]). }
  destruct (UnmarshalV1 data _) as [dbV1 errV1].
  destruct (is_nil errV1 && _) eqn:EV1.
  { run_monad. split; [|intros (_ & _ & [=])].
    destruct (range_V1 _ (Added db1) _ _) as [[[added nextID] w1]|] eqn:Ra;
      [|intros (e & w' & [=])].
    destruct (range_V1 _ (Retry db1) _ _) as [[[retry nextID'] w2]|] eqn:Rr;
      [|intros (e & w' & [=])].
    simpl.
    assert (0 < go_len added + go_len retry) as Hpos.
    { apply andb_prop in EV1 as [_ Hlen].
      apply orb_prop in Hlen as [Hlen | Hlen]; apply Z.ltb_lt in Hlen.
      - pose proof (range_V1_nonempty _ _ _ _ _ _ Ra
                      (or_introl (go_range_nonempty _ _ Hlen))) as Hp.
        simpl in Hp. unfold go_len in *. lia.
      - pose proof (range_V1_nonempty _ _ _ _ _ _ Rr
                      (or_introl (go_range_nonempty _ _ Hlen))) as Hp.
        simpl in Hp. unfold go_len in *. lia. }
    destruct ((1024 <? _) && (_ =? 0)) eqn:Ez; [lia|].
    intros (e & w' & [=]). }
  run_monad. split; [done|]. intros _. eauto.
Qed.

Lemma ReadFile_ok (path data : string) (w w1 : World) :
  ReadFile path w = Some ((data, None), w1) → files w !! path = Some data.
Proof.
  unfold ReadFile. run_monad. rewrite next_fault_spec.
  destruct (default None (head (faults w))); [done|]. simpl.
  destruct (files w !! path); [|done]. by intros [= -> _].
Qed.

Lemma LoadJSONDatabase_readable (path data : string) (w w1 : World) :
  ReadFile path w = Some ((data, None), w1) →
  LoadJSONDatabase path w = parse_database data empty_database w1.
Proof.
  intros H. unfold LoadJSONDatabase, Stat_IsNotExist. run_monad.
  rewrite (ReadFile_ok _ _ _ _ H). rewrite bool_decide_eq_false_2 by done.
  simpl. run_monad. by rewrite H.
Qed.

(** C3, as amended.  On readable bytes LoadJSONDatabase returns no
    database and an error exactly when none of the three schemas is
    accepted, that is, when no parse both succeeds and yields an entry;
    the error is then "unrecognized format", whatever the size of the
    buffer. *)
Theorem load_format_error (path data : string) (w w1 : World) :
  ReadFile path w = Some ((data, None), w1) →
  ((∃ e w', LoadJSONDatabase path w = Some ((None, Some e), w'))
   ↔ accepts_current data empty_database = false
     ∧ accepts_V0 data = false ∧ accepts_V1 data = false)
  ∧ (∀ e w', LoadJSONDatabase path w = Some ((None, Some e), w') →
             e = Errorf "unrecognized format").
Proof.
  intros H. rewrite (LoadJSONDatabase_readable _ _ _ _ H). split.
  - apply parse_database_format_error.
  - intros e w' He.
    assert (nil_database_error (parse_database data empty_database w1)) as Hn
      by (by exists e, w').
    apply parse_database_format_error in Hn as (E1 & E0 & EV1).
    unfold parse_database, accepts_current, accepts_V0, accepts_V1 in *.
    destruct (Unmarshal data empty_database) as [db1 err]. rewrite E1 in He.
    destruct (UnmarshalV0 data make) as [dbV0 errV0]. rewrite E0 in He.
    destruct (UnmarshalV1 data _) as [dbV1 errV1]. rewrite EV1 in He.
    run_monad. congruence.
Qed.

(** C3, the claim as stated fails: the two-byte document [{}] parses
    under all three schemas with zero entries and is far below 1024 bytes,
    and LoadJSONDatabase rejects it instead of returning an empty
    database. *)
Lemma small_empty_document_rejected :
  let data := "{}" in
  let w := quiet {["/db.json" := data]} in
  (String.length data ≤ 1024)%nat
  ∧ Unmarshal data empty_database = (empty_database, None)
  ∧ UnmarshalV0 data make = (make, None)
  ∧ UnmarshalV1 data {| V1.Added := make; V1.Retry := make |}
    = ({| V1.Added := make; V1.Retry := make |}, None)
  ∧ LoadJSONDatabase "/db.json" w = Some ((None, Some (Errorf "unrecognized format")), w).
Proof. vm_compute. repeat split; lia || reflexivity. Qed.

(** ** UTF-8: encoding a decoded rune gives the bytes back *)

Lemma land_shiftl_small (a k b : Z) : 0 ≤ k → 0 ≤ b < 2 ^ k → Z.land (Z.shiftl a k) b = 0.
Proof.
  intros Hk Hb. apply Z.bits_inj'. intros n Hn.
  rewrite Z.land_spec, Z.bits_0.
  destruct (Z.lt_ge_cases n k) as [Hlt | Hge].
  - by rewrite Z.shiftl_spec_low.
  - destruct (Z.eq_dec b 0) as [-> | Hb0]; [by rewrite Z.bits_0, andb_false_r|].
    rewrite (Z.bits_above_log2 b n), andb_false_r; [done | lia |].
    apply Z.log2_lt_pow2; [lia|].
    eapply Z.lt_le_trans; [apply Hb|]. apply Z.pow_le_mono_r; lia.
Qed.

Lemma lor_shiftl_add (a k b : Z) :
  0 ≤ k → 0 ≤ b < 2 ^ k → Z.lor (Z.shiftl a k) b = a * 2 ^ k + b.
Proof.
  intros Hk Hb. rewrite <- Z.lxor_lor by (by apply land_shiftl_small).
  rewrite <- Z.add_nocarry_lxor by (by apply land_shiftl_small).
  by rewrite Z.shiftl_mul_pow2.
Qed.

Lemma land_mask (x k : Z) : 0 ≤ k → Z.land x (2 ^ k - 1) = x mod 2 ^ k.
Proof.
  intros Hk. rewrite <- Z.land_ones by done. f_equal. rewrite Z.ones_equiv. lia.
Qed.

Lemma lor_high (hi k x : Z) : 0 ≤ k → 0 ≤ x < 2 ^ k → Z.lor (hi * 2 ^ k) x = hi * 2 ^ k + x.
Proof.
  intros Hk Hx. rewrite <- (lor_shiftl_add hi k x) by done.
  by rewrite Z.shiftl_mul_pow2.
Qed.

Ltac bits_to_arith :=
  repeat first
    [ rewrite (land_mask _ 6) by lia | rewrite (land_mask _ 5) by lia
    | rewrite (land_mask _ 4) by lia | rewrite (land_mask _ 3) by lia ];
  rewrite ?Z.shiftr_div_pow2 by lia.

Lemma land_63 x : Z.land x 63 = x mod 64. Proof. exact (land_mask x 6 ltac:(lia)). Qed.
Lemma land_31 x : Z.land x 31 = x mod 32. Proof. exact (land_mask x 5 ltac:(lia)). Qed.
Lemma land_15 x : Z.land x 15 = x mod 16. Proof. exact (land_mask x 4 ltac:(lia)). Qed.
Lemma land_7 x : Z.land x 7 = x mod 8. Proof. exact (land_mask x 3 ltac:(lia)). Qed.
Lemma lor_128 x : 0 ≤ x < 64 → Z.lor 128 x = 128 + x.
Proof. exact (lor_high 2 6 x ltac:(lia)). Qed.
Lemma lor_192 x : 0 ≤ x < 64 → Z.lor 192 x = 192 + x.
Proof. exact (lor_high 3 6 x ltac:(lia)). Qed.
Lemma lor_224 x : 0 ≤ x < 16 → Z.lor 224 x = 224 + x.
Proof. exact (lor_high 14 4 x ltac:(lia)). Qed.
Lemma lor_240 x : 0 ≤ x < 8 → Z.lor 240 x = 240 + x.
Proof. exact (lor_high 30 3 x ltac:(lia)). Qed.
Lemma shiftr_6 x : Z.shiftr x 6 = x / 64. Proof. exact (Z.shiftr_div_pow2 x 6 ltac:(lia)). Qed.
Lemma shiftr_12 x : Z.shiftr x 12 = x / 4096. Proof. exact (Z.shiftr_div_pow2 x 12 ltac:(lia)). Qed.
Lemma shiftr_18 x : Z.shiftr x 18 = x / 262144. Proof. exact (Z.shiftr_div_pow2 x 18 ltac:(lia)). Qed.

Lemma rune2 (a b : Z) :
  Z.lor (Z.shiftl a 6) (b mod 64) = a * 64 + b mod 64.
Proof. rewrite lor_shiftl_add; [done | lia | apply Z.mod_pos_bound; lia]. Qed.

Lemma rune3 (a b c : Z) :
  Z.lor (Z.shiftl a 12) (Z.lor (Z.shiftl (b mod 64) 6) (c mod 64))
  = a * 4096 + b mod 64 * 64 + c mod 64.
Proof.
  rewrite rune2. pose proof (Z.mod_pos_bound b 64). pose proof (Z.mod_pos_bound c 64).
  rewrite lor_shiftl_add; lia.
Qed.

Lemma rune4 (a b c d : Z) :
  Z.lor (Z.shiftl a 18)
    (Z.lor (Z.shiftl (b mod 64) 12) (Z.lor (Z.shiftl (c mod 64) 6) (d mod 64)))
  = a * 262144 + b mod 64 * 4096 + c mod 64 * 64 + d mod 64.
Proof.
  rewrite rune3. pose proof (Z.mod_pos_bound b 64). pose proof (Z.mod_pos_bound c 64).
  pose proof (Z.mod_pos_bound d 64). rewrite lor_shiftl_add; lia.
Qed.

Lemma chr_eq (z : Z) (c : ascii) : z = code c → chr z = c.
Proof. intros ->. apply chr_code. Qed.

Ltac split_if_hyp H :=
  repeat match type of H with
         | context [if ?b then _ else _] => destruct b eqn:?
         end.

Ltac nat_tests :=
  repeat match goal with
         | H : (_ <? _)%nat = true |- _ => apply Nat.ltb_lt in H
         | H : (_ <? _)%nat = false |- _ => apply Nat.ltb_ge in H
         | H : (_ <=? _)%nat = true |- _ => apply Nat.leb_le in H
         | H : (_ <=? _)%nat = false |- _ => apply Nat.leb_gt in H
         end.

Ltac split_if_goal :=
  repeat match goal with
         | |- context [if ?b then _ else _] => destruct b eqn:?
         end.

Lemma DecodeRune_sequence (s : string) (rn : Z) (size : nat) :
  utf8.DecodeRune s = (rn, size) →
  match s with String c _ => 128 ≤ code c | "" => False end →
  (rn = utf8.RuneError ∧ size = 1%nat)
  ∨ ∃ u t, s = u +:+ t ∧ sequence u rn size.
Proof.
  destruct s as [|c0 r]; [done|]. intros H Hhigh.
  pose proof (code_range c0) as R0.
  unfold utf8.DecodeRune in H. destruct (code c0 <? 128) eqn:E; [lia|]. clear E.
  unfold utf8.first, utf8.locb, utf8.hicb in H.
  destruct r as [|c1 r].
  { left. simpl in H. split_if_hyp H; by injection H as <- <-. }
  pose proof (code_range c1) as R1.
  destruct r as [|c2 r].
  { unfold byte_at in H. simpl in H.
    split_if_hyp H; injection H as <- <-; try (by left); try lia.
    right. exists (String c0 (String c1 "")), "". split; [done|].
    rewrite land_31, land_63, rune2. constructor; lia. }
  pose proof (code_range c2) as R2.
  destruct r as [|c3 r].
  { unfold byte_at in H. simpl in H.
    split_if_hyp H; injection H as <- <-; try (by left); try lia.
    - right. exists (String c0 (String c1 "")), (String c2 ""). split; [done|].
      rewrite land_31, land_63, rune2. constructor; lia.
    - right. exists (String c0 (String c1 (String c2 ""))), "". split; [done|].
      rewrite land_15, !land_63, rune3. constructor; lia.
    - right. exists (String c0 (String c1 (String c2 ""))), "". split; [done|].
      rewrite land_15, !land_63, rune3. constructor; lia.
    - right. exists (String c0 (String c1 (String c2 ""))), "". split; [done|].
      rewrite land_15, !land_63, rune3. constructor; lia.
    - right. exists (String c0 (String c1 (String c2 ""))), "". split; [done|].
      rewrite land_15, !land_63, rune3. constructor; lia. }
  pose proof (code_range c3) as R3.
  unfold byte_at in H. simpl in H.
  split_if_hyp H; injection H as <- <-; try (by left); try lia.
  all: right.
  all: first
    [ exists (String c0 (String c1 "")), (String c2 (String c3 r)); split; [done|];
      rewrite land_31, land_63, rune2; constructor; lia
    | exists (String c0 (String c1 (String c2 ""))), (String c3 r); split; [done|];
      rewrite land_15, !land_63, rune3; constructor; lia
    | exists (String c0 (String c1 (String c2 (String c3 "")))), r; split; [done|];
      rewrite land_7, !land_63, rune4; constructor; lia ].
Qed.

Lemma sequence_length u rn size :
  sequence u rn size → String.length u = size ∧ (2 ≤ size ≤ 4)%nat.
Proof. destruct 1; simpl; lia. Qed.

Lemma sequence_high u rn size :
  sequence u rn size → all_chars (λ c, 128 <=? code c) u = true.
Proof. destruct 1; simpl; lia. Qed.

Lemma sequence_encode u rn size : sequence u rn size → utf8.EncodeRune rn = u.
Proof.
  destruct 1 as [c0 c1 H0 H1 | c0 c1 c2 H0 H1 H2 Hlo Hhi | c0 c1 c2 c3 H0 H1 H2 H3 Hlo Hhi];
    unfold utf8.EncodeRune, utf8.RuneError;
    rewrite ?shiftr_6, ?shiftr_12, ?shiftr_18, ?land_63.
  - set (r := code c0 mod 32 * 64 + code c1 mod 64).
    assert (128 ≤ r ≤ 2047) by (subst r; Z.to_euclidean_division_equations; lia).
    split_if_goal; try lia.
    rewrite lor_192, lor_128 by (Z.to_euclidean_division_equations; lia).
    f_equal; [|f_equal]; apply chr_eq; subst r; Z.to_euclidean_division_equations; lia.
  - set (r := code c0 mod 16 * 4096 + code c1 mod 64 * 64 + code c2 mod 64).
    assert (2048 ≤ r ≤ 65535 ∧ ¬ (55296 ≤ r ≤ 57343))
      by (subst r; Z.to_euclidean_division_equations; lia).
    split_if_goal; try lia.
    rewrite lor_224, !lor_128 by (Z.to_euclidean_division_equations; lia).
    f_equal; [|f_equal; [|f_equal]]; apply chr_eq; subst r;
      Z.to_euclidean_division_equations; lia.
  - set (r := code c0 mod 8 * 262144 + code c1 mod 64 * 4096 + code c2 mod 64 * 64
              + code c3 mod 64).
    assert (65536 ≤ r ≤ 1114111) by (subst r; Z.to_euclidean_division_equations; lia).
    split_if_goal; try lia.
    rewrite lor_240, !lor_128 by (Z.to_euclidean_division_equations; lia).
    f_equal; [|f_equal; [|f_equal; [|f_equal]]]; apply chr_eq; subst r;
      Z.to_euclidean_division_equations; lia.
Qed.

Lemma sequence_decode u rn size (t : string) :
  sequence u rn size → utf8.DecodeRune (u +:+ t) = (rn, size).
Proof.
  destruct 1 as [c0 c1 H0 H1 | c0 c1 c2 H0 H1 H2 Hlo Hhi | c0 c1 c2 c3 H0 H1 H2 H3 Hlo Hhi];
    rewrite !app_cons, app_nil_l; unfold utf8.DecodeRune, utf8.first, utf8.locb, utf8.hicb,
      byte_at; simpl String.get; simpl String.length;
    rewrite ?land_31, ?land_15, ?land_7, ?land_63, ?rune4, ?rune3, ?rune2;
    split_if_goal; try reflexivity; exfalso; nat_tests; lia.
Qed.

Lemma stake_app_ge (n : nat) (u t : string) :
  (String.length u ≤ n)%nat → stake n (u +:+ t) = u +:+ stake (n - String.length u) t.
Proof.
  revert n. induction u as [|c u IH]; intros n Hn.
  - simpl. by rewrite Nat.sub_0_r.
  - destruct n as [|n]; [simpl in Hn; lia|]. rewrite !app_cons. simpl.
    rewrite IH by (simpl in Hn; lia). done.
Qed.

Lemma ValidString_wf_go (n : nat) (s : string) : utf8.valid_go n s = true → wf_utf8 s.
Proof.
  revert s. induction n as [|n IH]; intros s H.
  - destruct s; [constructor | done].
  - destruct s as [|c r]; [constructor|].
    unfold utf8.valid_go in H. fold utf8.valid_go in H.
    destruct (utf8.DecodeRune (String c r)) as [rn size] eqn:E.
    destruct ((rn =? utf8.RuneError) && (size =? 1)%nat) eqn:Eerr; [done|].
    destruct (Z.lt_ge_cases (code c) 128) as [Hlow | Hhigh].
    + unfold utf8.DecodeRune in E. apply Z.ltb_lt in Hlow. rewrite Hlow in E.
      injection E as <- <-. apply Z.ltb_lt in Hlow. apply wf_ascii; [done|]. by apply IH.
    + apply DecodeRune_sequence in E; [|done].
      destruct E as [[-> ->] | (u & t & Hs & Hseq)].
      * by rewrite Z.eqb_refl in Eerr.
      * rewrite Hs in *. destruct (sequence_length _ _ _ Hseq) as [Hlen _].
        rewrite <- Hlen, sdrop_app in H. apply wf_seq with rn size; [done|]. by apply IH.
Qed.

Lemma ValidString_wf (s : string) : utf8.ValidString s = true → wf_utf8 s.
Proof. apply ValidString_wf_go. Qed.

(** *** The encoder writes a sequence of such steps *)

Lemma hexval_hexdigit (x : Z) : 0 ≤ x < 16 → hexval (hexdigit x) = Some x.
Proof.
  intros H. unfold hexval, hexdigit.
  destruct (x <? 10) eqn:E; rewrite code_chr by lia; split_if_goal; try lia; f_equal; lia.
Qed.

Lemma hexdigit_plain (x : Z) : 0 ≤ x < 16 → plain (hexdigit x) = true.
Proof.
  intros H. unfold plain, hexdigit. destruct (x <? 10) eqn:E; rewrite code_chr by lia; lia.
Qed.

Lemma escape_unit (c : ascii) :
  code c < 128 → htmlSafe (code c) = false → unit_enc (String c "") (escape (code c)).
Proof.
  intros Hlow Hsafe. pose proof (code_range c) as R. unfold escape.
  destruct ((code c =? 92) || (code c =? 34)) eqn:E1.
  { rewrite chr_code. apply enc_escape; [unfold is_escape; lia|].
    unfold unescape. split_if_goal; try done; lia. }
  assert (∀ e v, code c = v → unescape e = chr v → is_escape e = true →
                 unit_enc (String c "") (String bs (String e ""))) as Hesc.
  { intros e v Hv Hu He. apply enc_escape; [done|]. rewrite Hu, <- Hv. apply chr_code. }
  destruct (code c =? 8) eqn:E2; [apply (Hesc "b"%char 8); [lia|done..]|].
  destruct (code c =? 12) eqn:E3; [apply (Hesc "f"%char 12); [lia|done..]|].
  destruct (code c =? 10) eqn:E4; [apply (Hesc "n"%char 10); [lia|done..]|].
  destruct (code c =? 13) eqn:E5; [apply (Hesc "r"%char 13); [lia|done..]|].
  destruct (code c =? 9) eqn:E6; [apply (Hesc "t"%char 9); [lia|done..]|].
  set (hi := hexdigit (Z.shiftr (code c) 4)). set (lo := hexdigit (Z.land (code c) 15)).
  change ("\u00" +:+ String hi (String lo ""))
    with (String bs (String "u" (String "0" (String "0" (String hi (String lo "")))))).
  assert (0 ≤ Z.shiftr (code c) 4 < 8) as Hhi.
  { rewrite Z.shiftr_div_pow2 by lia. change (2 ^ 4) with 16.
    Z.to_euclidean_division_equations; lia. }
  assert (0 ≤ Z.land (code c) 15 < 16) as Hlo.
  { rewrite land_15. apply Z.mod_pos_bound. lia. }
  apply (enc_unicode _ (code c)).
  - unfold hex4. subst hi lo. rewrite !hexval_hexdigit by lia.
    change (hexval "0") with (Some 0). f_equal.
    rewrite Z.shiftr_div_pow2, land_15 by lia. change (2 ^ 4) with 16.
    Z.to_euclidean_division_equations; lia.
  - done.
  - simpl. subst hi lo. rewrite !hexdigit_plain by lia. done.
  - unfold utf16.IsSurrogate. lia.
  - unfold utf8.EncodeRune, utf8.RuneError. split_if_goal; try lia. by rewrite chr_code.
  - done.
Qed.

Lemma appendString_go_units (s : string) :
  wf_utf8 s → ∀ n, (String.length s ≤ n)%nat → units s (appendString_go n s).
Proof.
  induction 1 as [| c s Hlow Hwf IH | u rn size s Hseq Hwf IH]; intros n Hn.
  - destruct n; constructor.
  - destruct n as [|n]; [simpl in Hn; lia|]. simpl in Hn.
    unfold appendString_go. fold appendString_go.
    apply Z.ltb_lt in Hlow as Hlow'. rewrite Hlow'.
    change (String c s) with (String c "" +:+ s). apply units_cons; [|apply IH; lia].
    pose proof (code_range c).
    destruct (htmlSafe (code c)) eqn:Hsafe.
    + unfold htmlSafe in Hsafe. apply enc_plain; lia.
    + by apply escape_unit.
  - destruct (sequence_length _ _ _ Hseq) as [Hlen Hsize].
    rewrite length_app_s in Hn.
    destruct n as [|n]; [lia|].
    assert (∃ c0 r0, u = String c0 r0 ∧ 128 ≤ code c0) as (c0 & r0 & -> & Hc0).
    { destruct Hseq; eexists _, _; (split; [reflexivity|lia]). }
    rewrite app_cons. unfold appendString_go. fold appendString_go.
    destruct (code c0 <? 128) eqn:E; [lia|]. clear E.
    rewrite <- app_cons.
    rewrite stake_app_ge by lia. rewrite (sequence_decode _ _ _ _ Hseq).
    destruct ((rn =? utf8.RuneError) && (size =? 1)%nat) eqn:Eerr;
      [apply andb_prop in Eerr as [_ ?%Nat.eqb_eq]; lia|].
    pose proof Hlen as Hlen'. revert Hseq IH Hsize Eerr. rewrite <- Hlen'. intros Hseq IH Hsize Eerr.
    rewrite !sdrop_app, ?stake_app.
    destruct ((rn =? 8232) || (rn =? 8233)) eqn:Esep.
    + change ("\u202" +:+ String ?h ?q)
        with (String bs (String "u" (String "2" (String "0" (String "2" (String h "")))))
              +:+ q).
      apply units_cons; [|apply IH; lia].
      apply (enc_unicode _ rn).
      * apply orb_prop in Esep as [->%Z.eqb_eq | ->%Z.eqb_eq]; reflexivity.
      * done.
      * apply orb_prop in Esep as [->%Z.eqb_eq | ->%Z.eqb_eq]; reflexivity.
      * apply orb_prop in Esep as [->%Z.eqb_eq | ->%Z.eqb_eq]; reflexivity.
      * by eapply sequence_encode.
      * done.
    + apply units_cons; [|apply IH; lia]. by eapply enc_sequence.
Qed.

(** *** The scanner accepts what the encoder writes, [unquote] reads it back *)

Lemma literal_plain (u s : string) :
  all_chars plain u = true → literal (u +:+ s) = prepend u (literal s).
Proof.
  induction u as [|c u IH]; intros H.
  - rewrite app_nil_l. destruct (literal s) as [[? ?]|]; reflexivity.
  - simpl in H. apply andb_prop in H as [Hc Hu]. rewrite app_cons.
    unfold literal at 1. fold literal. unfold plain in Hc.
    destruct (code c =? 34) eqn:E1; [lia|]. destruct (code c =? 92) eqn:E2; [lia|].
    destruct (code c <? 32) eqn:E3; [lia|]. rewrite (IH Hu).
    destruct (literal s) as [[? ?]|]; reflexivity.
Qed.

Lemma all_chars_weaken (p q : ascii → bool) (s : string) :
  (∀ c, p c = true → q c = true) → all_chars p s = true → all_chars q s = true.
Proof.
  intros Hpq. induction s as [|c s IH]; [done|]. simpl.
  intros [Hc Hs]%andb_prop. by rewrite (Hpq c Hc), IH.
Qed.

Lemma hex4_app (h t : string) : String.length h = 4%nat → hex4 (h +:+ t) = hex4 h.
Proof. destruct h as [|a [|b [|c [|d [|e h]]]]]; done. Qed.

Lemma literal_unit (s x t : string) :
  unit_enc s x → literal (x +:+ t) = prepend x (literal t).
Proof.
  destruct 1 as [c Hc H34 H92 | c e He Hu | s rn h Hh Hlen Hplain Hsur Henc Hne | u rn size Hseq].
  - apply literal_plain. simpl. unfold plain. lia.
  - rewrite !app_cons, app_nil_l. unfold literal at 1. fold literal.
    change (code bs) with 92. simpl. rewrite He.
    destruct (literal t) as [[? ?]|]; reflexivity.
  - rewrite !app_cons. unfold literal at 1. fold literal.
    change (code bs) with 92. simpl.
    change (is_escape "u") with false. cbv iota. change (code "u") with 117. simpl.
    rewrite hex4_app, Hh by done.
    rewrite literal_plain.
    + destruct (literal t) as [[? ?]|]; reflexivity.
    + exact Hplain.
  - apply literal_plain. eapply all_chars_weaken; [|by eapply sequence_high].
    intros c Hc. unfold plain. simpl in Hc. lia.
Qed.

Lemma literal_units (s q rest : string) :
  units s q → literal (q +:+ String dq rest) = Some (q, rest).
Proof.
  induction 1 as [| s x src q Hu Hus IH].
  - rewrite app_nil_l. reflexivity.
  - rewrite app_assoc_s, (literal_unit _ _ _ Hu), IH. done.
Qed.

Lemma unit_nonempty (s x : string) : unit_enc s x → (1 ≤ String.length x)%nat.
Proof. destruct 1 as [| | |u rn size Hseq]; simpl; try lia. destruct Hseq; simpl; lia. Qed.

Lemma unquote_unit (s x q : string) (n : nat) :
  unit_enc s x → unquote_go (S n) (x +:+ q) = s +:+ unquote_go n q.
Proof.
  destruct 1 as [c Hc H34 H92 | c e He Hu | s rn h Hh Hlen Hplain Hsur Henc Hne | u rn size Hseq].
  - rewrite !app_cons, !app_nil_l. unfold unquote_go at 1. fold unquote_go.
    destruct (code c =? 92) eqn:E; [lia|]. destruct (code c <? 128) eqn:E'; [done|lia].
  - rewrite !app_cons, !app_nil_l. unfold unquote_go at 1. fold unquote_go.
    change (code bs) with 92. simpl.
    destruct (code e =? 117) eqn:E; [|by rewrite Hu].
    unfold is_escape in He. lia.
  - destruct h as [|a [|b [|c [|d [|? ?]]]]]; try done.
    rewrite !app_cons, app_nil_l. unfold unquote_go at 1. fold unquote_go.
    change (code bs =? 92) with true. cbv iota.
    change (code "u" =? 117) with true. cbv iota.
    unfold getu4. change (code bs =? 92) with true. change (code "u" =? 117) with true.
    cbv iota. simpl andb. cbv iota.
    unfold hex4 in Hh |- *. rewrite Hh, Hsur. simpl sdrop. by rewrite Henc.
  - assert (∃ c0 r0, u = String c0 r0 ∧ 128 ≤ code c0) as (c0 & r0 & -> & Hc0).
    { destruct Hseq; eexists _, _; (split; [reflexivity|lia]). }
    rewrite app_cons. unfold unquote_go at 1. fold unquote_go.
    destruct (code c0 =? 92) eqn:E; [lia|]. destruct (code c0 <? 128) eqn:E'; [lia|].
    rewrite <- app_cons. rewrite (sequence_decode _ _ _ _ Hseq).
    rewrite (sequence_encode _ _ _ Hseq).
    destruct (sequence_length _ _ _ Hseq) as [<- _]. by rewrite sdrop_app.
Qed.

Lemma unquote_units (s q : string) :
  units s q → ∀ n, (String.length q ≤ n)%nat → unquote_go n q = s.
Proof.
  induction 1 as [| s x src q Hu Hus IH]; intros n Hn.
  - by destruct n.
  - rewrite length_app_s in Hn. pose proof (unit_nonempty _ _ Hu).
    destruct n as [|n]; [lia|]. rewrite (unquote_unit _ _ _ _ Hu). f_equal. apply IH. lia.
Qed.

(** A string literal is read back as the string it encodes. *)
Lemma string_round_trip (s rest : string) :
  wf_utf8 s →
  ∃ raw, literal (appendString_go (String.length s) s +:+ String dq rest) = Some (raw, rest)
         ∧ unquote raw = s.
Proof.
  intros Hwf. pose proof (appendString_go_units s Hwf _ (le_n _)) as Hu.
  eexists. split; [by eapply literal_units|]. by eapply unquote_units.
Qed.

(** ** Numbers: FormatInt against the scanner and ParseInt *)

Lemma digits_value_app (a b : string) (v : Z) :
  digits_value (a +:+ b) v
  = match digits_value a v with Some v' => digits_value b v' | None => None end.
Proof.
  revert v. induction a as [|c a IH]; intros v; [done|].
  rewrite app_cons. simpl. destruct (is_digit c); [apply IH | done].
Qed.

Lemma all_chars_app (p : ascii → bool) (a b : string) :
  all_chars p (a +:+ b) = all_chars p a && all_chars p b.
Proof.
  induction a as [|c a IH]; [done|]. rewrite app_cons. simpl. by rewrite IH, andb_assoc.
Qed.

Lemma decimal_go_spec (fuel : nat) (n : Z) (acc : string) :
  0 ≤ n < 10 ^ Z.of_nat fuel → (0 < fuel)%nat →
  ∃ d, decimal_go fuel n acc = d +:+ acc
       ∧ d ≠ ""
       ∧ all_chars is_digit d = true
       ∧ (∀ v, digits_value d v = Some (v * 10 ^ Z.of_nat (String.length d) + n))
       ∧ (first_is_zero d = true → d = "0" ∧ n = 0).
Proof.
  revert n acc. induction fuel as [|fuel IH]; intros n acc Hn Hfuel; [lia|].
  simpl decimal_go.
  assert (0 ≤ n mod 10 < 10) as Hmod by (apply Z.mod_pos_bound; lia).
  set (c := chr (48 + n mod 10)).
  assert (code c = 48 + n mod 10) as Hc by (subst c; apply code_chr; lia).
  assert (is_digit c = true) as Hdig by (unfold is_digit; lia).
  destruct (n / 10 =? 0) eqn:E.
  - exists (String c ""). split; [done|]. split; [done|]. split; [simpl; by rewrite Hdig|].
    assert (n = n mod 10) as Hn' by (Z.to_euclidean_division_equations; lia).
    split.
    + intros v. simpl. rewrite Hdig. f_equal. lia.
    + simpl. intros H0. split; [|lia]. assert (code c = 48) as H48 by lia.
      f_equal. rewrite <- (chr_code c), H48. reflexivity.
  - destruct fuel as [|fuel'].
    { simpl in Hn. exfalso. Z.to_euclidean_division_equations; lia. }
    destruct (IH (n / 10) (String c acc)) as (d & Hd & Hne & Hall & Hval & Hzero); [|lia|].
    { rewrite Nat2Z.inj_succ, Z.pow_succ_r in Hn by lia.
      Z.to_euclidean_division_equations; lia. }
    exists (d +:+ String c ""). rewrite Hd, app_assoc_s. split; [done|].
    split; [by destruct d|]. split.
    { rewrite all_chars_app, Hall. simpl. by rewrite Hdig. }
    split.
    + intros v. rewrite digits_value_app, Hval. simpl. rewrite Hdig. f_equal.
      rewrite length_app_s. simpl. rewrite Nat2Z.inj_add, Z.pow_add_r by lia.
      change (10 ^ Z.of_nat 1) with 10. Z.to_euclidean_division_equations; lia.
    + intros H0. exfalso. destruct d as [|a d]; [done|]. rewrite app_cons in H0.
      simpl in H0. destruct Hzero as [_ Hz]; [done|]. lia.
Qed.

Lemma log2_fuel (n : Z) : 0 ≤ n → n < 10 ^ Z.of_nat (Z.to_nat (Z.log2 n) + 1).
Proof.
  intros Hn. rewrite Nat2Z.inj_add, Z2Nat.id by apply Z.log2_nonneg.
  change (Z.of_nat 1) with 1.
  destruct (Z.eq_dec n 0) as [-> | Hne]; [done|].
  pose proof (Z.log2_spec n ltac:(lia)) as [_ Hlt].
  eapply Z.lt_le_trans; [exact Hlt|]. rewrite <- Z.add_1_r.
  apply Z.pow_le_mono_l. lia.
Qed.

(** The decimal digits of a non-negative number. *)
Lemma decimal_digits (n : Z) :
  0 ≤ n →
  ∃ d, decimal_go (Z.to_nat (Z.log2 n) + 1) n "" = d
       ∧ d ≠ ""
       ∧ all_chars is_digit d = true
       ∧ digits_value d 0 = Some n
       ∧ (first_is_zero d = true → d = "0" ∧ n = 0).
Proof.
  intros Hn.
  destruct (decimal_go_spec (Z.to_nat (Z.log2 n) + 1) n "") as (d & Hd & Hne & Hall & Hval & Hz).
  - split; [done | by apply log2_fuel].
  - lia.
  - exists d. rewrite Hd, app_nil_r. split; [done|]. split; [done|]. split; [done|].
    split; [|done]. rewrite Hval. f_equal; lia.
Qed.

Lemma ParseInt_FormatInt (n : Z) :
  MinInt64 ≤ n ≤ MaxInt64 → ParseInt (FormatInt n) = Some n.
Proof.
  intros Hr. unfold FormatInt, ParseInt.
  destruct (n <? 0) eqn:E.
  - destruct (decimal_digits (- n)) as (d & -> & Hne & Hall & Hval & Hz); [lia|].
    change (code "-" =? 45) with true. cbv iota.
    destruct d as [|c d]; [done|]. rewrite Hval.
    destruct ((MinInt64 <=? - - n) && (- - n <=? MaxInt64)) eqn:E'; [f_equal; lia | lia].
  - destruct (decimal_digits n) as (d & -> & Hne & Hall & Hval & Hz); [lia|].
    destruct d as [|c d]; [done|]. simpl in Hall. apply andb_prop in Hall as [Hc Hd].
    unfold is_digit in Hc.
    destruct (code c =? 45) eqn:E1; [lia|]. destruct (code c =? 43) eqn:E2; [lia|].
    rewrite Hval. destruct ((MinInt64 <=? n) && (n <=? MaxInt64)) eqn:E'; [done | lia].
Qed.

Lemma digits_all (d rest : string) :
  all_chars is_digit d = true → delimited rest → digits (d +:+ rest) = (d, rest).
Proof.
  intros Hd Hrest. induction d as [|c d IH].
  - rewrite app_nil_l. destruct rest as [|c r]; [done|]. simpl.
    destruct Hrest as [-> _]. done.
  - simpl in Hd. apply andb_prop in Hd as [Hc Hd]. rewrite app_cons. simpl.
    by rewrite Hc, (IH Hd).
Qed.

Lemma number_tail (rest : string) :
  delimited rest →
  match rest with
  | String c r =>
      if code c =? 46 then
        match digits r with
        | ("", _) => None
        | (d, rest') => Some (String c d, rest')
        end
      else Some ("", rest)
  | "" => Some ("", rest)
  end = Some ("", rest)
  ∧ match rest with
    | String c r =>
        if (code c =? 101) || (code c =? 69) then
          let '(sg, r1) :=
            match r with
            | String c' r' =>
                if (code c' =? 43) || (code c' =? 45) then (String c' "", r') else ("", r)
            | "" => ("", r)
            end in
          match digits r1 with
          | ("", _) => None
          | (d, rest') => Some (String c (sg +:+ d), rest')
          end
        else Some ("", rest)
    | "" => Some ("", rest)
    end = Some ("", rest).
Proof.
  destruct rest as [|c r]; [done|]. intros (_ & H46 & H101 & H69).
  destruct (code c =? 46) eqn:E1; [lia|].
  destruct ((code c =? 101) || (code c =? 69)) eqn:E2; [lia|]. done.
Qed.

Lemma number_FormatInt (n : Z) (rest : string) :
  delimited rest → number (FormatInt n +:+ rest) = Some (FormatInt n, rest).
Proof.
  intros Hrest. destruct (number_tail rest Hrest) as [Hfrac Hexp].
  unfold FormatInt.
  assert (∀ d m, d ≠ "" → all_chars is_digit d = true →
                 (first_is_zero d = true → d = "0" ∧ m = 0) →
                 match d +:+ rest with
                 | String c r =>
                     if code c =? 48 then Some ("0", r)
                     else if is_digit c then let '(d', rest') := digits r in
                                             Some (String c d', rest')
                          else None
                 | "" => None
                 end = Some (d, rest)) as Hint.
  { intros d m Hne Hall Hz. destruct d as [|c d]; [done|]. rewrite app_cons.
    simpl in Hall. apply andb_prop in Hall as [Hc Hd].
    destruct (code c =? 48) eqn:E.
    - destruct Hz as [[= -> ->] _]; [done|]. by rewrite app_nil_l.
    - rewrite Hc. by rewrite (digits_all _ _ Hd Hrest). }
  destruct (n <? 0) eqn:E.
  - destruct (decimal_digits (- n)) as (d & -> & Hne & Hall & Hval & Hz); [lia|].
    rewrite app_cons. unfold number. change (code "-" =? 45) with true. cbv iota.
    rewrite (Hint d (- n) Hne Hall Hz). rewrite Hfrac, Hexp.
    by rewrite !app_nil_r.
  - destruct (decimal_digits n) as (d & -> & Hne & Hall & Hval & Hz); [lia|].
    unfold number. pose proof (Hint d n Hne Hall Hz) as Hd.
    destruct d as [|c d']; [done|]. rewrite app_cons in Hd |- *.
    assert ((code c =? 45) = false) as ->.
    { simpl in Hall. apply andb_prop in Hall as [Hc _]. unfold is_digit in Hc. lia. }
    rewrite Hd, Hfrac, Hexp. by rewrite !app_nil_r.
Qed.

Lemma FormatInt_first (n : Z) :
  ∃ c r, FormatInt n = String c r ∧ (code c = 45 ∨ is_digit c = true).
Proof.
  unfold FormatInt. destruct (n <? 0) eqn:E.
  - eexists _, _. split; [reflexivity|]. by left.
  - destruct (decimal_digits n) as (d & -> & Hne & Hall & _); [lia|].
    destruct d as [|c d]; [done|]. exists c, d. split; [done|]. right.
    simpl in Hall. by apply andb_prop in Hall as [-> _].
Qed.

(** ** The parser reads the indented encoding back *)

Lemma indented_obj (ind : string) (d : nat) kv kvs :
  indented ind d (JObj (kv :: kvs))
  = "{" +:+ newline ind (S d) +:+ members_text ind d (kv :: kvs) +:+ newline ind d +:+ "}".
Proof.
  destruct kv as [k x]. simpl.
  assert (∀ l, (fix members (l : list (string * value)) : string :=
                  match l with
                  | [] => ""
                  | (k0, x0) :: r =>
                      appendString k0 +:+ ": " +:+ indented ind (S d) x0
                        +:+ match r with
                            | [] => ""
                            | _ :: _ => "," +:+ newline ind (S d) +:+ members r
                            end
                  end) l = members_text ind d l) as Hfix.
  { induction l as [|[k0 x0] l IH]; [done|]. simpl. by rewrite IH. }
  by rewrite Hfix.
Qed.

Lemma scan_value_eq (n : nat) (depth : Z) (c : ascii) (r : string) :
  scan_value (S n) depth (String c r)
  = let s := String c r in
    let b := code c in
    if b =? 123 then
      if maxNestingDepth <=? depth then None else
      match skip_ws r with
      | String c' r' =>
          if code c' =? 125 then Some (JObj [], r')
          else match scan_members n (depth + 1) (skip_ws r) with
               | Some (kvs, rest) => Some (JObj kvs, rest)
               | None => None
               end
      | "" => None
      end
    else if b =? 91 then
      if maxNestingDepth <=? depth then None else
      match skip_ws r with
      | String c' r' =>
          if code c' =? 93 then Some (JArr [], r')
          else match scan_elements n (depth + 1) (skip_ws r) with
               | Some (l, rest) => Some (JArr l, rest)
               | None => None
               end
      | "" => None
      end
    else if b =? 34 then
      match literal r with
      | Some (raw, rest) => Some (JStr (unquote raw), rest)
      | None => None
      end
    else if (b =? 45) || is_digit c then
      match number s with
      | Some (lit, rest) => Some (JNum lit, rest)
      | None => None
      end
    else if b =? 116 then option_map (pair (JBool true)) (keyword "true" s)
    else if b =? 102 then option_map (pair (JBool false)) (keyword "false" s)
    else if b =? 110 then option_map (pair JNull) (keyword "null" s)
    else None.
Proof. reflexivity. Qed.

Lemma scan_members_eq (n : nat) (depth : Z) (c : ascii) (r : string) :
  scan_members (S n) depth (String c r)
  = if code c =? 34 then
      match literal r with
      | Some (raw, s1) =>
        match skip_ws s1 with
        | String c1 s2 =>
          if code c1 =? 58 then
            match scan_value n depth (skip_ws s2) with
            | Some (v, s3) =>
              match skip_ws s3 with
              | String c3 s4 =>
                if code c3 =? 44 then
                  match scan_members n depth (skip_ws s4) with
                  | Some (kvs, rest) => Some ((unquote raw, v) :: kvs, rest)
                  | None => None
                  end
                else if code c3 =? 125 then Some ([(unquote raw, v)], s4)
                else None
              | "" => None
              end
            | None => None
            end
          else None
        | "" => None
        end
      | None => None
      end
    else None.
Proof. reflexivity. Qed.

Lemma skip_ws_spaces (d : nat) (s : string) : skip_ws (spaces "  " d +:+ s) = skip_ws s.
Proof.
  induction d as [|d IH]; [done|].
  change (spaces "  " (S d)) with ("  " +:+ spaces "  " d).
  rewrite app_assoc_s, !app_cons, app_nil_l.
  change (skip_ws (String " " (String " " ?t))) with (skip_ws t). exact IH.
Qed.

Lemma skip_ws_newline (d : nat) (s : string) : skip_ws (newline "  " d +:+ s) = skip_ws s.
Proof.
  unfold newline. rewrite app_cons.
  change (skip_ws (String nl ?t)) with (skip_ws t). apply skip_ws_spaces.
Qed.

Lemma skip_ws_stop (c : ascii) (s : string) : is_ws c = false → skip_ws (String c s) = String c s.
Proof. intros H. simpl. by rewrite H. Qed.

Lemma wfv_inv (h : nat) (v : value) :
  wfv h v →
  scalar v
  ∨ ∃ h' kvs, h = S h' ∧ v = JObj kvs ∧ Forall (λ kv, wf_utf8 kv.1 ∧ wfv h' kv.2) kvs.
Proof. destruct h as [|h']; simpl; [by left|]. intros [?|(kvs & ? & ?)]; eauto 10. Qed.

Lemma indented_first (h d : nat) (v : value) :
  wfv h v → ∃ c r, indented "  " d v = String c r ∧ is_ws c = false.
Proof.
  intros [Hs | (h' & kvs & -> & -> & Hwf)]%wfv_inv.
  - destruct v as [| b | lit | s | l | kvs]; try done.
    + by eexists _, _.
    + destruct Hs as [n ->]. destruct (FormatInt_first n) as (c & r & Hc & Hd).
      exists c, r. split; [done|]. unfold is_ws, is_digit in *. lia.
    + by eexists _, _.
  - destruct kvs as [|kv kvs]; [by eexists _, _|]. rewrite indented_obj. by eexists _, _.
Qed.

Lemma skip_ws_indented (h d : nat) (v : value) (s : string) :
  wfv h v → skip_ws (indented "  " d v +:+ s) = indented "  " d v +:+ s.
Proof.
  intros Hwf. destruct (indented_first h d v Hwf) as (c & r & -> & Hc).
  rewrite app_cons. by apply skip_ws_stop.
Qed.

Lemma length_appendString (k : string) :
  String.length (appendString k)
  = (2 + String.length (appendString_go (String.length k) k))%nat.
Proof. unfold appendString. simpl. rewrite length_app_s. simpl. lia. Qed.

Section round_trip.
Variable h : nat.
Hypothesis IHv : ∀ v n depth d rest,
  wfv h v → depth + Z.of_nat h ≤ maxNestingDepth →
  (String.length (indented "  " d v) < n)%nat → delimited rest →
  scan_value n depth (indented "  " d v +:+ rest) = Some (v, rest).

Lemma scan_members_text (kvs : list (string * value)) :
  ∀ n depth d rest,
    kvs ≠ [] → Forall (λ kv, wf_utf8 kv.1 ∧ wfv h kv.2) kvs →
    depth + Z.of_nat h ≤ maxNestingDepth →
    (String.length (members_text "  " d kvs) < n)%nat →
    scan_members n depth (members_text "  " d kvs +:+ newline "  " d +:+ "}" +:+ rest)
    = Some (kvs, rest).
Proof.
  induction kvs as [|[k v] kvs IH]; intros n depth d rest Hne Hwf Hdepth Hn; [done|].
  apply Forall_cons in Hwf as [[Hk Hv] Hwf]. simpl in Hk, Hv.
  simpl members_text in *.
  rewrite !length_app_s, length_appendString in Hn.
  destruct n as [|n]; [lia|].
  set (END := newline "  " d +:+ "}" +:+ rest).
  rewrite !app_assoc_s. unfold appendString.
  rewrite app_cons, app_assoc_s, (app_cons dq ""), app_nil_l.
  rewrite scan_members_eq. change (code dq =? 34) with true. cbv iota.
  match goal with
  | |- context [appendString_go _ k +:+ String dq ?X] =>
      destruct (string_round_trip k X Hk) as (raw & Hlit & Hraw)
  end.
  rewrite Hlit, Hraw.
  change (": " +:+ ?Y) with (String ":" (String " " Y)).
  rewrite (skip_ws_stop ":") by done. change (code ":" =? 58) with true. cbv iota.
  change (skip_ws (String " " ?s)) with (skip_ws s).
  rewrite (skip_ws_indented h) by done.
  destruct kvs as [|kv kvs].
  - rewrite app_nil_l. rewrite IHv; [|done|done|clear -Hn; simpl in Hn; lia|done].
    subst END. rewrite skip_ws_newline.
    change ("}" +:+ rest) with (String "}" rest).
    rewrite (skip_ws_stop "}") by done.
    change (code "}" =? 44) with false. change (code "}" =? 125) with true. done.
  - rewrite IHv; [|done|done|clear -Hn; simpl in Hn; lia|done].
    rewrite !app_assoc_s.
    change ("," +:+ ?Y) with (String "," Y).
    rewrite (skip_ws_stop ",") by done.
    change (code "," =? 44) with true. cbv iota.
    rewrite skip_ws_newline.
    assert (skip_ws (members_text "  " d (kv :: kvs) +:+ END)
            = members_text "  " d (kv :: kvs) +:+ END) as ->.
    { destruct kv as [k' v']. simpl members_text. unfold appendString.
      rewrite !app_cons. by apply skip_ws_stop. }
    subst END. rewrite IH; [done|done|done|done|].
    clear -Hn. set (M := members_text _ _ (kv :: kvs)) in *. clearbody M.
    rewrite !length_app_s in Hn. simpl in Hn. lia.
Qed.
End round_trip.

Lemma scan_scalar (v : value) (n : nat) (depth : Z) (d : nat) (rest : string) :
  scalar v → (String.length (indented "  " d v) < n)%nat → delimited rest →
  scan_value n depth (indented "  " d v +:+ rest) = Some (v, rest).
Proof.
  intros Hs Hn Hrest. destruct v as [| b | lit | s | l | kvs]; try done.
  - destruct n as [|n]; [lia|]. reflexivity.
  - destruct Hs as [m ->]. destruct n as [|n]; [lia|]. simpl indented.
    destruct (FormatInt_first m) as (c & r & Hc & Hd). rewrite Hc, app_cons, scan_value_eq.
    cbv zeta. rewrite <- app_cons, <- Hc, number_FormatInt by done.
    split_if_goal; try done; exfalso; unfold is_digit in *; lia.
  - destruct n as [|n]; [lia|]. simpl indented. unfold appendString.
    rewrite !app_cons, scan_value_eq. change (code dq) with 34. cbv zeta. simpl.
    destruct (string_round_trip s rest Hs) as (raw & Hlit & Hraw).
    rewrite app_assoc_s, app_cons, app_nil_l, Hlit, Hraw. done.
Qed.

Lemma scan_value_indented (h : nat) :
  ∀ v n depth d rest,
    wfv h v → depth + Z.of_nat h ≤ maxNestingDepth →
    (String.length (indented "  " d v) < n)%nat → delimited rest →
    scan_value n depth (indented "  " d v +:+ rest) = Some (v, rest).
Proof.
  induction h as [|h IH]; intros v n depth d rest Hwf Hdepth Hn Hrest.
  - by apply scan_scalar.
  - destruct Hwf as [Hs | (kvs & -> & Hwf)]; [by apply scan_scalar|].
    destruct n as [|n]; [lia|].
    assert ((maxNestingDepth <=? depth) = false) as Hd by lia.
    destruct kvs as [|kv kvs].
    + simpl indented. rewrite !app_cons, scan_value_eq. cbv zeta.
      change (code "{" =? 123) with true. cbv iota. rewrite Hd.
      rewrite app_nil_l. rewrite (skip_ws_stop "}") by done. done.
    + rewrite indented_obj in Hn |- *. rewrite !length_app_s in Hn.
      rewrite !app_cons, app_nil_l, scan_value_eq. cbv zeta.
      change (code "{" =? 123) with true. cbv iota. rewrite Hd.
      rewrite !app_assoc_s, skip_ws_newline.
      assert (skip_ws (members_text "  " d (kv :: kvs) +:+ newline "  " d +:+ "}" +:+ rest)
              = members_text "  " d (kv :: kvs) +:+ newline "  " d +:+ "}" +:+ rest) as Hskip.
      { destruct kv as [k' v']. simpl members_text. unfold appendString.
        rewrite !app_cons. by apply skip_ws_stop. }
      rewrite Hskip.
      rewrite (scan_members_text h IH);
        [| done | done | clear -Hdepth; lia
         | clear -Hn; set (M := members_text _ _ (kv :: kvs)) in *; clearbody M;
           simpl in Hn; lia].
      destruct kv as [k' v']. simpl members_text. unfold appendString. rewrite !app_cons.
      change (code dq =? 125) with false. done.
Qed.

(** ** Unmarshal reads back what Marshal wrote *)

Lemma decode_struct_obj {T} ty names (store : nat → value → T → T * option error) kvs t :
  decode_struct ty names store (JObj kvs) t = fold_left (decode_step names store) kvs (t, None).
Proof. reflexivity. Qed.

Lemma string_field_step {T} names (store : nat → value → T → T * option error)
    (i : nat) (omit : bool) (name s : string) (R R' : T) :
  field_index names name = Some i →
  store i (JStr s) R = (R', None) →
  (omit = true → s = "" → R' = R) →
  fold_left (decode_step names store) (string_field omit name s) (R, None) = (R', None).
Proof.
  intros Hi Hs Hz. unfold string_field.
  destruct (omit && String.eqb s "") eqn:E.
  - apply andb_prop in E as [-> ->%String.eqb_eq]. simpl. by rewrite Hz.
  - simpl. by rewrite Hi, Hs.
Qed.

Lemma int_field_step {T} names (store : nat → value → T → T * option error)
    (i : nat) (omit : bool) (name : string) (n : Z) (R R' : T) :
  field_index names name = Some i →
  store i (JNum (FormatInt n)) R = (R', None) →
  (omit = true → n = 0 → R' = R) →
  fold_left (decode_step names store) (int_field omit name n) (R, None) = (R', None).
Proof.
  intros Hi Hs Hz. unfold int_field.
  destruct (omit && (n =? 0)) eqn:E.
  - apply andb_prop in E as [-> ->%Z.eqb_eq]. simpl. by rewrite Hz.
  - simpl. by rewrite Hi, Hs.
Qed.

Lemma store_int_FormatInt (n old : Z) :
  int64_ok n = true → store_int (JNum (FormatInt n)) old = (n, None).
Proof.
  intros H. unfold store_int. rewrite ParseInt_FormatInt; [done|]. unfold int64_ok in H. lia.
Qed.

Ltac string_step i :=
  erewrite (string_field_step _ _ i);
    [ | reflexivity | reflexivity | first [ done | by intros _ -> ] ].

Ltac int_step i H :=
  erewrite (int_field_step _ _ i);
    [ | reflexivity
      | cbn [store_MagnetEntry store_DatabaseMetadata];
        rewrite (store_int_FormatInt _ _ H); reflexivity
      | first [ done | by intros _ -> ] ].

Lemma decode_MagnetEntry_entry_json (e : MagnetEntry) :
  int64_ok (ID e) = true → int64_ok (RetryCount e) = true →
  decode_MagnetEntry (entry_json e) zero_entry = (e, None).
Proof.
  destruct e as [f0 f1 f2 f3 f4 f5 f6 f7 f8 f9 f10 f11 f12 f13]. intros H1 H11.
  simpl in H1, H11.
  unfold decode_MagnetEntry, entry_json. rewrite decode_struct_obj, !fold_left_app.
  unfold zero_entry. cbn [UUID ID Title Hash URI AddedDate FirstSeen LastAttempt Status
    TorrentID AddedToDeluge RetryCount SavePath TorrentName].
  string_step 0%nat. int_step 1%nat H1. string_step 2%nat. string_step 3%nat.
  string_step 4%nat. string_step 5%nat. string_step 6%nat. string_step 7%nat.
  string_step 8%nat. string_step 9%nat. string_step 10%nat. int_step 11%nat H11.
  string_step 12%nat. string_step 13%nat.
  reflexivity.
Qed.

Lemma decode_DatabaseMetadata_json (m m0 : DatabaseMetadata) :
  int64_ok (LastSequence m) = true →
  decode_DatabaseMetadata (metadata_json m) m0 = (m, None).
Proof.
  destruct m as [f0 f1 f2], m0 as [g0 g1 g2]. intros H0. simpl in H0.
  unfold decode_DatabaseMetadata, metadata_json. rewrite decode_struct_obj, !fold_left_app.
  cbn [LastSequence LastModified Checksum].
  int_step 0%nat H0. string_step 1%nat. string_step 2%nat.
  reflexivity.
Qed.

Lemma entry_ok_int64 (e : MagnetEntry) :
  entry_ok e = true → int64_ok (ID e) = true ∧ int64_ok (RetryCount e) = true.
Proof.
  unfold entry_ok. intros H. repeat (apply andb_prop in H as [H ?]). by split.
Qed.

Lemma fold_left_insert_all {V} (l : list (string * V)) (acc : gmap string V) :
  fold_left (λ a kv, <[kv.1 := kv.2]> a) l acc = list_to_map (rev l) ∪ acc.
Proof.
  revert acc. induction l as [|[k v] l IH]; intros acc; simpl.
  - by rewrite (left_id_L ∅ (∪)).
  - rewrite IH. rewrite list_to_map_app. simpl.
    rewrite <- (assoc_L (∪)). f_equal.
    by rewrite insert_empty, <- insert_union_singleton_l.
Qed.

Lemma sorted_entries_to_map {V} (t : gmap string V) :
  fold_left (λ a kv, <[kv.1 := kv.2]> a) (sorted_entries t) ∅ = t.
Proof.
  rewrite fold_left_insert_all, (right_id_L ∅ (∪)).
  rewrite <- (list_to_map_to_list t) at 2.
  assert (rev (sorted_entries t) ≡ₚ map_to_list t) as HP.
  { rewrite <- Permutation_rev. apply merge_sort_Permutation. }
  apply list_to_map_proper; [|done].
  rewrite HP. apply NoDup_fst_map_to_list.
Qed.

Lemma entries_ok_get (m : gomap MagnetEntry) (k : string) (e : MagnetEntry) :
  entries_ok m = true → go_get m k = Some e →
  utf8.ValidString k = true ∧ entry_ok e = true.
Proof.
  unfold entries_ok, go_get. intros H Hk. rewrite forallb_forall in H.
  apply elem_of_map_to_list, list_elem_of_In, H in Hk. by apply andb_prop in Hk.
Qed.

Lemma sorted_entries_elem {V} (t : gmap string V) (k : string) (v : V) :
  (k, v) ∈ sorted_entries t ↔ t !! k = Some v.
Proof.
  unfold sorted_entries. rewrite merge_sort_Permutation. apply elem_of_map_to_list.
Qed.

Lemma decode_entries_fold (l : list (string * MagnetEntry)) (acc : gmap string MagnetEntry) :
  Forall (λ kv, entry_ok kv.2 = true) l →
  fold_left
    (λ acc kv,
       let '(t, err) := acc in
       let '(v, e) := decode_MagnetEntry kv.2 zero_entry in
       (<[kv.1 := v]> t, save_error err e))
    (prod_map id entry_json <$> l) (acc, None)
  = (fold_left (λ a kv, <[kv.1 := kv.2]> a) l acc, None).
Proof.
  revert acc. induction l as [|[k e] l IH]; intros acc Hl; [done|].
  apply Forall_cons in Hl as [He Hl]. simpl in He. apply entry_ok_int64 in He as [H1 H2].
  rewrite fmap_cons. cbn [fold_left prod_map fst snd id].
  rewrite decode_MagnetEntry_entry_json by done. cbn [save_error]. by apply IH.
Qed.

Lemma decode_entries_map_json (m : gomap MagnetEntry) :
  entries_ok m = true → decode_entries (map_json m) make = (m, None).
Proof.
  intros Hm. pose proof (λ k e, entries_ok_get m k e Hm) as Hg. unfold go_get in Hg. clear Hm. destruct m as [|t]; [done|].
  unfold decode_entries, map_json, decode_map.
  rewrite decode_entries_fold.
  - simpl. by rewrite sorted_entries_to_map.
  - apply Forall_forall. intros [k e] Hin%sorted_entries_elem. simpl.
    by destruct (Hg k e Hin).
Qed.

Lemma decode_database_json (db : MagnetDatabase) :
  database_ok db = true →
  decode_struct "main.MagnetDatabase" ["metadata"; "added"; "retry"]
    store_MagnetDatabase (database_json db) empty_database = (db, None).
Proof.
  unfold database_ok. intros [[Hs Ha]%andb_prop Hr]%andb_prop. destruct db as [md a r].
  cbn [Metadata Added Retry] in *.
  unfold database_json, decode_struct.
  cbn [Metadata Added Retry fold_left fst snd].
  change (field_index ["metadata"; "added"; "retry"] "metadata") with (Some 0%nat).
  change (field_index ["metadata"; "added"; "retry"] "added") with (Some 1%nat).
  change (field_index ["metadata"; "added"; "retry"] "retry") with (Some 2%nat).
  unfold empty_database. cbn [store_MagnetDatabase].
  rewrite decode_DatabaseMetadata_json by done. cbn [save_error store_MagnetDatabase].
  rewrite (decode_entries_map_json a Ha). cbn [save_error store_MagnetDatabase].
  by rewrite (decode_entries_map_json r Hr).
Qed.

(** ** What Marshal writes is within the fragment the parser reads back *)

Lemma wfv_mono (h : nat) (j : value) : wfv h j → wfv (S h) j.
Proof.
  revert j. induction h as [|h IH]; intros j H; [by left|].
  destruct H as [H | (kvs & -> & H)]; [by left|]. right. exists kvs. split; [done|].
  eapply Forall_impl; [exact H|]. intros kv [? ?]. split; [done|]. by apply IH.
Qed.

Lemma string_field_wf (omit : bool) (name s : string) :
  utf8.ValidString name = true → wf_utf8 s →
  Forall (λ kv, wf_utf8 kv.1 ∧ wfv 0 kv.2) (string_field omit name s).
Proof.
  intros Hn Hs. unfold string_field. destruct (omit && _); [constructor|].
  repeat constructor; [by apply ValidString_wf|done].
Qed.

Lemma int_field_wf (omit : bool) (name : string) (n : Z) :
  utf8.ValidString name = true →
  Forall (λ kv, wf_utf8 kv.1 ∧ wfv 0 kv.2) (int_field omit name n).
Proof.
  intros Hn. unfold int_field. destruct (omit && _); [constructor|].
  repeat constructor; [by apply ValidString_wf|]. by exists n.
Qed.

Lemma entry_json_wf (e : MagnetEntry) : entry_ok e = true → wfv 1 (entry_json e).
Proof.
  unfold entry_ok. intros H. repeat (apply andb_prop in H as [H ?]).
  right. eexists. split; [reflexivity|].
  repeat (apply Forall_app; split);
    first [ by apply string_field_wf, ValidString_wf | by apply int_field_wf ].
Qed.

Lemma map_json_wf (m : gomap MagnetEntry) : entries_ok m = true → wfv 2 (map_json m).
Proof.
  intros Hm'. pose proof (λ k e, entries_ok_get m k e Hm') as Hm. unfold go_get in Hm.
  clear Hm'. destruct m as [|t]; [by left|]. right. eexists. split; [reflexivity|].
  apply Forall_fmap, Forall_forall. intros [k e] Hin%sorted_entries_elem.
  destruct (Hm k e Hin) as [Hk He]. simpl. split; [by apply ValidString_wf|].
  by apply entry_json_wf.
Qed.

Lemma metadata_json_wf (m : DatabaseMetadata) :
  wf_utf8 (LastModified m) → wf_utf8 (Checksum m) → wfv 1 (metadata_json m).
Proof.
  intros Hm Hc. right. eexists. split; [reflexivity|].
  repeat (apply Forall_app; split);
    first [ by apply string_field_wf | by apply int_field_wf ].
Qed.

Lemma database_json_wf (db : MagnetDatabase) :
  wf_utf8 (LastModified (Metadata db)) → wf_utf8 (Checksum (Metadata db)) →
  entries_ok (Added db) = true → entries_ok (Retry db) = true →
  wfv 3 (database_json db).
Proof.
  intros Hm Hc Ha Hr. right. eexists. split; [reflexivity|].
  repeat (constructor; [split; [by apply ValidString_wf|] |]).
  - by apply wfv_mono, metadata_json_wf.
  - by apply map_json_wf.
  - by apply map_json_wf.
  - constructor.
Qed.

Lemma hexdigit_ascii (x : Z) : 0 ≤ x < 16 → code (hexdigit x) < 128.
Proof.
  intros H. unfold hexdigit. destruct (x <? 10) eqn:E; rewrite code_chr; lia.
Qed.

Lemma EncodeToString_wf (bs : list Z) :
  Forall (λ b, 0 ≤ b < 256) bs → wf_utf8 (hex.EncodeToString bs).
Proof.
  induction 1 as [|b bs Hb _ IH]; [constructor|].
  simpl. unfold hex.byte. rewrite !app_cons, app_nil_l.
  apply wf_ascii.
  { apply hexdigit_ascii. rewrite Z.shiftr_div_pow2 by lia.
    change (2 ^ 4) with 16. Z.to_euclidean_division_equations. lia. }
  apply wf_ascii; [|done].
  apply hexdigit_ascii. change 15 with (2 ^ 4 - 1). rewrite (land_mask b 4) by lia.
  change (2 ^ 4) with 16. Z.to_euclidean_division_equations. lia.
Qed.

Lemma byte_mask (x : Z) : 0 ≤ Z.land x 255 < 256.
Proof.
  change 255 with (2 ^ 8 - 1). rewrite (land_mask x 8) by lia.
  change (2 ^ 8) with 256. Z.to_euclidean_division_equations. lia.
Qed.

Lemma be32_bytes (x : Z) : Forall (λ b, 0 ≤ b < 256) (sha1.be32 x).
Proof.
  unfold sha1.be32.
  apply Forall_cons_2; [apply byte_mask|]. apply Forall_cons_2; [apply byte_mask|].
  apply Forall_cons_2; [apply byte_mask|]. apply Forall_cons_2; [apply byte_mask|].
  apply Forall_nil_2.
Qed.

Lemma sha1_Sum_bytes (msg : list Z) : Forall (λ b, 0 ≤ b < 256) (sha1.Sum msg).
Proof. unfold sha1.Sum. repeat (apply Forall_app; split); apply be32_bytes. Qed.

Lemma ComputeChecksum_wf (db : MagnetDatabase) : wf_utf8 (ComputeChecksum db).
Proof.
  unfold ComputeChecksum, Marshal. apply EncodeToString_wf, sha1_Sum_bytes.
Qed.

Lemma parse_indented (h : nat) (v : value) :
  wfv h v → Z.of_nat h ≤ maxNestingDepth → parse (indented "  " 0 v) = Some v.
Proof.
  intros Hwf Hh. unfold parse.
  pose proof (skip_ws_indented h 0 v "" Hwf) as Hs. rewrite app_nil_r in Hs. rewrite Hs.
  pose proof (scan_value_indented h v (2 * String.length (indented "  " 0 v) + 2) 0 0 ""
                Hwf) as Hv.
  rewrite app_nil_r in Hv. rewrite Hv; [done| lia | lia | done].
Qed.

Lemma stamp_sections (now : string) (db : MagnetDatabase) :
  Added (stamp now db) = Added db ∧ Retry (stamp now db) = Retry db
  ∧ LastSequence (Metadata (stamp now db)) = LastSequence (Metadata db)
  ∧ LastModified (Metadata (stamp now db)) = now
  ∧ wf_utf8 (Checksum (Metadata (stamp now db))).
Proof. unfold stamp. cbn [Added Retry Metadata LastSequence LastModified Checksum].
  repeat split. apply ComputeChecksum_wf. Qed.

Lemma Unmarshal_MarshalIndent (now : string) (db : MagnetDatabase) :
  database_ok db = true → utf8.ValidString now = true →
  Unmarshal (MarshalIndent (stamp now db)).1 empty_database = (stamp now db, None).
Proof.
  intros Hdb Hnow. destruct (stamp_sections now db) as (Ha & Hr & Hs & Hm & Hc).
  pose proof Hdb as Hdb'. unfold database_ok in Hdb'.
  apply andb_prop in Hdb' as [[H1 H2]%andb_prop H3].
  unfold Unmarshal, MarshalIndent. cbn [fst].
  rewrite (parse_indented 3).
  - apply decode_database_json. unfold database_ok. rewrite Ha, Hr, Hs.
    by rewrite H1, H2, H3.
  - apply database_json_wf; rewrite ?Ha, ?Hr, ?Hm; try done. by apply ValidString_wf.
  - unfold maxNestingDepth. lia.
Qed.

Lemma ReadFile_present (path data : string) (w : World) :
  files w !! path = Some data → default None (head (faults w)) = None →
  ReadFile path w = Some ((data, None), set_faults w (tail (faults w))).
Proof.
  intros Hf Hq. unfold ReadFile. run_monad. rewrite next_fault_spec, Hq.
  destruct w; simpl in *. by rewrite Hf.
Qed.

(** C6, as amended.  When the numbers of the database fit an int64, its
    text (keys, entry fields and the time stamp) is valid UTF-8 and it has
    at least one entry, a save that succeeds followed by a load whose read
    succeeds returns exactly the database that was saved, so every field
    of every entry of both sections is reproduced. *)
Theorem save_load_round_trip (path : string) (db db1 : MagnetDatabase) (w w1 : World) :
  database_ok db = true → utf8.ValidString (clock w) = true →
  0 < go_len (Added db) + go_len (Retry db) →
  SaveDatabaseLocal path db w = Some ((db1, None), w1) →
  default None (head (faults w1)) = None →
  ∃ w2, LoadJSONDatabase path w1 = Some ((Some db1, None), w2)
        ∧ Added db1 = Added db ∧ Retry db1 = Retry db.
Proof.
  intros Hok Hclock Hlen Hsave Hquiet.
  destruct (SaveDatabaseLocal_spec path db w) as (err & w' & E & _ & _ & Hfile).
  rewrite E in Hsave.
  assert (db1 = stamp (clock w) db) as -> by congruence.
  assert (err = None) as -> by congruence.
  assert (w' = w1) as -> by congruence.
  destruct (Hfile eq_refl) as [Hdata _].
  pose proof (ReadFile_present _ _ _ Hdata Hquiet) as Hread.
  rewrite (LoadJSONDatabase_readable _ _ _ _ Hread).
  unfold parse_database. rewrite (Unmarshal_MarshalIndent _ _ Hok Hclock).
  destruct (stamp_sections (clock w) db) as (Ha & Hr & _).
  rewrite Ha, Hr. cbn [is_nil andb].
  assert ((0 <? go_len (Added db)) || (0 <? go_len (Retry db)) = true) as ->.
  { unfold go_len in *. destruct (0 <? _) eqn:E1; [done|]. simpl. lia. }
  eexists. split; [reflexivity|]. done.
Qed.

(** C6, the claim as stated fails: a title that is not valid UTF-8 is
    saved and loaded without an error, and the loaded title is U+FFFD
    instead of the byte that was saved. *)
Lemma invalid_text_not_reproduced :
  ∃ db1 w1 db2 w2,
    SaveDatabaseLocal "/db.json" garbled_title (quiet ∅) = Some ((db1, None), w1)
    ∧ LoadJSONDatabase "/db.json" w1 = Some ((Some db2, None), w2)
    ∧ Title <$> go_get (Added garbled_title) hash_h = Some garbled
    ∧ Title <$> go_get (Added db2) hash_h = Some replacement.
Proof.
  eexists _, _, _, _. split; [vm_compute; reflexivity|].
  split; [vm_compute; reflexivity|]. split; vm_compute; reflexivity.
Qed.

(** A database whose maps are nil is saved with [null] sections; the load
    then takes the flat-map path and stores into the nil map. *)
Example nil_sections_load_panics :
  ∃ db1 w1,
    SaveDatabaseLocal "/db.json" nil_sections (quiet ∅) = Some ((db1, None), w1)
    ∧ LoadJSONDatabase "/db.json" w1 = None.
Proof.
  eexists _, _. split; [vm_compute; reflexivity|]. vm_compute; reflexivity.
Qed.

(** The empty database is read back through the flat-map schema: its three
    top-level keys come back as entries. *)
Example empty_database_reloads_as_flat_map :
  ∃ db1 w1 db2 w2,
    SaveDatabaseLocal "/db.json" empty_database (quiet ∅) = Some ((db1, None), w1)
    ∧ LoadJSONDatabase "/db.json" w1 = Some ((Some db2, None), w2)
    ∧ go_len (Added db2) = 3.
Proof.
  eexists _, _, _, _. split; [vm_compute; reflexivity|].
  split; [vm_compute; reflexivity|]. vm_compute; reflexivity.
Qed.

(** ** Evaluations on concrete databases *)

(** C1. The priority of the claim does not hold: with [hash_h] in the
    "added" map of the local database under identifier 1 and in the
    "retry" map of the remote database under identifier 5, MergeDatabases
    selects the retry candidate; the merged database has the hash in
    "retry" only. *)
Theorem merge_retry_beats_added :
  let merged := MergeDatabases (quiet ∅) local_added_1 remote_retry_5 in
  go_get (Added merged) hash_h = None
  ∧ go_get (Retry merged) hash_h = Some (sample_entry hash_h "remote" 5).
Proof. vm_compute. split; reflexivity. Qed.

(** C2. The exclusivity of the claim does not hold: when the reconciled
    database has [hash_h] in "added" and the update has it in "retry", the
    overlay of SaveJSONDatabase leaves the hash in both maps. *)
Theorem overlay_keeps_both_sections :
  ∃ db, applyUpdates in_order reconciled_added update_retry = Some db
        ∧ go_get (Added db) hash_h = Some (sample_entry hash_h "done" 1)
        ∧ go_get (Retry db) hash_h = Some (sample_entry hash_h "again" 2).
Proof. eexists. split; [vm_compute; reflexivity|]. vm_compute. split; reflexivity. Qed.

(** C5. The invariant of the claim does not hold: the overlay keeps an
    update entry with the preset identifier 50 while last_sequence stays 3;
    and MergeDatabases of a database at sequence 10 whose only entry has
    identifier 1 returns last_sequence 1. *)
Theorem sequence_counter_falls_behind :
  (∃ db, applyUpdates in_order reconciled_seq_3 update_preset_50 = Some db
         ∧ go_get (Added db) hash_h = Some (sample_entry hash_h "preset" 50)
         ∧ LastSequence (Metadata db) = 3)
  ∧ LastSequence (Metadata (MergeDatabases (quiet ∅) local_seq_10 empty_database)) = 1.
Proof.
  split.
  - eexists. split; [vm_compute; reflexivity|]. vm_compute. split; reflexivity.
  - vm_compute. reflexivity.
Qed.

(** C4. The scope of the claim does not hold: two databases with the same
    "added" and "retry" maps and a different last_sequence have different
    checksums, because ComputeChecksum digests the encoding of the whole
    database. *)
Theorem checksum_covers_metadata :
  Added content_seq_0 = Added content_seq_7
  ∧ Retry content_seq_0 = Retry content_seq_7
  ∧ ComputeChecksum content_seq_0 = "af07cbd9e48c345f4240489a642fc8a4b3cebed7"
  ∧ ComputeChecksum content_seq_7 ≠ ComputeChecksum content_seq_0.
Proof.
  split; [reflexivity|]. split; [reflexivity|]. split; [vm_compute; reflexivity|].
  vm_compute. discriminate.
Qed.

(** ** The theorems at concrete inputs *)

Lemma merge_lossless_witness :
  is_Some (go_get (Retry remote_retry_5) hash_h)
  ∧ (is_Some (go_get (Added (MergeDatabases (quiet ∅) local_added_1 remote_retry_5)) hash_h)
     ∨ is_Some (go_get (Retry (MergeDatabases (quiet ∅) local_added_1 remote_retry_5)) hash_h)).
Proof.
  split.
  - vm_compute. eexists. reflexivity.
  - apply (merge_lossless (quiet ∅) local_added_1 remote_retry_5 hash_h).
    right. right. right. vm_compute. eexists. reflexivity.
Defined.

Lemma reconcile_short_circuit_witness :
  SyncWithRemote "/local.json" "/remote.json" two_copies
  = match LoadJSONDatabase "/local.json" two_copies with
    | Some ((local, None), w3) => Some ((local, None), w3)
    | Some ((_, Some e), w3) => Some ((None, Some (Wrapf "failed to load local: " e)), w3)
    | None => None
    end.
Proof.
  apply (reconcile_short_circuit "/local.json" "/remote.json"
           (hex.EncodeToString (sha1.Sum (bytes_of (MarshalIndent local_added_1).1)))
           two_copies two_copies two_copies);
    vm_compute; reflexivity.
Defined.

Lemma load_format_error_witness :
  ((∃ e w', LoadJSONDatabase "/db.json" only_braces = Some ((None, Some e), w'))
   ↔ accepts_current "{}" empty_database = false
     ∧ accepts_V0 "{}" = false ∧ accepts_V1 "{}" = false)
  ∧ (∀ e w', LoadJSONDatabase "/db.json" only_braces = Some ((None, Some e), w') →
             e = Errorf "unrecognized format").
Proof.
  apply (load_format_error "/db.json" "{}" only_braces only_braces).
  vm_compute. reflexivity.
Defined.

Lemma save_load_round_trip_witness :
  ∃ w2, LoadJSONDatabase "/db.json" saved_world
        = Some ((Some (stamp (clock (quiet ∅)) local_added_1), None), w2)
        ∧ Added (stamp (clock (quiet ∅)) local_added_1) = Added local_added_1
        ∧ Retry (stamp (clock (quiet ∅)) local_added_1) = Retry local_added_1.
Proof.
  apply (save_load_round_trip "/db.json" local_added_1
           (stamp (clock (quiet ∅)) local_added_1) (quiet ∅) saved_world).
  - vm_compute. reflexivity.
  - vm_compute. reflexivity.
  - vm_compute. reflexivity.
  - vm_compute. reflexivity.
  - vm_compute. reflexivity.
Defined.

(** * Further properties *)

(** ** The merge, hash by hash *)

Lemma select_winner_fold (cs : list candidate) :
  select_winner cs = fold_left select_step cs (zero_entry, false, false).
Proof. reflexivity. Qed.

Lemma select_fold_origin (cs : list candidate) (st : MagnetEntry * bool * bool) winner inAdded :
  fold_left select_step cs st = (winner, inAdded, true) →
  st = (winner, inAdded, true)
  ∨ ∃ c, c ∈ cs ∧ exists_ c = true ∧ entry c = winner ∧ isAdded c = inAdded.
Proof.
  revert st. induction cs as [|c cs IH]; intros st H; simpl in H; [by left|].
  apply IH in H as [H | (c' & Hin & H)].
  - destruct st as [[w0 a0] f0]. unfold select_step in H.
    destruct (exists_ c) eqn:Ec; simpl in H; [|by left].
    destruct (negb f0 || (isAdded c && negb a0) || (ID w0 <? ID (entry c))); [|by left].
    right. exists c. split; [apply list_elem_of_here|]. by injection H as <- <-.
  - right. exists c'. split; [by apply list_elem_of_further|done].
Qed.

Lemma select_fold_none (cs : list candidate) (st : MagnetEntry * bool * bool) :
  Forall (λ c, exists_ c = false) cs → fold_left select_step cs st = st.
Proof.
  revert st. induction 1 as [|c cs Hc _ IH]; intros; [done|]. simpl.
  destruct st as [[w0 a0] f0]. unfold select_step at 2. rewrite Hc. simpl. apply IH.
Qed.

Lemma comma_ok_spec (m : gomap MagnetEntry) (h : string) :
  comma_ok m h = match go_get m h with Some v => (v, true) | None => (zero_entry, false) end.
Proof. reflexivity. Qed.

Lemma candidate_origin (local remote : MagnetDatabase) (h : string) (c : candidate) :
  c ∈ candidates_of local remote h → exists_ c = true →
  if isAdded c
  then go_get (Added local) h = Some (entry c) ∨ go_get (Added remote) h = Some (entry c)
  else go_get (Retry local) h = Some (entry c) ∨ go_get (Retry remote) h = Some (entry c).
Proof.
  unfold candidates_of, comma_ok.
  destruct (go_get (Added local) h), (go_get (Retry local) h),
    (go_get (Added remote) h), (go_get (Retry remote) h);
    rewrite !elem_of_cons, elem_of_nil;
    intros [-> | [-> | [-> | [-> | []]]]]; simpl; intros; try done; eauto.
Qed.

Lemma winner_origin (local remote : MagnetDatabase) (h : string) winner inAdded :
  select_winner (candidates_of local remote h) = (winner, inAdded, true) →
  if inAdded
  then go_get (Added local) h = Some winner ∨ go_get (Added remote) h = Some winner
  else go_get (Retry local) h = Some winner ∨ go_get (Retry remote) h = Some winner.
Proof.
  rewrite select_winner_fold. intros [H | (c & Hin & Hex & <- & <-)]%select_fold_origin;
    [done|]. by apply candidate_origin.
Qed.

Lemma unknown_not_found (local remote : MagnetDatabase) (h : string) :
  ¬ known local remote h →
  select_winner (candidates_of local remote h) = (zero_entry, false, false).
Proof.
  intros Hk. rewrite select_winner_fold. apply select_fold_none.
  unfold known in Hk. unfold candidates_of, comma_ok.
  destruct (go_get (Added local) h) eqn:E1; [exfalso; apply Hk; eauto|].
  destruct (go_get (Retry local) h) eqn:E2; [exfalso; apply Hk; eauto|].
  destruct (go_get (Added remote) h) eqn:E3; [exfalso; apply Hk; eauto 6|].
  destruct (go_get (Retry remote) h) eqn:E4; [exfalso; apply Hk; eauto 6|].
  by repeat constructor.
Qed.

Section hash_by_hash.
Context (local remote : MagnetDatabase).

Lemma merge_step_other (st : merge_state) (h h' : string) :
  h ≠ h' →
  (merge_step local remote st h').1.1 !! h = st.1.1 !! h
  ∧ (merge_step local remote st h').1.2 !! h = st.1.2 !! h.
Proof.
  intros Hne. destruct st as [[added retry] nextID]. unfold merge_step.
  destruct (select_winner _) as [[winner inAdded] found]. destruct found; [|done].
  destruct (ID winner =? 0); [|destruct (nextID <=? ID winner)];
    destruct inAdded; simpl; by rewrite ?lookup_insert_ne.
Qed.

Lemma merge_step_settles (st : merge_state) (h : string) :
  st.1.1 !! h = None → st.1.2 !! h = None →
  settled local remote (merge_step local remote st h) h.
Proof.
  destruct st as [[added retry] nextID]. simpl. intros Ha Hr.
  unfold settled, merge_step.
  destruct (select_winner _) as [[winner inAdded] found]. destruct found; [|done].
  destruct (ID winner =? 0) eqn:E0.
  - apply Z.eqb_eq in E0. exists (with_ID winner nextID). split; [by right|].
    destruct inAdded; simpl; by rewrite lookup_insert_eq.
  - exists winner. split; [by left|].
    destruct (nextID <=? ID winner); destruct inAdded; simpl; by rewrite lookup_insert_eq.
Qed.

Lemma settled_ext (st st' : merge_state) (h : string) :
  st'.1.1 !! h = st.1.1 !! h → st'.1.2 !! h = st.1.2 !! h →
  settled local remote st h → settled local remote st' h.
Proof. unfold settled. by intros -> ->. Qed.

Lemma merge_fold_settled (l : list string) (st : merge_state) :
  NoDup l →
  (∀ h, h ∈ l → st.1.1 !! h = None ∧ st.1.2 !! h = None) →
  let st' := fold_left (merge_step local remote) l st in
  (∀ h, h ∈ l → settled local remote st' h)
  ∧ (∀ h, h ∉ l → st'.1.1 !! h = st.1.1 !! h ∧ st'.1.2 !! h = st.1.2 !! h).
Proof.
  intros Hnd. revert st. induction Hnd as [|h' l Hnin Hnd IH]; intros st Hun; simpl.
  - split; [by intros h ?%elem_of_nil | done].
  - destruct (IH (merge_step local remote st h')) as [Hset Hrest].
    { intros h Hh. assert (h ≠ h') by (by intros ->).
      destruct (merge_step_other st h h') as [-> ->]; [done|].
      apply Hun. by apply list_elem_of_further. }
    split.
    + intros h [-> | Hh]%elem_of_cons; [|by apply Hset].
      destruct (Hrest h' Hnin) as [E1 E2].
      apply (settled_ext (merge_step local remote st h')); [done|done|].
      destruct (Hun h') as [? ?]; [apply list_elem_of_here|]. by apply merge_step_settles.
    + intros h Hh. apply not_elem_of_cons in Hh as [Hne Hh].
      destruct (Hrest h Hh) as [-> ->]. by apply merge_step_other.
Qed.

Lemma merge_settled (w : World) (h : string) :
  settled local remote
    (fold_left (merge_step local remote)
       (shuffle (order w) _ (elements (allHashes local remote))) (∅, ∅, 1)) h.
Proof.
  set (l := shuffle (order w) _ (elements (allHashes local remote))).
  assert (NoDup l) as Hnd.
  { unfold l. rewrite (shuffle_perm (order w)). apply NoDup_elements. }
  destruct (merge_fold_settled l (∅, ∅, 1) Hnd) as [Hset Hrest]; [done|].
  destruct (decide (h ∈ l)) as [Hin | Hnin]; [by apply Hset|].
  destruct (Hrest h Hnin) as [E1 E2]. simpl in E1, E2.
  unfold settled. rewrite unknown_not_found; [by rewrite E1, E2|].
  intros Hk. apply Hnin. unfold l. rewrite (shuffle_perm (order w)).
  apply elem_of_elements. by apply known_allHashes.
Qed.

End hash_by_hash.

Lemma MergeDatabases_settled (w : World) (local remote : MagnetDatabase) (h : string) :
  let '(winner, inAdded, found) := select_winner (candidates_of local remote h) in
  if found then
    ∃ e, assigned winner e
         ∧ (if inAdded
            then go_get (Added (MergeDatabases w local remote)) h = Some e
                 ∧ go_get (Retry (MergeDatabases w local remote)) h = None
            else go_get (Added (MergeDatabases w local remote)) h = None
                 ∧ go_get (Retry (MergeDatabases w local remote)) h = Some e)
  else go_get (Added (MergeDatabases w local remote)) h = None
       ∧ go_get (Retry (MergeDatabases w local remote)) h = None.
Proof.
  destruct (MergeDatabases_maps w local remote) as (st & Hst & -> & -> & _).
  pose proof (merge_settled local remote w h) as H. rewrite <- Hst in H.
  unfold settled in H. unfold go_get. simpl. exact H.
Qed.

(** X1. No hash is in both sections of a merged database. *)
Theorem merge_sections_disjoint (w : World) (local remote : MagnetDatabase) (h : string) :
  go_get (Added (MergeDatabases w local remote)) h = None
  ∨ go_get (Retry (MergeDatabases w local remote)) h = None.
Proof.
  pose proof (MergeDatabases_settled w local remote h) as H.
  destruct (select_winner _) as [[winner inAdded] found].
  destruct found; [|by left; destruct H].
  destruct H as (e & _ & H). destruct inAdded; destruct H; [by right | by left].
Qed.

(** X2. Every entry of a merged database is the entry of the same hash in
    the same section of one of the inputs; only an identifier that was 0
    is replaced. *)
Theorem merge_entry_origin (w : World) (local remote : MagnetDatabase) (h : string)
    (e : MagnetEntry) :
  (go_get (Added (MergeDatabases w local remote)) h = Some e →
   ∃ e0, (go_get (Added local) h = Some e0 ∨ go_get (Added remote) h = Some e0)
         ∧ (e = e0 ∨ (ID e0 = 0 ∧ e = with_ID e0 (ID e))))
  ∧ (go_get (Retry (MergeDatabases w local remote)) h = Some e →
     ∃ e0, (go_get (Retry local) h = Some e0 ∨ go_get (Retry remote) h = Some e0)
           ∧ (e = e0 ∨ (ID e0 = 0 ∧ e = with_ID e0 (ID e)))).
Proof.
  pose proof (MergeDatabases_settled w local remote h) as H.
  pose proof (winner_origin local remote h) as Ho.
  destruct (select_winner _) as [[winner inAdded] found].
  destruct found; [|destruct H as [-> ->]; by split].
  destruct H as (e' & Has & H). specialize (Ho winner inAdded eq_refl).
  destruct inAdded; destruct H as [-> ->]; split; try done;
    intros [= ->]; by exists winner.
Qed.

(** ** The counter of the merge *)

Lemma wrap64_small (x : Z) : MinInt64 ≤ x ≤ MaxInt64 → wrap64 x = x.
Proof.
  unfold wrap64, MinInt64, MaxInt64. intros H.
  rewrite Z.mod_small by lia. lia.
Qed.

Section counter.
Context (local remote : MagnetDatabase) (B : Z).
Hypothesis HB : 0 ≤ B.
Hypothesis Hla : ids_at_most B (Added local).
Hypothesis Hlr : ids_at_most B (Retry local).
Hypothesis Hra : ids_at_most B (Added remote).
Hypothesis Hrr : ids_at_most B (Retry remote).

Lemma winner_at_most (h : string) winner inAdded :
  select_winner (candidates_of local remote h) = (winner, inAdded, true) → ID winner ≤ B.
Proof.
  intros H%winner_origin. unfold go_get in H.
  destruct inAdded; destruct H as [H | H].
  - by apply Hla in H.
  - by apply Hra in H.
  - by apply Hlr in H.
  - by apply Hrr in H.
Qed.

Lemma merge_step_counter (k : Z) (st : merge_state) (h : string) :
  0 ≤ k → B + k + 2 ≤ MaxInt64 →
  counter_ok B k st → counter_ok B (k + 1) (merge_step local remote st h).
Proof.
  intros Hk Hmax. destruct st as [[added retry] nextID]. unfold counter_ok. simpl.
  intros [Hn Hids]. unfold merge_step.
  pose proof (winner_at_most h) as Hw.
  destruct (select_winner _) as [[winner inAdded] found].
  destruct found; [|simpl; split; [lia|done]].
  specialize (Hw winner inAdded eq_refl).
  assert (∀ (m : gmap string MagnetEntry) x n' h0 e,
            (∀ h e, m !! h = Some e → ID e < nextID) → nextID ≤ n' → ID x < n' →
            <[h := x]> m !! h0 = Some e → ID e < n') as Hins.
  { intros m x n' h0 e Hm Hle Hx. destruct (decide (h = h0)) as [->|].
    - rewrite lookup_insert_eq. by intros [= <-].
    - rewrite lookup_insert_ne by done. intros Hl%Hm. lia. }
  assert (∀ (m : gmap string MagnetEntry) n' h0 e,
            (∀ h e, m !! h = Some e → ID e < nextID) → nextID ≤ n' →
            m !! h0 = Some e → ID e < n') as Hold.
  { intros m n' h0 e Hm Hle Hl%Hm. lia. }
  assert (∀ h e, added !! h = Some e → ID e < nextID) as Ha by eauto.
  assert (∀ h e, retry !! h = Some e → ID e < nextID) as Hr by eauto.
  unfold MinInt64, MaxInt64 in *.
  destruct (ID winner =? 0) eqn:E0.
  - rewrite wrap64_small by (unfold MinInt64, MaxInt64; lia).
    destruct inAdded; simpl; (split; [lia|]); intros h0 e [H | H];
      first [ eapply Hins; [..|exact H]; simpl; (done || lia)
            | eapply Hold; [..|exact H]; (done || lia) ].
  - destruct (nextID <=? ID winner) eqn:E1.
    + apply Z.leb_le in E1. rewrite wrap64_small by (unfold MinInt64, MaxInt64; lia).
      destruct inAdded; simpl; (split; [lia|]); intros h0 e [H | H];
        first [ eapply Hins; [..|exact H]; simpl; (done || lia)
              | eapply Hold; [..|exact H]; (done || lia) ].
    + apply Z.leb_gt in E1.
      destruct inAdded; simpl; (split; [lia|]); intros h0 e [H | H];
        first [ eapply Hins; [..|exact H]; simpl; (done || lia)
              | eapply Hold; [..|exact H]; (done || lia) ].
Qed.

Lemma merge_fold_counter (l : list string) (k : Z) (st : merge_state) :
  0 ≤ k → B + k + Z.of_nat (length l) < MaxInt64 →
  counter_ok B k st →
  counter_ok B (k + Z.of_nat (length l)) (fold_left (merge_step local remote) l st).
Proof.
  revert k st. induction l as [|h l IH]; intros k st Hk Hmax Hok; simpl.
  - by rewrite Z.add_0_r.
  - simpl length in Hmax. rewrite Nat2Z.inj_succ.
    replace (k + Z.succ (Z.of_nat (length l))) with (k + 1 + Z.of_nat (length l)) by lia.
    apply IH; [lia | lia |]. apply merge_step_counter; [lia | lia | done].
Qed.

End counter.

(** X3. When the identifiers of the inputs leave room for one new
    identifier per hash, the counter of a merged database is at least the
    identifier of each of its entries. *)
Theorem merge_sequence_covers_ids (w : World) (local remote : MagnetDatabase) (B : Z)
    (h : string) (e : MagnetEntry) :
  0 ≤ B → B + Z.of_nat (size (allHashes local remote)) < MaxInt64 →
  ids_at_most B (Added local) → ids_at_most B (Retry local) →
  ids_at_most B (Added remote) → ids_at_most B (Retry remote) →
  go_get (Added (MergeDatabases w local remote)) h = Some e
  ∨ go_get (Retry (MergeDatabases w local remote)) h = Some e →
  ID e ≤ LastSequence (Metadata (MergeDatabases w local remote)).
Proof.
  intros HB Hmax Hla Hlr Hra Hrr.
  destruct (MergeDatabases_maps w local remote) as (st & Hst & -> & -> & ->).
  set (l := shuffle (order w) _ (elements (allHashes local remote))) in *.
  assert (length l = size (allHashes local remote)) as Hlen.
  { unfold l. by rewrite (shuffle_perm (order w)). }
  destruct (merge_fold_counter local remote B HB Hla Hlr Hra Hrr l 0 (∅, ∅, 1))
    as [Hn Hids].
  - done.
  - rewrite Hlen. lia.
  - split; [simpl; lia|]. intros h0 e0 [H | H]; simpl in H; by rewrite lookup_empty in H.
  - rewrite <- Hst in Hn, Hids. rewrite Hlen in Hn. unfold go_get. simpl.
    intros He%Hids. rewrite wrap64_small; [lia|]. unfold MinInt64, MaxInt64 in *. lia.
Qed.

(** ** Merging what is already there *)

Lemma select_winner_four (a b c d : candidate) :
  select_winner [a; b; c; d]
  = select_step (select_step (select_step (select_step (zero_entry, false, false) a) b) c) d.
Proof. reflexivity. Qed.

Lemma select_winner_lookups (local remote : MagnetDatabase) (h : string) la lr ra rr r :
  entries (Added local) !! h = la → entries (Retry local) !! h = lr →
  entries (Added remote) !! h = ra → entries (Retry remote) !! h = rr →
  select_step (select_step (select_step (select_step (zero_entry, false, false)
    (Candidate (default zero_entry la) true (from_option (λ _, true) false la)))
    (Candidate (default zero_entry lr) false (from_option (λ _, true) false lr)))
    (Candidate (default zero_entry ra) true (from_option (λ _, true) false ra)))
    (Candidate (default zero_entry rr) false (from_option (λ _, true) false rr)) = r →
  select_winner (candidates_of local remote h) = r.
Proof.
  intros <- <- <- <- <-. unfold candidates_of, comma_ok, go_get.
  by destruct (entries (Added local) !! h), (entries (Retry local) !! h),
    (entries (Added remote) !! h), (entries (Retry remote) !! h).
Qed.

(** X4. Merging a database with one that holds nothing new, in particular
    with itself or with the empty database, returns its two sections
    unchanged, provided its sections are disjoint and its identifiers are
    assigned. *)
Theorem merge_absorbs (w : World) (local remote : MagnetDatabase) :
  entries (Added local) ##ₘ entries (Retry local) →
  ids_assigned (Added local) → ids_assigned (Retry local) →
  entries (Added remote) ⊆ entries (Added local) →
  entries (Retry remote) ⊆ entries (Retry local) →
  entries (Added (MergeDatabases w local remote)) = entries (Added local)
  ∧ entries (Retry (MergeDatabases w local remote)) = entries (Retry local).
Proof.
  intros Hdisj Hia Hir Hsa Hsr.
  assert (∀ h,
    entries (Added (MergeDatabases w local remote)) !! h = entries (Added local) !! h
    ∧ entries (Retry (MergeDatabases w local remote)) !! h = entries (Retry local) !! h)
    as Hall; [|split; apply map_eq; intros h; by destruct (Hall h)].
  intros h. pose proof (MergeDatabases_settled w local remote h) as H.
  unfold go_get in H.
  destruct (entries (Added local) !! h) as [e|] eqn:Ela.
  - assert (entries (Retry local) !! h = None) as Elr.
    { destruct (entries (Retry local) !! h) as [e'|] eqn:E; [|done].
      by destruct (proj1 (map_disjoint_spec _ _) Hdisj h e e'). }
    assert (entries (Retry remote) !! h = None) as Err.
    { destruct (entries (Retry remote) !! h) eqn:E; [|done].
      pose proof (lookup_weaken _ _ _ _ E Hsr). congruence. }
    assert (ID e ≠ 0) as Hid by (by apply Hia in Ela).
    assert (select_winner (candidates_of local remote h) = (e, true, true)) as Hw.
    { destruct (entries (Added remote) !! h) as [e'|] eqn:Era.
      - pose proof (lookup_weaken _ _ _ _ Era Hsa). assert (e' = e) as -> by congruence.
        eapply select_winner_lookups; [exact Ela | exact Elr | exact Era | exact Err |]. unfold select_step. simpl. by rewrite Z.ltb_irrefl.
      - eapply select_winner_lookups; [exact Ela | exact Elr | exact Era | exact Err |]. done. }
    rewrite Hw in H. destruct H as (e1 & [-> | [? _]] & -> & ->); done.
  - assert (entries (Added remote) !! h = None) as Era.
    { destruct (entries (Added remote) !! h) eqn:E; [|done].
      pose proof (lookup_weaken _ _ _ _ E Hsa). congruence. }
    destruct (entries (Retry local) !! h) as [e|] eqn:Elr.
    + assert (ID e ≠ 0) as Hid by (by apply Hir in Elr).
      assert (select_winner (candidates_of local remote h) = (e, false, true)) as Hw.
      { destruct (entries (Retry remote) !! h) as [e'|] eqn:Err.
        - pose proof (lookup_weaken _ _ _ _ Err Hsr). assert (e' = e) as -> by congruence.
          eapply select_winner_lookups; [exact Ela | exact Elr | exact Era | exact Err |]. unfold select_step. simpl. by rewrite Z.ltb_irrefl.
        - eapply select_winner_lookups; [exact Ela | exact Elr | exact Era | exact Err |]. done. }
      rewrite Hw in H. destruct H as (e1 & [-> | [? _]] & -> & ->); done.
    + assert (entries (Retry remote) !! h = None) as Err.
      { destruct (entries (Retry remote) !! h) eqn:E; [|done].
        pose proof (lookup_weaken _ _ _ _ E Hsr). congruence. }
      assert (select_winner (candidates_of local remote h) = (zero_entry, false, false))
        as Hw by (eapply select_winner_lookups; [exact Ela | exact Elr | exact Era | exact Err | done]).
      rewrite Hw in H. by destruct H as [-> ->].
Qed.

(** ** The overlay of an update *)

Lemma assign_id_assigned (u : MagnetEntry) (n : Z) : assigned u (assign_id u n).1.
Proof.
  unfold assign_id. destruct (ID u =? 0) eqn:E; [|by left].
  apply Z.eqb_eq in E. by right.
Qed.

Lemma go_delete_nil (m : gomap MagnetEntry) (h : string) : go_delete m h = GoNil ↔ m = GoNil.
Proof. by destruct m. Qed.

(** The loop over [updates.Added] when [merged.Added] is not nil. *)
Lemma apply_added_spec (l : list (string * MagnetEntry)) (a : gmap string MagnetEntry)
    (retry : gomap MagnetEntry) (n : Z) :
  NoDup l.*1 →
  ∃ a' r' n',
    apply_added l (GoMap a) retry n = Some (GoMap a', r', n')
    ∧ (r' = GoNil ↔ retry = GoNil)
    ∧ (∀ h, h ∈ l.*1 → entries r' !! h = None)
    ∧ (∀ h, h ∉ l.*1 → entries r' !! h = entries retry !! h ∧ a' !! h = a !! h)
    ∧ (∀ h u, (h, u) ∈ l → ∃ e, a' !! h = Some e ∧ assigned u e).
Proof.
  revert a retry n. induction l as [|[h0 u0] l IH]; intros a retry n Hnd.
  - exists a, retry, n. split; [done|]. split; [done|]. split; [by intros h ?%elem_of_nil|].
    split; [done|]. by intros h u ?%elem_of_nil.
  - apply NoDup_cons in Hnd as [Hnin Hnd]. simpl.
    pose proof (assign_id_assigned u0 n) as Has.
    destruct (assign_id u0 n) as [e0 n1]. simpl in Has. simpl.
    destruct (IH (<[h0 := e0]> a) (go_delete retry h0) n1 Hnd)
      as (a' & r' & n' & -> & Hnil & Hin & Hout & Hup).
    exists a', r', n'. split; [done|]. split; [by rewrite Hnil, go_delete_nil|].
    split; [|split].
    + intros h [-> | Hh]%elem_of_cons; [|by apply Hin].
      destruct (Hout h0 Hnin) as [-> _]. destruct retry; simpl; [done|].
      by rewrite lookup_delete_eq.
    + intros h [Hne Hh]%not_elem_of_cons. destruct (Hout h Hh) as [-> ->].
      rewrite lookup_insert_ne by done. split; [|done].
      destruct retry; simpl; [done|]. by rewrite lookup_delete_ne.
    + intros h u [[= -> ->] | Hh]%elem_of_cons; [|by apply Hup].
      exists e0. split; [|done]. destruct (Hout h0 Hnin) as [_ ->].
      by rewrite lookup_insert_eq.
Qed.

(** The loop over [updates.Retry] when the retry map is not nil. *)
Lemma apply_retry_spec (l : list (string * MagnetEntry)) (r : gmap string MagnetEntry)
    (n : Z) :
  NoDup l.*1 →
  ∃ r' n',
    apply_retry l (GoMap r) n = Some (GoMap r', n')
    ∧ (∀ h, h ∉ l.*1 → r' !! h = r !! h)
    ∧ (∀ h u, (h, u) ∈ l → ∃ e, r' !! h = Some e ∧ assigned u e).
Proof.
  revert r n. induction l as [|[h0 u0] l IH]; intros r n Hnd.
  - exists r, n. split; [done|]. split; [done|]. by intros h u ?%elem_of_nil.
  - apply NoDup_cons in Hnd as [Hnin Hnd]. simpl.
    pose proof (assign_id_assigned u0 n) as Has.
    destruct (assign_id u0 n) as [e0 n1]. simpl in Has. simpl.
    destruct (IH (<[h0 := e0]> r) n1 Hnd) as (r' & n' & -> & Hout & Hup).
    exists r', n'. split; [done|]. split.
    + intros h [Hne Hh]%not_elem_of_cons. rewrite (Hout h Hh).
      by rewrite lookup_insert_ne.
    + intros h u [[= -> ->] | Hh]%elem_of_cons; [|by apply Hup].
      exists e0. split; [|done]. rewrite (Hout h0 Hnin). by rewrite lookup_insert_eq.
Qed.

Lemma apply_added_nil l retry nextID :
  apply_added l GoNil retry nextID = None ↔ l ≠ [].
Proof.
  destruct l as [|[h u] l]; simpl; [done|]. by destruct (assign_id u nextID).
Qed.

Lemma apply_retry_nil l nextID : apply_retry l GoNil nextID = None ↔ l ≠ [].
Proof.
  destruct l as [|[h u] l]; simpl; [done|]. by destruct (assign_id u nextID).
Qed.

Lemma go_range_NoDup {V} (o : range_oracle) (m : gomap V) : NoDup (go_range o m).*1.
Proof.
  unfold go_range. rewrite (shuffle_perm o). apply NoDup_fst_map_to_list.
Qed.

Lemma go_range_elem {V} (o : range_oracle) (m : gomap V) (h : string) (v : V) :
  (h, v) ∈ go_range o m ↔ go_get m h = Some v.
Proof.
  unfold go_range, go_get. rewrite (shuffle_perm o). apply elem_of_map_to_list.
Qed.

Lemma go_range_key {V} (o : range_oracle) (m : gomap V) (h : string) :
  h ∈ (go_range o m).*1 ↔ is_Some (go_get m h).
Proof.
  rewrite list_elem_of_fmap. split.
  - intros ([h' v] & -> & Hin). apply go_range_elem in Hin. by exists v.
  - intros [v Hv]. exists (h, v). split; [done|]. by apply go_range_elem.
Qed.

Lemma go_range_nil {V} (o : range_oracle) (m : gomap V) :
  go_range o m = [] ↔ entries m = ∅.
Proof.
  unfold go_range. split.
  - intros H. apply map_to_list_empty_iff. apply Permutation_nil_r.
    rewrite <- H. by rewrite (shuffle_perm o).
  - intros ->. apply Permutation_nil_r. rewrite (shuffle_perm o).
    by rewrite map_to_list_empty.
Qed.

(** What the overlay stores, for a result that exists. *)
Lemma applyUpdates_lookups (o : range_oracle) (merged updates db : MagnetDatabase) :
  applyUpdates o merged updates = Some db →
  (∀ h u, go_get (Added updates) h = Some u →
          ∃ e, go_get (Added db) h = Some e ∧ assigned u e)
  ∧ (∀ h u, go_get (Retry updates) h = Some u →
            ∃ e, go_get (Retry db) h = Some e ∧ assigned u e)
  ∧ (∀ h, go_get (Added updates) h = None →
          go_get (Added db) h = go_get (Added merged) h)
  ∧ (∀ h, go_get (Retry updates) h = None →
          go_get (Retry db) h
          = match go_get (Added updates) h with
            | Some _ => None
            | None => go_get (Retry merged) h
            end).
Proof.
  unfold applyUpdates. intros H.
  set (n := wrap64 (LastSequence (Metadata merged) + 1)) in *.
  destruct (Added merged) as [|a] eqn:Ea.
  { (* a nil map: the update has no "added" entries *)
    destruct (go_range o (Added updates)) as [|[h0 u0] l] eqn:El.
    2:{ simpl in H. by destruct (assign_id u0 n). }
    simpl in H. apply go_range_nil in El.
    assert (∀ h, go_get (Added updates) h = None) as Hnone.
    { intros h. unfold go_get. by rewrite El, lookup_empty. }
    destruct (Retry merged) as [|r] eqn:Er.
    - destruct (go_range o (Retry updates)) as [|[h1 u1] l1] eqn:El1.
      2:{ simpl in H. by destruct (assign_id u1 n). }
      simpl in H. injection H as <-. simpl. apply go_range_nil in El1.
      assert (∀ h, go_get (Retry updates) h = None) as Hnone'.
      { intros h. unfold go_get. by rewrite El1, lookup_empty. }
      repeat split; intros h; intros; rewrite ?Hnone, ?Hnone' in *; done.
    - destruct (apply_retry_spec (go_range o (Retry updates)) r n (go_range_NoDup _ _))
        as (r' & n' & E & Hout & Hup).
      rewrite E in H. simpl in H. injection H as <-. simpl.
      split; [intros h u Hu; by rewrite Hnone in Hu|]. split; [|split; [done|]].
      + intros h u Hu%(go_range_elem o). by apply Hup.
      + intros h Hh. rewrite Hnone. unfold go_get. simpl. apply Hout.
        rewrite go_range_key, Hh. by intros [? ?]. }
  destruct (apply_added_spec (go_range o (Added updates)) a (Retry merged) n
              (go_range_NoDup _ _)) as (a' & r1 & n1 & E & Hnil & Hin & Hout & Hup).
  rewrite E in H. simpl in H.
  destruct r1 as [|r1].
  { destruct (go_range o (Retry updates)) as [|[h1 u1] l1] eqn:El1.
    2:{ simpl in H. by destruct (assign_id u1 n1). }
    simpl in H. injection H as <-. simpl. apply go_range_nil in El1.
    assert (∀ h, go_get (Retry updates) h = None) as Hnone'.
    { intros h. unfold go_get. by rewrite El1, lookup_empty. }
    assert (Retry merged = GoNil) as Er by (by apply Hnil).
    split; [|split; [|split]].
    - intros h u Hu%(go_range_elem o). by apply Hup.
    - intros h u Hu. by rewrite Hnone' in Hu.
    - intros h Hh. unfold go_get. simpl. apply Hout. rewrite go_range_key, Hh.
      by intros [? ?].
    - intros h _. rewrite Er. unfold go_get. simpl. rewrite lookup_empty.
      by destruct (entries (Added updates) !! h). }
  destruct (apply_retry_spec (go_range o (Retry updates)) r1 n1 (go_range_NoDup _ _))
    as (r' & n' & E' & Hout' & Hup').
  rewrite E' in H. simpl in H. injection H as <-. simpl.
  split; [|split; [|split]].
  - intros h u Hu%(go_range_elem o). by apply Hup.
  - intros h u Hu%(go_range_elem o). by apply Hup'.
  - intros h Hh. unfold go_get. simpl. apply Hout. rewrite go_range_key, Hh.
    by intros [? ?].
  - intros h Hh. unfold go_get at 1. simpl. rewrite Hout'.
    2:{ rewrite go_range_key, Hh. by intros [? ?]. }
    destruct (go_get (Added updates) h) as [u|] eqn:Eu.
    + apply (Hin h). apply go_range_key. by rewrite Eu.
    + simpl in Hin, Hout. apply Hout. rewrite go_range_key, Eu. by intros [? ?].
Qed.

(** X5. The overlay stores every entry of the update under its hash in
    the section the update names; only an identifier that was 0 is
    replaced. *)
Theorem overlay_applies_updates (o : range_oracle) (merged updates db : MagnetDatabase)
    (h : string) (u : MagnetEntry) :
  applyUpdates o merged updates = Some db →
  (go_get (Added updates) h = Some u →
   ∃ e, go_get (Added db) h = Some e ∧ (e = u ∨ (ID u = 0 ∧ e = with_ID u (ID e))))
  ∧ (go_get (Retry updates) h = Some u →
     ∃ e, go_get (Retry db) h = Some e ∧ (e = u ∨ (ID u = 0 ∧ e = with_ID u (ID e)))).
Proof.
  intros (Ha & Hr & _)%applyUpdates_lookups. split; [apply Ha | apply Hr].
Qed.

(** X6. The overlay leaves the entries of a hash the update does not
    mention as they are, in both sections. *)
Theorem overlay_keeps_other_entries (o : range_oracle) (merged updates db : MagnetDatabase)
    (h : string) :
  applyUpdates o merged updates = Some db →
  go_get (Added updates) h = None → go_get (Retry updates) h = None →
  go_get (Added db) h = go_get (Added merged) h
  ∧ go_get (Retry db) h = go_get (Retry merged) h.
Proof.
  intros (_ & _ & Ha & Hr)%applyUpdates_lookups Hua Hur. split; [by apply Ha|].
  rewrite (Hr h Hur). by rewrite Hua.
Qed.

(** X7. A hash the update puts in "added" and not in "retry" is not in
    "retry" afterwards, whatever the reconciled database held. *)
Theorem overlay_added_leaves_retry (o : range_oracle) (merged updates db : MagnetDatabase)
    (h : string) :
  applyUpdates o merged updates = Some db →
  is_Some (go_get (Added updates) h) → go_get (Retry updates) h = None →
  is_Some (go_get (Added db) h) ∧ go_get (Retry db) h = None.
Proof.
  intros (Ha & _ & _ & Hr)%applyUpdates_lookups [u Hu] Hur. split.
  - destruct (Ha h u Hu) as (e & -> & _). by exists e.
  - rewrite (Hr h Hur). by rewrite Hu.
Qed.

(** X8. The overlay fails, with the panic of a store into a nil map,
    exactly when the update has an entry for a section whose map is nil in
    the reconciled database. *)
Theorem overlay_nil_map (o : range_oracle) (merged updates : MagnetDatabase) :
  applyUpdates o merged updates = None
  ↔ (Added merged = GoNil ∧ entries (Added updates) ≠ ∅)
    ∨ (Retry merged = GoNil ∧ entries (Retry updates) ≠ ∅).
Proof.
  unfold applyUpdates. set (n := wrap64 (LastSequence (Metadata merged) + 1)).
  rewrite <- !(go_range_nil o).
  destruct (Added merged) as [|a] eqn:Ea.
  - destruct (go_range o (Added updates)) as [|[h0 u0] l] eqn:El.
    + simpl. destruct (Retry merged) as [|r] eqn:Er.
      * destruct (go_range o (Retry updates)) as [|[h1 u1] l1] eqn:El1; simpl.
        -- split; [done|]. by intros [[_ ?] | [_ ?]].
        -- destruct (assign_id u1 n). simpl. split; [|done]. intros _. by right.
      * destruct (apply_retry_spec (go_range o (Retry updates)) r n (go_range_NoDup _ _))
          as (r' & n' & -> & _). simpl. split; [done|]. by intros [[_ ?] | [? _]].
    + simpl. destruct (assign_id u0 n). simpl. split; [|done]. intros _. by left.
  - destruct (apply_added_spec (go_range o (Added updates)) a (Retry merged) n
                (go_range_NoDup _ _)) as (a' & r1 & n1 & -> & Hnil & _).
    simpl. destruct r1 as [|r1].
    + assert (Retry merged = GoNil) as -> by (by apply Hnil).
      destruct (go_range o (Retry updates)) as [|[h1 u1] l1] eqn:El1; simpl.
      * split; [done|]. by intros [[? _] | [_ ?]].
      * destruct (assign_id u1 n1). simpl. split; [|done]. intros _. by right.
    + destruct (apply_retry_spec (go_range o (Retry updates)) r1 n1 (go_range_NoDup _ _))
        as (r' & n' & -> & _). simpl. split; [done|].
      intros [[? _] | [Hr _]]; [done|]. apply Hnil in Hr. done.
Qed.

(** ** The identifiers the overlay assigns *)

Lemma zeros_nonneg l : 0 ≤ zeros l.
Proof. unfold zeros. lia. Qed.

Lemma zeros_cons h u l : zeros ((h, u) :: l) = (if ID u =? 0 then 1 else 0) + zeros l.
Proof.
  unfold zeros. destruct (Z.eqb_spec (ID u) 0) as [E | E].
  - rewrite filter_cons_True by done. simpl length. lia.
  - rewrite filter_cons_False by done. lia.
Qed.

Lemma zeros_go_range (o : range_oracle) (m : gomap MagnetEntry) :
  zeros (go_range o m) = unassigned m.
Proof. unfold zeros, unassigned, go_range. by rewrite (shuffle_perm o). Qed.

Lemma assign_id_counter (u : MagnetEntry) (n : Z) :
  MinInt64 ≤ n → n + (if ID u =? 0 then 1 else 0) ≤ MaxInt64 →
  (assign_id u n).2 = n + (if ID u =? 0 then 1 else 0)
  ∧ (ID u = 0 → ID (assign_id u n).1 = n).
Proof.
  intros Hlo Hhi. unfold assign_id. destruct (ID u =? 0) eqn:E; simpl.
  - rewrite wrap64_small by lia. done.
  - apply Z.eqb_neq in E. split; [lia|done].
Qed.

Lemma apply_added_counter (l : list (string * MagnetEntry)) (a : gmap string MagnetEntry)
    (retry : gomap MagnetEntry) (n : Z) :
  NoDup l.*1 → MinInt64 ≤ n → n + zeros l ≤ MaxInt64 →
  ∃ a' r',
    apply_added l (GoMap a) retry n = Some (GoMap a', r', n + zeros l)
    ∧ (∀ h, h ∉ l.*1 → a' !! h = a !! h)
    ∧ (∀ h u, (h, u) ∈ l → ID u = 0 → ∃ e, a' !! h = Some e ∧ n ≤ ID e < n + zeros l).
Proof.
  revert a retry n. induction l as [|[h0 u0] l IH]; intros a retry n Hnd Hlo Hhi.
  - exists a, retry. unfold zeros. simpl. rewrite Z.add_0_r. split; [done|].
    split; [done|]. by intros h u ?%elem_of_nil.
  - apply NoDup_cons in Hnd as [Hnin Hnd]. rewrite zeros_cons in *.
    pose proof (zeros_nonneg l) as Hz.
    destruct (assign_id_counter u0 n Hlo) as [Hn Hid]; [destruct (ID u0 =? 0); lia|].
    simpl. destruct (assign_id u0 n) as [e0 n1]. simpl in Hn, Hid. subst n1. simpl.
    destruct (IH (<[h0 := e0]> a) (go_delete retry h0) (n + (if ID u0 =? 0 then 1 else 0)) Hnd)
      as (a' & r' & E & Hout & Hup); [destruct (ID u0 =? 0); lia | lia |].
    exists a', r'. rewrite E. split; [by rewrite Z.add_assoc|]. split.
    + intros h [Hne Hh]%not_elem_of_cons. rewrite (Hout h Hh). by rewrite lookup_insert_ne.
    + intros h u [[= -> ->] | Hh]%elem_of_cons H0.
      * exists e0. rewrite (Hout h0 Hnin), lookup_insert_eq. split; [done|].
        rewrite (Hid H0). rewrite H0. simpl. lia.
      * destruct (Hup h u Hh H0) as (e & He & Hr). exists e. split; [done|].
        destruct (ID u0 =? 0); lia.
Qed.

Lemma apply_retry_counter (l : list (string * MagnetEntry)) (r : gmap string MagnetEntry)
    (n : Z) :
  NoDup l.*1 → MinInt64 ≤ n → n + zeros l ≤ MaxInt64 →
  ∃ r',
    apply_retry l (GoMap r) n = Some (GoMap r', n + zeros l)
    ∧ (∀ h, h ∉ l.*1 → r' !! h = r !! h)
    ∧ (∀ h u, (h, u) ∈ l → ID u = 0 → ∃ e, r' !! h = Some e ∧ n ≤ ID e < n + zeros l).
Proof.
  revert r n. induction l as [|[h0 u0] l IH]; intros r n Hnd Hlo Hhi.
  - exists r. unfold zeros. simpl. rewrite Z.add_0_r. split; [done|].
    split; [done|]. by intros h u ?%elem_of_nil.
  - apply NoDup_cons in Hnd as [Hnin Hnd]. rewrite zeros_cons in *.
    pose proof (zeros_nonneg l) as Hz.
    destruct (assign_id_counter u0 n Hlo) as [Hn Hid]; [destruct (ID u0 =? 0); lia|].
    simpl. destruct (assign_id u0 n) as [e0 n1]. simpl in Hn, Hid. subst n1. simpl.
    destruct (IH (<[h0 := e0]> r) (n + (if ID u0 =? 0 then 1 else 0)) Hnd)
      as (r' & E & Hout & Hup); [destruct (ID u0 =? 0); lia | lia |].
    exists r'. rewrite E. split; [by rewrite Z.add_assoc|]. split.
    + intros h [Hne Hh]%not_elem_of_cons. rewrite (Hout h Hh). by rewrite lookup_insert_ne.
    + intros h u [[= -> ->] | Hh]%elem_of_cons H0.
      * exists e0. rewrite (Hout h0 Hnin), lookup_insert_eq. split; [done|].
        rewrite (Hid H0). rewrite H0. simpl. lia.
      * destruct (Hup h u Hh H0) as (e & He & Hr). exists e. split; [done|].
        destruct (ID u0 =? 0); lia.
Qed.

(** X9. When the overlay returns and the counter has room, the new
    last_sequence is the old one plus the number of update entries that
    came with the identifier 0, and each of those entries is stored with an
    identifier above the old last_sequence and at most the new one. *)
Theorem overlay_assigns_fresh_ids (o : range_oracle) (merged updates db : MagnetDatabase) :
  applyUpdates o merged updates = Some db →
  MinInt64 ≤ LastSequence (Metadata merged) →
  LastSequence (Metadata merged) + unassigned (Added updates) + unassigned (Retry updates)
    < MaxInt64 →
  LastSequence (Metadata db)
  = LastSequence (Metadata merged) + unassigned (Added updates) + unassigned (Retry updates)
  ∧ (∀ h u, go_get (Added updates) h = Some u → ID u = 0 →
            ∃ e, go_get (Added db) h = Some e
                 ∧ LastSequence (Metadata merged) < ID e ≤ LastSequence (Metadata db))
  ∧ (∀ h u, go_get (Retry updates) h = Some u → ID u = 0 →
            ∃ e, go_get (Retry db) h = Some e
                 ∧ LastSequence (Metadata merged) < ID e ≤ LastSequence (Metadata db)).
Proof.
  intros H Hlo Hhi. set (seq := LastSequence (Metadata merged)) in *.
  rewrite <- !(zeros_go_range o) in *.
  pose proof (zeros_nonneg (go_range o (Added updates))) as Hza.
  pose proof (zeros_nonneg (go_range o (Retry updates))) as Hzr.
  unfold applyUpdates in H. fold seq in H.
  unfold MinInt64, MaxInt64 in *.
  rewrite wrap64_small in H by (unfold MinInt64, MaxInt64; lia).
  set (la := go_range o (Added updates)) in *.
  set (lr := go_range o (Retry updates)) in *.
  assert (∃ a' r1, apply_added la (Added merged) (Retry merged) (seq + 1)
                   = Some (a', r1, seq + 1 + zeros la)
            ∧ (∀ h u, (h, u) ∈ la → ID u = 0 →
                 ∃ e, entries a' !! h = Some e ∧ seq + 1 ≤ ID e < seq + 1 + zeros la))
    as (a' & r1 & Ea & Hida).
  { destruct (Added merged) as [|a].
    - destruct la as [|[h0 u0] l]; [|simpl in H; by destruct (assign_id u0 (seq + 1))].
      exists GoNil, (Retry merged). unfold zeros. simpl. rewrite Z.add_0_r.
      split; [done|]. by intros h u ?%elem_of_nil.
    - destruct (apply_added_counter la a (Retry merged) (seq + 1) (go_range_NoDup _ _))
        as (a' & r1 & E & _ & Hup); [unfold MinInt64; lia | unfold MaxInt64; lia |].
      by exists (GoMap a'), r1. }
  rewrite Ea in H. simpl in H.
  assert (∃ r', apply_retry lr r1 (seq + 1 + zeros la)
                = Some (r', seq + 1 + zeros la + zeros lr)
            ∧ (∀ h u, (h, u) ∈ lr → ID u = 0 →
                 ∃ e, entries r' !! h = Some e
                      ∧ seq + 1 + zeros la ≤ ID e < seq + 1 + zeros la + zeros lr))
    as (r' & Er & Hidr).
  { destruct r1 as [|r1].
    - destruct lr as [|[h0 u0] l];
        [|simpl in H; by destruct (assign_id u0 (seq + 1 + zeros la))].
      exists GoNil. unfold zeros at 2 4. simpl. rewrite Z.add_0_r.
      split; [done|]. by intros h u ?%elem_of_nil.
    - destruct (apply_retry_counter lr r1 (seq + 1 + zeros la) (go_range_NoDup _ _))
        as (r' & E & _ & Hup); [unfold MinInt64; lia | unfold MaxInt64; lia |].
      by exists (GoMap r'). }
  rewrite Er in H. simpl in H. injection H as <-. simpl.
  rewrite wrap64_small by (unfold MinInt64, MaxInt64; lia).
  split; [lia|]. split.
  - intros h u Hu%(go_range_elem o) H0. destruct (Hida h u Hu H0) as (e & He & Hr).
    exists e. split; [done|]. lia.
  - intros h u Hu%(go_range_elem o) H0. destruct (Hidr h u Hu H0) as (e & He & Hr).
    exists e. split; [done|]. lia.
Qed.

(** ** The read loop of the loader *)

Lemma set_faults_twice (w : World) (l1 l2 : list (option fault)) :
  set_faults (set_faults w l1) l2 = set_faults w l2.
Proof. reflexivity. Qed.

Lemma set_faults_same (w : World) : set_faults w (faults w) = w.
Proof. by destruct w. Qed.

Lemma ReadFile_fault (path : string) (w : World) (f : fault) (rest : list (option fault)) :
  faults w = Some f :: rest →
  ReadFile path w = Some (("", Some (ErrIO (fault_msg f))), set_faults w rest).
Proof. intros H. unfold ReadFile. run_monad. unfold next_fault. by rewrite H. Qed.

Lemma ReadFile_data (path data : string) (w : World) (rest : list (option fault)) :
  files w !! path = Some data → faults w = None :: rest ∨ (faults w = [] ∧ rest = []) →
  ReadFile path w = Some ((data, None), set_faults w rest).
Proof.
  intros Hf H. unfold ReadFile. run_monad. unfold next_fault.
  destruct H as [H | [H ->]]; rewrite H; simpl; rewrite Hf; [done|].
  by rewrite <- H, set_faults_same.
Qed.

(** [k] failing reads in a row, with attempts to spare. *)
Lemma load_attempts_faults (path : string) (db : MagnetDatabase) (fs : list fault)
    (rest : list (option fault)) (todo : nat) (attempt : Z) (w : World) :
  faults w = (Some <$> fs) ++ rest →
  attempt + Z.of_nat (length fs) ≤ 4 →
  load_attempts (length fs + todo) attempt path db w
  = load_attempts todo (attempt + Z.of_nat (length fs)) path db (set_faults w rest).
Proof.
  revert attempt w. induction fs as [|f fs IH]; intros attempt w Hf Hle.
  - simpl in *. rewrite Z.add_0_r. by rewrite <- Hf, set_faults_same.
  - simpl in Hf. simpl length in *. simpl. run_monad.
    rewrite (ReadFile_fault path w f _ Hf).
    assert ((attempt <? 4) = true) as -> by lia.
    unfold Sleep. run_monad. rewrite (IH (attempt + 1) (set_faults w (_ ++ rest))).
    + rewrite set_faults_twice. f_equal. lia.
    + done.
    + lia.
Qed.

Lemma Stat_exists (path data : string) (w : World) :
  files w !! path = Some data → Stat_IsNotExist path w = Some (false, w).
Proof. intros H. unfold Stat_IsNotExist. by rewrite H, bool_decide_eq_false_2. Qed.

(** X10. The loader reads again after a failed read: when at most four
    reads in a row fail and the next one succeeds, the result is that of
    decoding the bytes of the file. *)
Theorem load_survives_failed_reads (path data : string) (fs : list fault)
    (rest : list (option fault)) (w : World) :
  files w !! path = Some data →
  faults w = (Some <$> fs) ++ None :: rest →
  (length fs ≤ 4)%nat →
  LoadJSONDatabase path w = parse_database data empty_database (set_faults w rest).
Proof.
  intros Hfile Hf Hlen. unfold LoadJSONDatabase. run_monad.
  rewrite (Stat_exists _ _ _ Hfile).
  replace 5%nat with (length fs + (5 - length fs))%nat by lia.
  rewrite (load_attempts_faults path empty_database fs (None :: rest) _ 0 w Hf) by lia.
  destruct (5 - length fs)%nat as [|m] eqn:E; [lia|].
  simpl. run_monad.
  rewrite (ReadFile_data path data (set_faults w (None :: rest)) rest); [done|done|by left].
Qed.

(** X11. After five failed reads the loader gives up: it returns the empty
    database together with the error of the last read. *)
Theorem load_gives_up_after_five_reads (path data : string) (fs : list fault) (f : fault)
    (rest : list (option fault)) (w : World) :
  files w !! path = Some data →
  faults w = (Some <$> fs) ++ Some f :: rest →
  length fs = 4%nat →
  LoadJSONDatabase path w
  = Some ((Some empty_database, Some (ErrIO (fault_msg f))), set_faults w rest).
Proof.
  intros Hfile Hf Hlen. unfold LoadJSONDatabase. run_monad.
  rewrite (Stat_exists _ _ _ Hfile).
  change 5%nat with (4 + 1)%nat. rewrite <- Hlen.
  rewrite (load_attempts_faults path empty_database fs (Some f :: rest) _ 0 w Hf) by lia.
  simpl. run_monad.
  rewrite (ReadFile_fault path (set_faults w (Some f :: rest)) f rest) by done.
  rewrite Hlen. simpl. done.
Qed.

Lemma parse_database_outcome (data : string) (db : MagnetDatabase) (w w' : World) r e :
  parse_database data db w = Some ((r, Some e), w') →
  r = None ∧ e = Errorf "unrecognized format".
Proof.
  intros He.
  assert (nil_database_error (parse_database data db w) ∨ r ≠ None) as [Hn | Hr].
  { destruct r; [by right|]. left. by exists e, w'. }
  - apply parse_database_format_error in Hn as (E1 & E0 & EV1).
    unfold parse_database, accepts_current, accepts_V0, accepts_V1 in *.
    destruct (Unmarshal data db) as [db1 err]. rewrite E1 in He.
    destruct (UnmarshalV0 data make) as [dbV0 errV0]. rewrite E0 in He.
    destruct (UnmarshalV1 data _) as [dbV1 errV1]. rewrite EV1 in He.
    run_monad. split; congruence.
  - exfalso. unfold parse_database in He.
    destruct (Unmarshal data db) as [db1 err].
    destruct (is_nil err && _); [run_monad; congruence|].
    destruct (UnmarshalV0 data make) as [dbV0 errV0].
    destruct (is_nil errV0 && _).
    { run_monad. destruct (range_V0 _ _ _ _) as [[[added nextID] w1]|]; congruence. }
    destruct (UnmarshalV1 data _) as [dbV1 errV1].
    destruct (is_nil errV1 && _).
    { run_monad. destruct (range_V1 _ _ _ _) as [[[added nextID] w1]|]; [|done].
      simpl in He. destruct (range_V1 _ _ _ _) as [[[retry nextID'] w2]|]; [|done].
      simpl in He. destruct (_ && _); [|congruence].
      apply Hr. congruence. }
    run_monad. apply Hr. congruence.
Qed.

Lemma load_attempts_outcome (path : string) (todo : nat) (attempt : Z) (w w' : World) r e :
  attempt + Z.of_nat todo = 5 → (1 ≤ todo)%nat →
  load_attempts todo attempt path empty_database w = Some ((r, Some e), w') →
  (r = None ∧ e = Errorf "unrecognized format")
  ∨ (r = Some empty_database ∧ ∃ msg, e = ErrIO msg ∨ e = ErrNotExist msg).
Proof.
  revert attempt w. induction todo as [|todo IH]; intros attempt w Hsum Hpos; [lia|].
  simpl. run_monad. unfold ReadFile. run_monad.
  destruct (next_fault w) as [[[ft|] w1]|]; [| |done]; simpl.
  - destruct (attempt <? 4) eqn:E.
    + unfold Sleep. run_monad. apply IH; lia.
    + intros [= <- <- _]. right. split; [done|]. eexists. by left.
  - destruct (files w1 !! path) as [data|]; simpl.
    + intros H%parse_database_outcome. by left.
    + destruct (attempt <? 4) eqn:E.
      * unfold Sleep. run_monad. apply IH; lia.
      * intros [= <- <- _]. right. split; [done|]. eexists. by right.
Qed.

(** X12. What a load can return: a missing file is the empty database
    without an error; an error is either the format error, with no
    database, or the error of a read, with the empty database.  The errors
    "failed to load JSON after retries" and "V1 parsing failed" are never
    returned. *)
Theorem load_outcomes (path : string) (w : World) :
  (files w !! path = None →
   LoadJSONDatabase path w = Some ((Some empty_database, None), w))
  ∧ (∀ r e w', LoadJSONDatabase path w = Some ((r, Some e), w') →
       (r = None ∧ e = Errorf "unrecognized format")
       ∨ (r = Some empty_database ∧ ∃ msg, e = ErrIO msg ∨ e = ErrNotExist msg)).
Proof.
  split.
  - intros H. unfold LoadJSONDatabase, Stat_IsNotExist. run_monad.
    by rewrite bool_decide_eq_true_2.
  - intros r e w'. unfold LoadJSONDatabase, Stat_IsNotExist. run_monad.
    destruct (bool_decide _); [done|]. apply load_attempts_outcome; [done|lia].
Qed.

(** ** The shape of a generated UUID *)

Lemma lower_hex_hexdigit (x : Z) : 0 ≤ x < 16 → lower_hex (hexdigit x) = true.
Proof.
  intros H. unfold lower_hex, in_range, hexdigit.
  destruct (x <? 10) eqn:E; rewrite code_chr by lia; lia.
Qed.

Lemma shiftr_4 x : Z.shiftr x 4 = x / 16.
Proof. exact (Z.shiftr_div_pow2 x 4 ltac:(lia)). Qed.

Lemma lor_64 x : 0 ≤ x < 16 → Z.lor x 64 = 64 + x.
Proof. intros H. rewrite Z.lor_comm. exact (lor_high 4 4 x ltac:(lia) H). Qed.

Lemma lor_128_r x : 0 ≤ x < 64 → Z.lor x 128 = 128 + x.
Proof. intros H. rewrite Z.lor_comm. by apply lor_128. Qed.

Lemma version_byte (b : Z) : Z.lor (Z.land b 15) 64 = 64 + b mod 16.
Proof. rewrite land_15. apply lor_64. Z.to_euclidean_division_equations. lia. Qed.

Lemma variant_byte (b : Z) : Z.lor (Z.land b 63) 128 = 128 + b mod 64.
Proof. rewrite land_63. apply lor_128_r. Z.to_euclidean_division_equations. lia. Qed.

Ltac nibble :=
  rewrite ?version_byte, ?variant_byte, ?shiftr_4, ?land_15;
  repeat match goal with
         | |- context [code ?c] =>
             let H := fresh in pose proof (code_range c) as H;
             generalize dependent (code c); intros
         end;
  Z.to_euclidean_division_equations; lia.

(** X13. When the random source delivers its 16 bytes, GenerateUUID returns
    five groups of 8, 4, 4, 4 and 12 lower-case hexadecimal digits joined
    by hyphens; the third group starts with the version digit 4 and the
    fourth with a variant digit among 8, 9, a and b. *)
Theorem GenerateUUID_shape (w : World) (s : string) (r : list string) :
  entropy w = s :: r → String.length s = 16%nat →
  ∃ g1 g2 g3 g4 g5,
    GenerateUUID w
    = Some (g1 +:+ "-" +:+ g2 +:+ "-" +:+ g3 +:+ "-" +:+ g4 +:+ "-" +:+ g5, set_entropy w r)
    ∧ (String.length g1 = 8 ∧ String.length g2 = 4 ∧ String.length g3 = 4
       ∧ String.length g4 = 4 ∧ String.length g5 = 12)%nat
    ∧ all_chars lower_hex (g1 +:+ g2 +:+ g3 +:+ g4 +:+ g5) = true
    ∧ String.get 0 g3 = Some "4"%char
    ∧ (∃ c, String.get 0 g4 = Some c ∧ (c = "8" ∨ c = "9" ∨ c = "a" ∨ c = "b")%char).
Proof.
  intros He Hlen. unfold GenerateUUID. rewrite He, Hlen. simpl Nat.eqb. cbv iota.
  do 16 (destruct s as [|? s]; [done|]). destruct s; [|done]. clear Hlen.
  do 5 eexists. split; [reflexivity|].
  cbn -[Z.shiftr Z.land Z.lor code hexdigit].
  cbv beta iota fix delta [String.append hex.byte].
  cbn -[Z.shiftr Z.land Z.lor code hexdigit].
  split; [done|]. split; [|split].
  - repeat match goal with
           | |- context [lower_hex (hexdigit ?x)] =>
               rewrite (lower_hex_hexdigit x) by nibble
           end.
    reflexivity.
  - f_equal. rewrite version_byte, shiftr_4.
    pose proof (code_range a5).
    replace ((64 + code a5 mod 16) / 16) with 4
      by (Z.to_euclidean_division_equations; lia).
    reflexivity.
  - rewrite variant_byte, shiftr_4. pose proof (code_range a7).
    assert (8 ≤ (128 + code a7 mod 64) / 16 < 12) as Hv
      by (Z.to_euclidean_division_equations; lia).
    eexists. split; [reflexivity|].
    assert ((128 + code a7 mod 64) / 16 = 8 ∨ (128 + code a7 mod 64) / 16 = 9
            ∨ (128 + code a7 mod 64) / 16 = 10 ∨ (128 + code a7 mod 64) / 16 = 11)
      as [-> | [-> | [-> | ->]]] by lia; auto.
Qed.

(** ** Errors of the reconcile step and of the save *)

(** X14. SyncWithRemote returns an error only on its short cut: both files
    were read, their checksums were equal, and the load of the local file
    failed.  Whenever the files differ or one of them cannot be read, the
    result carries no error. *)
Theorem sync_error_only_on_identical_files (localPath remotePath : string) (w w' : World)
    (r : option MagnetDatabase) (e : error) :
  SyncWithRemote localPath remotePath w = Some ((r, Some e), w') →
  ∃ ck w1 w2 e0,
    ComputeFileChecksum localPath w = Some ((ck, None), w1)
    ∧ ComputeFileChecksum remotePath w1 = Some ((ck, None), w2)
    ∧ r = None ∧ e = Wrapf "failed to load local: " e0.
Proof.
  unfold SyncWithRemote. run_monad.
  destruct (ComputeFileChecksum localPath w) as [[[ck1 e1] w1]|] eqn:C1; [|done].
  destruct (ComputeFileChecksum remotePath w1) as [[[ck2 e2] w2]|] eqn:C2; [|done].
  destruct (is_nil e1 && is_nil e2 && String.eqb ck1 ck2 && _) eqn:E.
  - apply andb_prop in E as [E _]. apply andb_prop in E as [E E3].
    apply andb_prop in E as [E1 E2].
    destruct e1, e2; try done. apply String.eqb_eq in E3 as ->.
    destruct (LoadJSONDatabase localPath w2) as [[[l [el|]] w3]|]; [| |done].
    + intros [= <- <- <-]. by exists ck2, w1, w2, el.
    + by intros [= _ ? _].
  - destruct (LoadJSONDatabase localPath w2) as [[[l el] w3]|]; [|done]. simpl.
    destruct (LoadJSONDatabase remotePath w3) as [[[rm [er|]] w4]|]; [| |done]; simpl.
    + by intros [= _ ? _].
    + destruct (if is_nil el then l else Some empty_database); simpl; [|done].
      destruct rm; simpl; [|done]. by intros [= _ ? _].
Qed.

(** ** What loading and reconciling leave alone *)

Lemma reads_only_refl (w : World) : reads_only w w.
Proof. repeat split. by exists 0%nat. Qed.

Lemma reads_only_trans (w1 w2 w3 : World) :
  reads_only w1 w2 → reads_only w2 w3 → reads_only w1 w3.
Proof.
  intros (?&?&?&?&?&k1&E1) (?&?&?&?&?&k2&E2). repeat split; try congruence.
  exists (k1 + k2)%nat. by rewrite E2, E1, drop_drop.
Qed.

Lemma next_fault_reads (w w' : World) f : next_fault w = Some (f, w') → reads_only w w'.
Proof.
  unfold next_fault. destruct (faults w) eqn:E; intros [= _ <-]; repeat split.
  - exists 0%nat. by rewrite E.
  - exists 1%nat. simpl. by rewrite E.
Qed.

Lemma reads_only_quiet (w w' : World) : reads_only w w' → faults w = [] → faults w' = [].
Proof. intros (_&_&_&_&_&k&->) ->. by destruct k. Qed.

Lemma ReadFile_reads (path : string) (w w' : World) r :
  ReadFile path w = Some (r, w') → reads_only w w'.
Proof.
  unfold ReadFile. run_monad.
  destruct (next_fault w) as [[[ft|] w1]|] eqn:E; [| |done]; simpl.
  - intros [= _ <-]. by apply next_fault_reads in E.
  - apply next_fault_reads in E. destruct (files w1 !! path); intros [= _ <-]; done.
Qed.

Lemma ComputeFileChecksum_reads (path : string) (w w' : World) r :
  ComputeFileChecksum path w = Some (r, w') → reads_only w w'.
Proof.
  unfold ComputeFileChecksum. run_monad.
  destruct (ReadFile path w) as [[[data [e|]] w1]|] eqn:E; [| |done];
    intros [= _ <-]; by apply ReadFile_reads in E.
Qed.

Lemma GenerateUUID_reads (w w' : World) u : GenerateUUID w = Some (u, w') → reads_only w w'.
Proof.
  unfold GenerateUUID. destruct (entropy w) as [|s r]; simpl.
  - intros [= _ <-]. repeat split. by exists 0%nat.
  - destruct (String.length s =? 16)%nat; intros [= _ <-]; repeat split; by exists 0%nat.
Qed.

Lemma range_V0_reads l added nextID (w w' : World) r :
  range_V0 l added nextID w = Some (r, w') → reads_only w w'.
Proof.
  revert added nextID w. induction l as [|[hash v0] l IH]; intros added nextID w.
  - simpl. run_monad. intros [= _ <-]. apply reads_only_refl.
  - simpl. run_monad. destruct (GenerateUUID w) as [[uuid w1]|] eqn:E; [|done].
    apply GenerateUUID_reads in E.
    destruct (go_set added hash _) as [t'|]; simpl; [|done].
    intros H%IH. by eapply reads_only_trans.
Qed.

Lemma range_V1_reads l target nextID (w w' : World) r :
  range_V1 l target nextID w = Some (r, w') → reads_only w w'.
Proof.
  revert target nextID w. induction l as [|[hash v1] l IH]; intros target nextID w.
  - simpl. run_monad. intros [= _ <-]. apply reads_only_refl.
  - simpl. run_monad. destruct (GenerateUUID w) as [[uuid w1]|] eqn:E; [|done].
    apply GenerateUUID_reads in E.
    destruct (go_set target hash _) as [t'|]; simpl; [|done].
    intros H%IH. by eapply reads_only_trans.
Qed.

Lemma parse_database_reads data db (w w' : World) r :
  parse_database data db w = Some (r, w') → reads_only w w'.
Proof.
  unfold parse_database.
  destruct (Unmarshal data db) as [db1 err].
  destruct (is_nil err && _); [run_monad; intros [= _ <-]; apply reads_only_refl|].
  destruct (UnmarshalV0 data make) as [dbV0 errV0].
  destruct (is_nil errV0 && _).
  { run_monad. destruct (range_V0 _ _ _ _) as [[[added nextID] w1]|] eqn:E; [|done].
    intros [= _ <-]. by apply range_V0_reads in E. }
  destruct (UnmarshalV1 data _) as [dbV1 errV1].
  destruct (is_nil errV1 && _).
  { run_monad. destruct (range_V1 _ _ _ _) as [[[added nextID] w1]|] eqn:E; [|done].
    simpl. destruct (range_V1 _ _ _ w1) as [[[retry nextID'] w2]|] eqn:E'; [|done].
    simpl. apply range_V1_reads in E, E'.
    destruct (_ && _); intros [= _ <-]; by eapply reads_only_trans. }
  run_monad. intros [= _ <-]. apply reads_only_refl.
Qed.

Lemma load_attempts_reads todo attempt path db (w w' : World) r :
  load_attempts todo attempt path db w = Some (r, w') → reads_only w w'.
Proof.
  revert attempt w. induction todo as [|todo IH]; intros attempt w; simpl.
  - run_monad. intros [= _ <-]. apply reads_only_refl.
  - run_monad. destruct (ReadFile path w) as [[[data [e|]] w1]|] eqn:E; [| |done];
      apply ReadFile_reads in E.
    + destruct (attempt <? 4).
      * unfold Sleep. run_monad. intros H%IH. by eapply reads_only_trans.
      * intros [= _ <-]. done.
    + intros H%parse_database_reads. by eapply reads_only_trans.
Qed.

Lemma LoadJSONDatabase_reads path (w w' : World) r :
  LoadJSONDatabase path w = Some (r, w') → reads_only w w'.
Proof.
  unfold LoadJSONDatabase, Stat_IsNotExist. run_monad.
  destruct (bool_decide _).
  - intros [= _ <-]. apply reads_only_refl.
  - apply load_attempts_reads.
Qed.

Lemma SyncWithRemote_reads localPath remotePath (w w' : World) r :
  SyncWithRemote localPath remotePath w = Some (r, w') → reads_only w w'.
Proof.
  unfold SyncWithRemote. run_monad.
  destruct (ComputeFileChecksum localPath w) as [[[ck1 e1] w1]|] eqn:C1; [|done].
  destruct (ComputeFileChecksum remotePath w1) as [[[ck2 e2] w2]|] eqn:C2; [|done].
  apply ComputeFileChecksum_reads in C1, C2.
  pose proof (reads_only_trans _ _ _ C1 C2) as H2.
  destruct (is_nil e1 && is_nil e2 && String.eqb ck1 ck2 && _).
  - destruct (LoadJSONDatabase localPath w2) as [[[l [el|]] w3]|] eqn:L; [| |done];
      apply LoadJSONDatabase_reads in L; intros [= _ <-]; by eapply reads_only_trans.
  - destruct (LoadJSONDatabase localPath w2) as [[[l el] w3]|] eqn:L; [|done]. simpl.
    apply LoadJSONDatabase_reads in L.
    destruct (LoadJSONDatabase remotePath w3) as [[[rm [er|]] w4]|] eqn:R; [| |done];
      simpl; apply LoadJSONDatabase_reads in R;
      pose proof (reads_only_trans _ _ _ H2 (reads_only_trans _ _ _ L R)).
    + by intros [= _ <-].
    + destruct (if is_nil el then l else Some empty_database); simpl; [|done].
      destruct rm; simpl; [|done]. by intros [= _ <-].
Qed.

(** X15. Loading, checksumming a file and reconciling never write: whatever
    they return, every file is as it was. *)
Theorem loading_never_writes (localPath remotePath : string) (w : World) :
  (∀ r w', LoadJSONDatabase localPath w = Some (r, w') → files w' = files w)
  ∧ (∀ r w', ComputeFileChecksum localPath w = Some (r, w') → files w' = files w)
  ∧ (∀ r w', SyncWithRemote localPath remotePath w = Some (r, w') → files w' = files w).
Proof.
  split; [|split]; intros r w' H.
  - by apply LoadJSONDatabase_reads in H as [? _].
  - by apply ComputeFileChecksum_reads in H as [? _].
  - by apply SyncWithRemote_reads in H as [? _].
Qed.

Lemma SaveDatabaseLocal_frame (path : string) (db : MagnetDatabase) (w w' : World) r :
  SaveDatabaseLocal path db w = Some (r, w') →
  (∀ p, p ≠ path → p ≠ path +:+ ".tmp" → files w' !! p = files w !! p)
  ∧ clock w' = clock w ∧ order w' = order w ∧ os w' = os w.
Proof.
  unfold SaveDatabaseLocal, Now_RFC3339, WriteFile, Rename, Remove. run_monad.
  unfold MarshalIndent. unfold next_fault.
  generalize (json.indented "  " 0 (database_json (stamp (clock w) db))). intros data.
  generalize (stamp (clock w) db). intros db'.
  destruct (faults w) as [|[f0|] [|[f1|] [|[f2|] fl]]] eqn:Ef; simpl; rewrite ?Ef; simpl;
    rewrite ?lookup_insert_eq; simpl;
    try (destruct (fault_partial f0) as [n|]; simpl);
    intros [= _ <-]; simpl; (split; [|done]); intros p H1 H2;
    repeat first [rewrite lookup_delete_ne by congruence
                 | rewrite lookup_insert_ne by congruence];
    done.
Qed.

(** ** SaveJSONDatabase, end to end *)

Lemma GetRemotePath_pure (c : option Config) (w w' : World) r :
  GetRemotePath c w = Some (r, w') → w' = w.
Proof.
  unfold GetRemotePath. run_monad. destruct c as [c|].
  - destruct (negb _); by intros [= _ <-].
  - by intros [= _ <-].
Qed.

(** The stages of SaveJSONDatabase: the remote path, the reconciled
    database, the overlay, the local save and the remote save. *)
Lemma SaveJSONDatabase_stages (localPath : string) (updates : MagnetDatabase)
    (config : option Config) (w w' : World) (res : option error) :
  SaveJSONDatabase localPath updates config w = Some (res, w') →
  ∃ remotePath merged wa db wb err,
    GetRemotePath config w = Some (remotePath, w)
    ∧ reads_only w wa
    ∧ applyUpdates (order wa) merged updates = Some db
    ∧ SaveDatabaseLocal localPath db wa = Some ((stamp (clock wa) db, err), wb)
    ∧ match err with
      | Some e => res = Some (Wrapf "failed to save local: " e) ∧ w' = wb
      | None =>
          res = None
          ∧ ((remotePath = "" ∧ w' = wb)
             ∨ (remotePath ≠ ""
                ∧ ∃ x, SaveDatabaseLocal remotePath (stamp (clock wa) db) wb = Some (x, w')))
      end.
Proof.
  unfold SaveJSONDatabase. run_monad.
  destruct (GetRemotePath config w) as [[remotePath w0]|] eqn:G; [|done].
  pose proof (GetRemotePath_pure _ _ _ _ G) as ->.
  destruct (SyncWithRemote localPath remotePath w) as [[[m err] w1]|] eqn:S; [|done].
  apply SyncWithRemote_reads in S.
  (* the reconciled database, or the local one, or a fresh one *)
  match goal with
  | |- match ?X with Some _ => _ | None => _ end = _ → _ =>
      destruct X as [[m2 w2]|] eqn:E2; [|done]
  end.
  assert (reads_only w w2) as R2.
  { destruct (is_nil err); [injection E2 as <- <-; done|].
    destruct (LoadJSONDatabase localPath w1) as [[[m' err'] w1']|] eqn:L; [|done].
    apply LoadJSONDatabase_reads in L.
    destruct (is_nil err'); injection E2 as <- <-; exact (reads_only_trans _ _ _ S L). }
  clear E2. destruct m2 as [merged|]; simpl; [|done].
  (* the safety check against the remote *)
  match goal with
  | |- match ?X with Some _ => _ | None => _ end = _ → _ =>
      destruct X as [[merged' w3]|] eqn:E3; [|done]
  end.
  assert (reads_only w w3) as R3.
  { destruct (_ && _ && _).
    - destruct (LoadJSONDatabase remotePath w2) as [[[rm [er|]] w2']|] eqn:L; [| |done];
        apply LoadJSONDatabase_reads in L.
      + injection E3 as <- <-. exact (reads_only_trans _ _ _ R2 L).
      + destruct rm as [rm|]; [|done].
        match type of E3 with context [if ?b then _ else _] => destruct b end;
          injection E3 as <- <-; exact (reads_only_trans _ _ _ R2 L).
    - injection E3 as <- <-. done. }
  clear E3.
  destruct (applyUpdates (order w3) merged' updates) as [db|] eqn:A; simpl; [|done].
  destruct (SaveDatabaseLocal_spec localPath db w3) as (e & wb & Save & _).
  rewrite Save. destruct e as [e|].
  - intros [= <- <-]. exists remotePath, merged', w3, db, wb, (Some e).
    split; [done|]. split; [exact R3|]. by repeat split.
  - destruct (negb (String.eqb remotePath "")) eqn:Er.
    + destruct (SaveDatabaseLocal remotePath _ wb) as [[x wc]|] eqn:Save'; [|done].
      simpl. intros [= <- <-].
      exists remotePath, merged', w3, db, wb, None.
      split; [done|]. split; [exact R3|]. repeat split; try done.
      right. split; [|by exists x]. intros ->. done.
    + intros [= <- <-]. exists remotePath, merged', w3, db, wb, None.
      split; [done|]. split; [exact R3|]. repeat split; try done. left. split; [|done].
      apply negb_false_iff in Er. by apply String.eqb_eq in Er.
Qed.

(** X16. SaveJSONDatabase fails only when the local save fails; the error
    is then the wrapped error of that save and the local file is as it
    was.  A failure of the reconcile step, of the load or of the remote
    save is not reported. *)
Theorem SaveJSONDatabase_error (localPath : string) (updates : MagnetDatabase)
    (config : option Config) (w w' : World) (e : error) :
  SaveJSONDatabase localPath updates config w = Some (Some e, w') →
  (∃ e0, e = Wrapf "failed to save local: " e0)
  ∧ files w' !! localPath = files w !! localPath.
Proof.
  intros (r & merged & wa & db & wb & err & _ & Hr & _ & Save & H)%SaveJSONDatabase_stages.
  destruct err as [e0|]; [|by destruct H].
  destruct H as [[= ->] ->]. split; [by exists e0|].
  destruct (SaveDatabaseLocal_spec localPath db wa) as (e1 & w1 & Save1 & Hsame & _).
  rewrite Save in Save1. injection Save1 as <- <-.
  rewrite Hsame by done. by destruct Hr as [-> _].
Qed.

(** X17. After a SaveJSONDatabase without an error the local file holds
    the encoding of a database that has every entry of the update in the
    section the update names, provided the remote path and its temp file
    are other files than the local one. *)
Theorem SaveJSONDatabase_stores_updates (localPath remotePath : string)
    (updates : MagnetDatabase) (config : option Config) (w w' : World) :
  SaveJSONDatabase localPath updates config w = Some (None, w') →
  GetRemotePath config w = Some (remotePath, w) →
  localPath ≠ remotePath → localPath ≠ remotePath +:+ ".tmp" →
  ∃ db,
    files w' !! localPath = Some (MarshalIndent db).1
    ∧ (∀ h u, go_get (Added updates) h = Some u →
         ∃ e, go_get (Added db) h = Some e ∧ (e = u ∨ (ID u = 0 ∧ e = with_ID u (ID e))))
    ∧ (∀ h u, go_get (Retry updates) h = Some u →
         ∃ e, go_get (Retry db) h = Some e ∧ (e = u ∨ (ID u = 0 ∧ e = with_ID u (ID e)))).
Proof.
  intros (r & merged & wa & db & wb & err & G & Hr & A & Save & H)%SaveJSONDatabase_stages
    G' Hne Hne'.
  rewrite G in G'. injection G' as ->.
  destruct err as [e0|]; [by destruct H|]. destruct H as [_ H].
  destruct (SaveDatabaseLocal_spec localPath db wa) as (e1 & w1 & Save1 & _ & _ & Hok).
  rewrite Save in Save1. injection Save1 as <- <-. destruct (Hok eq_refl) as [Hfile _].
  destruct (stamp_sections (clock wa) db) as (Ea & Er & _).
  apply applyUpdates_lookups in A as (Ha & Hrt & _).
  exists (stamp (clock wa) db). rewrite Ea, Er. split; [|by split].
  destruct H as [[_ ->] | [_ (x & Save')]]; [done|].
  apply SaveDatabaseLocal_frame in Save' as [Hframe _]. by rewrite Hframe.
Qed.

(** X18. SaveDatabaseLocal writes to its path and to the temp file beside
    it, and to no other file. *)
Theorem save_leaves_other_files (path p : string) (db : MagnetDatabase) (w w' : World)
    (r : MagnetDatabase * option error) :
  SaveDatabaseLocal path db w = Some (r, w') →
  p ≠ path → p ≠ path +:+ ".tmp" →
  files w' !! p = files w !! p.
Proof. intros [H _]%SaveDatabaseLocal_frame. apply H. Qed.

(** ** Migration gives every entry a UUID *)

Lemma GenerateUUID_total (w : World) :
  ∃ u w', GenerateUUID w = Some (u, w') ∧ u ≠ "" ∧ reads_only w w'.
Proof.
  destruct (GenerateUUID w) as [[u w']|] eqn:E.
  2:{ unfold GenerateUUID in E. destruct (entropy w) as [|s r]; [done|].
      by destruct (String.length s =? 16)%nat. }
  exists u, w'. split; [done|]. split; [|by apply GenerateUUID_reads in E].
  unfold GenerateUUID in E.
  destruct (entropy w) as [|s r]; [by injection E as <- _|].
  destruct (String.length s =? 16)%nat; [|by injection E as <- _].
  injection E as <- _.
  match goal with |- ?a +:+ _ ≠ "" => destruct a end; done.
Qed.

Lemma with_UUID_same (e : MagnetEntry) : with_UUID e (UUID e) = e.
Proof. by destruct e. Qed.

Lemma fill_uuids_spec (l : list (string * MagnetEntry)) (m : gomap MagnetEntry)
    (w : World) :
  NoDup l.*1 → (∀ h e, (h, e) ∈ l → go_get m h = Some e) →
  ∃ m' w',
    fill_uuids l m w = Some (m', w') ∧ reads_only w w'
    ∧ (∀ h, h ∉ l.*1 → go_get m' h = go_get m h)
    ∧ (∀ h e, (h, e) ∈ l → ∃ e', go_get m' h = Some e' ∧ with_some_UUID e e').
Proof.
  revert m w. induction l as [|[h0 e0] l IH]; intros m w Hnd Hsnap.
  - exists m, w. split; [done|]. split; [apply reads_only_refl|]. split; [done|].
    by intros h e ?%elem_of_nil.
  - apply NoDup_cons in Hnd as [Hnin Hnd].
    assert (go_get m h0 = Some e0) as H0 by (apply Hsnap, list_elem_of_here).
    assert (∀ h e, (h, e) ∈ l → h ≠ h0) as Hne.
    { intros h e Hin ->. apply Hnin. apply list_elem_of_fmap. by exists (h0, e). }
    simpl. destruct (String.eqb_spec (UUID e0) "") as [Hu | Hu].
    + run_monad. destruct (GenerateUUID_total w) as (u & w1 & -> & Hnon & R1).
      destruct m as [|t]; [done|]. simpl.
      destruct (IH (GoMap (<[h0 := with_UUID e0 u]> t)) w1 Hnd)
        as (m' & w' & E & R & Hout & Hin).
      { intros h e Hin. unfold go_get. simpl. rewrite lookup_insert_ne.
        - by apply (Hsnap h e), list_elem_of_further.
        - intros <-. by apply (Hne h0 e). }
      exists m', w'. split; [done|]. split; [by eapply reads_only_trans|]. split.
      * intros h [Hh Hh']%not_elem_of_cons. rewrite (Hout h Hh'). unfold go_get. simpl.
        by rewrite lookup_insert_ne.
      * intros h e [[= -> ->] | Hh]%elem_of_cons; [|by apply Hin].
        exists (with_UUID e0 u). rewrite (Hout h0 Hnin). unfold go_get. simpl.
        rewrite lookup_insert_eq. split; [done|]. by repeat split.
    + destruct (IH m w Hnd) as (m' & w' & E & R & Hout & Hin).
      { intros h e Hin. by apply Hsnap, list_elem_of_further. }
      exists m', w'. split; [done|]. split; [done|]. split.
      * intros h [Hh Hh']%not_elem_of_cons. by apply Hout.
      * intros h e [[= -> ->] | Hh]%elem_of_cons; [|by apply Hin].
        exists e0. rewrite (Hout h0 Hnin). split; [done|].
        split; [by rewrite with_UUID_same|]. done.
Qed.

Lemma fill_uuids_range (o : range_oracle) (m : gomap MagnetEntry) (w : World) :
  ∃ m' w',
    fill_uuids (go_range o m) m w = Some (m', w') ∧ reads_only w w'
    ∧ ∀ h, match go_get m h with
           | Some e => ∃ e', go_get m' h = Some e' ∧ with_some_UUID e e'
           | None => go_get m' h = None
           end.
Proof.
  destruct (fill_uuids_spec (go_range o m) m w (go_range_NoDup o m))
    as (m' & w' & E & R & Hout & Hin).
  { intros h e. apply go_range_elem. }
  exists m', w'. split; [done|]. split; [done|]. intros h.
  destruct (go_get m h) as [e|] eqn:Eh.
  - apply Hin. by apply go_range_elem.
  - rewrite Hout; [done|]. rewrite go_range_key, Eh. by intros [? ?].
Qed.

Lemma ReadFile_quiet (path : string) (w : World) :
  faults w = [] → ∃ r, ReadFile path w = Some (r, w).
Proof.
  intros H. unfold ReadFile. run_monad. unfold next_fault. rewrite H. simpl.
  destruct (files w !! path); eauto.
Qed.

Lemma ComputeFileChecksum_quiet (path : string) (w : World) :
  faults w = [] → ∃ r, ComputeFileChecksum path w = Some (r, w).
Proof.
  intros H. unfold ComputeFileChecksum. run_monad.
  destruct (ReadFile_quiet path w H) as ([data [e|]] & ->); eauto.
Qed.

Lemma SaveDatabaseLocal_quiet (path : string) (db : MagnetDatabase) (w : World) :
  faults w = [] →
  ∃ w', SaveDatabaseLocal path db w = Some ((stamp (clock w) db, None), w')
        ∧ files w' !! path = Some (MarshalIndent (stamp (clock w) db)).1
        ∧ faults w' = [].
Proof.
  intros H.
  destruct (SaveDatabaseLocal_spec path db w) as (err & w' & E & _ & _ & Hok).
  exists w'. pose proof E as E'.
  unfold SaveDatabaseLocal, Now_RFC3339, MarshalIndent in E'. run_monad.
  set (d := stamp (clock w) db) in *.
  set (data := json.indented "  " 0 (database_json d)) in *.
  unfold WriteFile, Rename in E'. run_monad. unfold next_fault in E'.
  rewrite H in E'. cbn -[json.indented stamp d data] in E'. rewrite H in E'.
  cbn [files set_files] in E'.
  rewrite lookup_insert_eq in E'. cbn -[json.indented stamp d data] in E'.
  injection E' as <- <-. split; [exact E|]. split; [by destruct (Hok eq_refl)|]. done.
Qed.

(** X19. When no file operation fails, migrating a file that loads
    succeeds: the file then holds the loaded database in which every entry
    that had no UUID has been given one, with every other field, every
    existing UUID and the sequence number unchanged. *)
Theorem migrate_gives_every_entry_a_uuid (path : string) (db0 : MagnetDatabase)
    (w w1 : World) :
  faults w = [] →
  LoadJSONDatabase path w = Some ((Some db0, None), w1) →
  ∃ db w',
    MigrateFileFormat path w = Some (None, w')
    ∧ files w' !! path = Some (MarshalIndent db).1
    ∧ LastSequence (Metadata db) = LastSequence (Metadata db0)
    ∧ (∀ h, match go_get (Added db0) h with
            | Some e => ∃ e', go_get (Added db) h = Some e' ∧ with_some_UUID e e'
            | None => go_get (Added db) h = None
            end)
    ∧ (∀ h, match go_get (Retry db0) h with
            | Some e => ∃ e', go_get (Retry db) h = Some e' ∧ with_some_UUID e e'
            | None => go_get (Retry db) h = None
            end).
Proof.
  intros Hq Hload.
  pose proof (LoadJSONDatabase_reads _ _ _ _ Hload) as R1.
  destruct (fill_uuids_range (order w1) (Added db0) w1) as (added & wa & Fa & Ra & Ha).
  destruct (fill_uuids_range (order w1) (Retry db0) wa) as (retry & wb & Fr & Rb & Hr).
  assert (faults wb = []) as Hqb.
  { eapply reads_only_quiet; [|exact Hq].
    exact (reads_only_trans _ _ _ R1 (reads_only_trans _ _ _ Ra Rb)). }
  set (db := {| Metadata := {| LastSequence := LastSequence (Metadata db0);
                               LastModified := clock wb;
                               Checksum := ComputeChecksum db0 |};
                Added := added; Retry := retry |}).
  destruct (SaveDatabaseLocal_quiet path db wb Hqb) as (wc & Save & Hfile & Hqc).
  destruct (ComputeFileChecksum_quiet path wc Hqc) as (r & C1).
  destruct (ComputeFileChecksum_quiet path w Hq) as (r0 & C0).
  exists (stamp (clock wb) db), wc. split.
  - unfold MigrateFileFormat, Stat_IsNotExist, Now_RFC3339. run_monad.
    destruct (bool_decide _); [|rewrite C0]; rewrite Hload; simpl; run_monad;
      rewrite Fa, Fr; fold db; rewrite Save, C1; reflexivity.
  - split; [done|].
    destruct (stamp_sections (clock wb) db) as (-> & -> & -> & _). done.
Qed.

(** ** Repetition *)

Lemma capture_free_star (n : nat) (a : regexp.syntax) :
  regexp.capture_free a = true → regexp.capture_free (star n a) = true.
Proof. intros H. induction n as [|n IH]; [done|]. simpl. by rewrite H, IH. Qed.

Lemma lang_star_class (n : nat) (p : ascii → bool) (w : string) :
  regexp.lang (star n (regexp.Class p)) w → all_chars p w = true.
Proof.
  revert w. induction n as [|n IH]; intros w; simpl.
  - by intros ->.
  - intros [(u & v & -> & (c & -> & Hc) & Hv) | ->]; [|done].
    rewrite app_cons, app_nil_l. simpl. by rewrite Hc, (IH v Hv).
Qed.

(** The longest run of the class is taken when the rest of the match
    succeeds after it. *)
Lemma run_star_class {X} (n : nat) (p : ascii → bool) (v post : string)
    (cap : option string) (k : string → option string → option X) (x : X) :
  all_chars p v = true →
  match post with "" => True | String c _ => p c = false end →
  (String.length v ≤ n)%nat →
  k post cap = Some x →
  regexp.run (star n (regexp.Class p)) (v +:+ post) cap k = Some x.
Proof.
  revert n. induction v as [|c v IH]; intros n Hv Hpost Hn Hk.
  - rewrite app_nil_l. destruct n as [|n]; simpl; [done|].
    destruct post as [|c r]; simpl; [done|]. by rewrite Hpost.
  - destruct n as [|n]; [simpl in Hn; lia|]. simpl in Hv.
    apply andb_prop in Hv as [Hc Hv]. rewrite app_cons. simpl. rewrite Hc.
    rewrite (IH n); [done|done|done| |done]. simpl in Hn. lia.
Qed.

Lemma run_class {X} (p : ascii → bool) (c : ascii) (r : string) (cap : option string)
    (k : string → option string → option X) :
  regexp.run (regexp.Class p) (String c r) cap k = if p c then k r cap else None.
Proof. reflexivity. Qed.

Lemma HasPrefix_spec (s prefix : string) :
  HasPrefix s prefix = true ↔ ∃ rest, s = prefix +:+ rest.
Proof.
  unfold HasPrefix. split.
  - destruct (strip_prefix prefix s) as [rest|] eqn:E; [|done].
    intros _. exists rest. by apply strip_prefix_Some.
  - intros [rest ->]. clear. induction prefix as [|a p IH]; [done|].
    rewrite app_cons. simpl. by rewrite Ascii.eqb_refl.
Qed.

(** X20. ValidateMagnetURI accepts exactly the texts that start with
    [magnet:?], continue with at least one character, all of them letters,
    digits or one of [:?&=%-_.~+], and contain [xt=urn:btih:]. *)
Theorem ValidateMagnetURI_spec (uri : string) :
  ValidateMagnetURI uri = true
  ↔ ∃ rest, uri = "magnet:?" +:+ rest ∧ rest ≠ ""
            ∧ all_chars valid_class rest = true
            ∧ Contains uri "xt=urn:btih:" = true.
Proof.
  unfold ValidateMagnetURI. split.
  - destruct (HasPrefix uri "magnet:?") eqn:Ep; [|simpl; intros [=]]. simpl.
    destruct (MatchString_anchored _ uri) eqn:Em; [|simpl; intros [=]]. simpl.
    destruct (Contains uri "xt=urn:btih:") eqn:Ec; [|simpl; intros [=]]. intros _.
    unfold MatchString_anchored in Em.
    destruct (regexp.run _ uri None _) as [[]|] eqn:Er; [|done].
    apply run_sound in Er as (u & s' & -> & Hl & Hk).
    2:{ unfold validPattern, plus. simpl. by rewrite capture_free_star. }
    destruct (String.eqb_spec s' "") as [->|]; [|done]. rewrite app_nil_r in *.
    destruct Hl as (u1 & u2 & -> & H1 & (u3 & u4 & -> & (c & -> & Hc) & Hs)).
    simpl in H1. subst u1. apply lang_star_class in Hs.
    exists (String c u4). split; [done|]. split; [done|]. split; [|done].
    simpl. by rewrite Hc, Hs.
  - intros (rest & -> & Hne & Hall & Hc).
    assert (HasPrefix ("magnet:?" +:+ rest) "magnet:?" = true) as Hp
      by (apply HasPrefix_spec; by exists rest).
    assert (MatchString_anchored (validPattern (String.length ("magnet:?" +:+ rest)))
              ("magnet:?" +:+ rest) = true) as Hm.
    { set (n := String.length ("magnet:?" +:+ rest)).
      assert (String.length rest ≤ n)%nat as Hn
        by (subst n; rewrite length_app_s; lia).
      clearbody n. unfold MatchString_anchored, validPattern, plus.
      rewrite run_cat, run_lit.
      assert (strip_prefix "magnet:?" ("magnet:?" +:+ rest) = Some rest) as -> by done.
      rewrite run_cat. destruct rest as [|c rest]; [done|]. simpl in Hall.
      apply andb_prop in Hall as [Hc' Hall]. rewrite run_class, Hc'.
      pose proof (run_star_class n valid_class rest "" None
                    (λ s' _, if String.eqb s' "" then Some tt else None) tt Hall I) as Hrun.
      rewrite app_nil_r in Hrun. rewrite Hrun; [done| |done]. simpl in Hn. lia. }
    by rewrite Hp, Hm, Hc.
Qed.

(** ** The display name *)

Lemma wf_utf8_app (a b : string) : wf_utf8 a → wf_utf8 b → wf_utf8 (a +:+ b).
Proof.
  induction 1 as [|c s Hc _ IH|u rn size s Hu _ IH]; intros Hb.
  - by rewrite app_nil_l.
  - rewrite app_cons. apply wf_ascii; [done|]. by apply IH.
  - rewrite app_assoc_s. eapply wf_seq; [exact Hu|]. by apply IH.
Qed.

Lemma wf_ValidString_go (s : string) :
  wf_utf8 s → ∀ n, (String.length s ≤ n)%nat → utf8.valid_go n s = true.
Proof.
  induction 1 as [|c s Hc _ IH|u rn size s Hu _ IH]; intros n Hn.
  - by destruct n.
  - destruct n as [|n]; [simpl in Hn; lia|].
    unfold utf8.valid_go. fold utf8.valid_go. unfold utf8.DecodeRune.
    pose proof (code_range c).
    assert ((code c <? 128) = true) as -> by lia.
    assert ((code c =? utf8.RuneError) = false) as -> by (unfold utf8.RuneError; lia).
    simpl. apply IH. simpl in Hn. lia.
  - destruct (sequence_length _ _ _ Hu) as [Hlen Hsz].
    destruct u as [|c0 u]; [simpl in Hlen; lia|].
    destruct n as [|n]; [rewrite app_cons in Hn; simpl in Hn; lia|].
    rewrite app_cons. unfold utf8.valid_go. fold utf8.valid_go.
    rewrite <- app_cons. rewrite (sequence_decode _ _ _ s Hu).
    assert ((size =? 1)%nat = false) as -> by (apply Nat.eqb_neq; lia).
    rewrite andb_false_r. rewrite <- Hlen, sdrop_app. apply IH.
    rewrite length_app_s in Hn. simpl in Hn. simpl in Hlen. lia.
Qed.

Lemma wf_ValidString (s : string) : wf_utf8 s → utf8.ValidString s = true.
Proof. intros H. by apply wf_ValidString_go. Qed.

Lemma lor_192_hi (x : Z) : 0 ≤ x < 64 → Z.lor 192 x = 192 + x.
Proof. apply lor_192. Qed.

Lemma EncodeRune_byte_wf (b : Z) : 0 ≤ b < 256 → wf_utf8 (utf8.EncodeRune b).
Proof.
  intros Hb. unfold utf8.EncodeRune, utf8.RuneError.
  assert (((b <? 0) || (1114111 <? b) || ((55296 <=? b) && (b <=? 57343))) = false) as ->
    by lia.
  destruct (b <=? 127) eqn:E.
  - apply wf_ascii; [|constructor]. rewrite code_chr; lia.
  - assert ((b <=? 2047) = true) as -> by lia.
    rewrite shiftr_6, land_63.
    rewrite lor_192, lor_128 by (Z.to_euclidean_division_equations; lia).
    rewrite <- (app_nil_r (String _ _)). eapply wf_seq; [|constructor].
    apply Seq2; rewrite code_chr; Z.to_euclidean_division_equations; lia.
Qed.

Lemma hexval_range (c : ascii) (d : Z) : json.hexval c = Some d → 0 ≤ d < 16.
Proof.
  unfold json.hexval. cbv zeta.
  destruct ((48 <=? code c) && (code c <=? 57)) eqn:E1; [intros [= <-]; lia|].
  destruct ((97 <=? code c) && (code c <=? 102)) eqn:E2; [intros [= <-]; lia|].
  destruct ((65 <=? code c) && (code c <=? 70)) eqn:E3; [intros [= <-]; lia|].
  intros [=].
Qed.

Lemma Sscanf_02x_range (h1 h2 : ascii) (b : Z) : Sscanf_02x h1 h2 = Some b → 0 ≤ b < 256.
Proof.
  unfold Sscanf_02x. destruct (json.hexval h1) as [d1|] eqn:E1.
  - apply hexval_range in E1. destruct (json.hexval h2) as [d2|] eqn:E2.
    + apply hexval_range in E2. intros [= <-]. lia.
    + intros [= <-]. lia.
  - destruct (scan_space h1); [|done]. intros H%hexval_range. lia.
Qed.

Lemma decode_name_wf (n : nat) :
  ∀ name, (String.length name ≤ n)%nat → wf_utf8 (decode_name name).
Proof.
  induction n as [|n IH]; intros name Hn.
  - destruct name; [constructor | simpl in Hn; lia].
  - destruct name as [|c r]; [constructor|]. simpl in Hn.
    assert (wf_utf8 (utf8.EncodeRune (code c) +:+ decode_name r)) as Hcopy.
    { apply wf_utf8_app; [apply EncodeRune_byte_wf, code_range | apply IH; lia]. }
    simpl. destruct r as [|h1 [|h2 r']]; [done|done|].
    destruct (Ascii.eqb c "%"); [|done].
    destruct (Sscanf_02x h1 h2) as [b|] eqn:E; [|done].
    apply wf_utf8_app; [by apply EncodeRune_byte_wf, (Sscanf_02x_range h1 h2)|].
    apply IH. simpl in Hn. lia.
Qed.

(** X21. The display name that ExtractMagnetName returns is valid UTF-8,
    whatever bytes the URI holds. *)
Theorem ExtractMagnetName_valid_utf8 (uri : string) :
  utf8.ValidString (ExtractMagnetName uri) = true.
Proof.
  unfold ExtractMagnetName. destruct (1 <? length _)%nat; [|reflexivity].
  apply wf_ValidString. by eapply decode_name_wf.
Qed.

Lemma Contains_cons (c : ascii) (s substr : string) :
  Contains (String c s) substr = false →
  strip_prefix substr (String c s) = None ∧ Contains s substr = false.
Proof. simpl. by destruct (strip_prefix substr (String c s)). Qed.

Lemma match_here_dn_prefix (n : nat) (s : string) :
  strip_prefix "dn=" s = None → regexp.match_here (dn_re n) s = None.
Proof. intros H. unfold regexp.match_here, dn_re. by rewrite run_cat, run_lit, H. Qed.

Lemma FindStringSubmatch_eq (r : regexp.syntax) (s : string) :
  regexp.FindStringSubmatch r s
  = match regexp.match_here r s with
    | Some (whole, cap) => [whole; default "" cap]
    | None =>
        match s with
        | "" => []
        | String _ rest => regexp.FindStringSubmatch r rest
        end
    end.
Proof. by destruct s. Qed.

Lemma FindStringSubmatch_no_dn (n : nat) (s : string) :
  Contains s "dn=" = false → regexp.FindStringSubmatch (dn_re n) s = [].
Proof.
  induction s as [|c s IH]; intros H.
  - rewrite FindStringSubmatch_eq. by rewrite match_here_dn_prefix.
  - apply Contains_cons in H as [Hp Hc]. rewrite FindStringSubmatch_eq.
    rewrite match_here_dn_prefix by done. by apply IH.
Qed.

(** X22. A URI without the text [dn=] has the display name "Unknown". *)
Theorem ExtractMagnetName_unknown (uri : string) :
  Contains uri "dn=" = false → ExtractMagnetName uri = "Unknown".
Proof.
  intros H. unfold ExtractMagnetName. by rewrite FindStringSubmatch_no_dn.
Qed.

Lemma strip_dn_stable (pre x : string) :
  pre ≠ "" →
  strip_prefix "dn=" (pre +:+ "dn") = None →
  strip_prefix "dn=" (pre +:+ "dn=" +:+ x) = None.
Proof.
  intros Hne. destruct pre as [|c0 [|c1 [|c2 pre]]]; [done|..];
    rewrite !app_cons, ?app_nil_l; cbn [strip_prefix].
  - destruct (Ascii.eqb "d" c0); [|done]. done.
  - destruct (Ascii.eqb "d" c0); [|done]. destruct (Ascii.eqb "n" c1); done.
  - destruct (Ascii.eqb "d" c0); [|done]. destruct (Ascii.eqb "n" c1); [|done].
    destruct (Ascii.eqb "=" c2); done.
Qed.

Lemma FindStringSubmatch_skip (n : nat) (pre x : string) :
  Contains (pre +:+ "dn") "dn=" = false →
  regexp.FindStringSubmatch (dn_re n) (pre +:+ "dn=" +:+ x)
  = regexp.FindStringSubmatch (dn_re n) ("dn=" +:+ x).
Proof.
  induction pre as [|c pre IH]; intros H; [done|].
  rewrite app_cons in H. apply Contains_cons in H as [Hp Hc].
  rewrite FindStringSubmatch_eq. rewrite match_here_dn_prefix.
  - rewrite app_cons. by apply IH.
  - apply strip_dn_stable; [done|]. by rewrite app_cons.
Qed.

Lemma match_here_dn (n : nat) (v post : string) :
  v ≠ "" → all_chars not_amp v = true →
  match post with "" => True | String c _ => c = "&"%char end →
  (String.length v ≤ n)%nat →
  regexp.match_here (dn_re n) ("dn=" +:+ v +:+ post) = Some ("dn=" +:+ v, Some v).
Proof.
  intros Hne Hv Hpost Hn. unfold regexp.match_here, dn_re.
  rewrite run_cat, run_lit.
  assert (strip_prefix "dn=" ("dn=" +:+ v +:+ post) = Some (v +:+ post)) as -> by done.
  rewrite run_capture. unfold plus. rewrite run_cat.
  destruct v as [|c v]; [done|]. simpl in Hv. apply andb_prop in Hv as [Hc Hv].
  rewrite app_cons, run_class, Hc.
  erewrite run_star_class; [reflexivity|done| |simpl in Hn; lia|].
  - destruct post as [|c' r]; [done|]. subst c'. done.
  - f_equal. f_equal.
    + replace (String.length ("dn=" +:+ String c (v +:+ post)) - String.length post)%nat
        with (String.length ("dn=" +:+ String c v)).
      * change ("dn=" +:+ String c (v +:+ post)) with (("dn=" +:+ String c v) +:+ post).
        apply stake_app.
      * change ("dn=" +:+ String c (v +:+ post)) with (("dn=" +:+ String c v) +:+ post).
        rewrite (length_app_s ("dn=" +:+ String c v)). lia.
    + f_equal.
      replace (String.length (String c (v +:+ post)) - String.length post)%nat
        with (String.length (String c v)).
      * change (String c (v +:+ post)) with (String c v +:+ post). apply stake_app.
      * simpl. rewrite length_app_s. lia.
Qed.

Lemma decode_name_copied (s : string) :
  all_chars (λ c, (code c <? 128) && negb (Ascii.eqb c "%")) s = true →
  decode_name s = s.
Proof.
  induction s as [|c r IH]; [done|]. simpl all_chars.
  intros [[Hlow Hpc]%andb_prop Hr]%andb_prop.
  assert (utf8.EncodeRune (code c) = String c "") as He.
  { pose proof (code_range c). unfold utf8.EncodeRune, utf8.RuneError.
    assert (((code c <? 0) || (1114111 <? code c)
             || ((55296 <=? code c) && (code c <=? 57343))) = false) as -> by lia.
    assert ((code c <=? 127) = true) as -> by lia. by rewrite chr_code. }
  apply negb_true_iff in Hpc.
  assert (decode_name (String c r) = utf8.EncodeRune (code c) +:+ decode_name r) as ->.
  { simpl. destruct r as [|h1 [|h2 r']]; [done|done|]. by rewrite Hpc. }
  by rewrite He, (IH Hr).
Qed.

(** X23. When the first [dn=] of the URI is followed by a name of ASCII
    characters without [%], up to the next [&] or the end, ExtractMagnetName
    returns that name with every [+] replaced by a space. *)
Theorem ExtractMagnetName_plain (pre v post : string) :
  Contains (pre +:+ "dn") "dn=" = false →
  v ≠ "" → all_chars copied v = true →
  match post with "" => True | String c _ => c = "&"%char end →
  ExtractMagnetName (pre +:+ "dn=" +:+ v +:+ post) = map_chars plus_to_space v.
Proof.
  intros Hpre Hne Hv Hpost. unfold ExtractMagnetName.
  set (n := String.length (pre +:+ "dn=" +:+ v +:+ post)).
  assert (String.length v ≤ n)%nat as Hn.
  { subst n. rewrite !length_app_s. lia. }
  clearbody n. rewrite FindStringSubmatch_skip by done.
  rewrite FindStringSubmatch_eq, match_here_dn; [|done| |done|done].
  2:{ eapply all_chars_weaken; [|exact Hv]. intros c. unfold copied, not_amp.
      intros [[_ ?]%andb_prop _]%andb_prop. done. }
  simpl. apply decode_name_copied.
  apply (all_chars_impl copied); [|done].
  intros c. unfold copied, plus_to_space. intros [[Hl _]%andb_prop Hp]%andb_prop.
  destruct (Ascii.eqb_spec c "+") as [->|]; [done|]. by rewrite Hl, Hp.
Qed.

(** ** The shape of a checksum *)

Lemma EncodeToString_lower_hex (bs : list Z) :
  Forall (λ b, 0 ≤ b < 256) bs → all_chars lower_hex (hex.EncodeToString bs) = true.
Proof.
  induction 1 as [|b bs Hb _ IH]; [done|].
  cbn [hex.EncodeToString]. unfold hex.byte. rewrite !app_cons, app_nil_l.
  cbn [all_chars]. rewrite IH, !lower_hex_hexdigit; [done| |].
  - rewrite land_15. Z.to_euclidean_division_equations. lia.
  - rewrite shiftr_4. Z.to_euclidean_division_equations. lia.
Qed.

(** X24. A checksum, of a database or of a file that could be read, is 40
    lower-case hexadecimal digits. *)
Theorem checksum_shape (db : MagnetDatabase) (path : string) (w : World) :
  (String.length (ComputeChecksum db) = 40%nat
   ∧ all_chars lower_hex (ComputeChecksum db) = true)
  ∧ (∀ ck w', ComputeFileChecksum path w = Some ((ck, None), w') →
       String.length ck = 40%nat ∧ all_chars lower_hex ck = true).
Proof.
  split.
  - unfold ComputeChecksum, Marshal.
    rewrite length_EncodeToString, length_sha1_Sum. split; [done|].
    apply EncodeToString_lower_hex, sha1_Sum_bytes.
  - intros ck w'. unfold ComputeFileChecksum. run_monad.
    destruct (ReadFile path w) as [[[data [e|]] w1]|]; [done| |done].
    intros H. assert (ck = hex.EncodeToString (sha1.Sum (bytes_of data))) as ->
      by congruence.
    rewrite length_EncodeToString, length_sha1_Sum. split; [done|].
    apply EncodeToString_lower_hex, sha1_Sum_bytes.
Qed.

(** ** Loading the flat map of the first version *)

Lemma range_V0_spec (l : list (string * V0.MagnetEntryV0)) (a : gmap string MagnetEntry)
    (n : Z) (w : World) :
  NoDup l.*1 → MinInt64 ≤ n → n + Z.of_nat (length l) ≤ MaxInt64 →
  ∃ a' w',
    range_V0 l (GoMap a) n w = Some ((GoMap a', n + Z.of_nat (length l)), w')
    ∧ reads_only w w'
    ∧ (∀ h, h ∉ l.*1 → a' !! h = a !! h)
    ∧ (∀ (i : nat) h v0, l !! i = Some (h, v0) →
         ∃ uuid, uuid ≠ "" ∧ a' !! h = Some (of_V0 v0 uuid (n + Z.of_nat i))).
Proof.
  revert a n w. induction l as [|[h0 v0] l IH]; intros a n w Hnd Hlo Hhi.
  - exists a, w. simpl. run_monad. rewrite Z.add_0_r. split; [done|].
    split; [apply reads_only_refl|]. split; [done|]. by intros i h v ?.
  - apply NoDup_cons in Hnd as [Hnin Hnd]. simpl length in *.
    simpl. run_monad.
    destruct (GenerateUUID_total w) as (u & w1 & -> & Hnon & R1). simpl.
    rewrite wrap64_small by (unfold MinInt64, MaxInt64 in *; lia).
    destruct (IH (<[h0 := of_V0 v0 u n]> a) (n + 1) w1 Hnd) as (a' & w' & E & R & Hout & Hin);
      [unfold MinInt64 in *; lia | lia |].
    unfold of_V0 in E at 1. rewrite E.
    exists a', w'. split; [do 3 f_equal; lia|]. split; [by eapply reads_only_trans|]. split.
    + intros h [Hne Hh]%not_elem_of_cons. rewrite (Hout h Hh). by rewrite lookup_insert_ne.
    + intros [|i] h v Hi.
      * injection Hi as <- <-. exists u. split; [done|].
        rewrite (Hout h0 Hnin), lookup_insert_eq. by rewrite Z.add_0_r.
      * simpl in Hi. destruct (Hin i h v Hi) as (uuid & ? & ->). exists uuid.
        split; [done|]. do 2 f_equal. lia.
Qed.

Lemma go_range_length {V} (o : range_oracle) (m : gomap V) :
  Z.of_nat (length (go_range o m)) = go_len m.
Proof.
  unfold go_range, go_len. rewrite (shuffle_perm o). by rewrite length_map_to_list.
Qed.

Lemma with_sequence_and_checksum_fields (db : MagnetDatabase) (seq : Z) :
  LastSequence (Metadata (with_sequence_and_checksum db seq)) = seq
  ∧ Retry (with_sequence_and_checksum db seq) = Retry db
  ∧ go_get (Added (with_sequence_and_checksum db seq)) = go_get (Added db).
Proof. done. Qed.

Lemma range_V0_nil (l : list (string * V0.MagnetEntryV0)) (n : Z) (w : World) :
  l ≠ [] → range_V0 l GoNil n w = None.
Proof.
  destruct l as [|[h v0] l]; [done|]. intros _. simpl. run_monad.
  by destruct (GenerateUUID_total w) as (u & w1 & -> & _).
Qed.

(** X25. A file that is read, that the current schema does not accept and
    that holds a flat map of the first version with at least one entry.
    When the parse under the current schema has left the "added" map nil
    (the document has a member ["added": null]) the load panics on the
    store into the nil map.  Otherwise it returns without an error: every
    entry of the flat map is in "added", converted field by field, with a
    UUID and with an identifier of its own between 1 and the number of
    entries, and last_sequence is that number. *)
Theorem load_flat_map (path data : string) (dbV0 : gomap V0.MagnetEntryV0) (w w1 : World) :
  ReadFile path w = Some ((data, None), w1) →
  accepts_current data empty_database = false →
  UnmarshalV0 data make = (dbV0, None) →
  0 < go_len dbV0 < MaxInt64 →
  match Added (Unmarshal data empty_database).1 with
  | GoNil => LoadJSONDatabase path w = None
  | GoMap _ =>
      ∃ db w',
        LoadJSONDatabase path w = Some ((Some db, None), w')
        ∧ LastSequence (Metadata db) = go_len dbV0
        ∧ Retry db = Retry (Unmarshal data empty_database).1
        ∧ (∀ h v0, go_get dbV0 h = Some v0 →
             ∃ uuid id, uuid ≠ "" ∧ 1 ≤ id ≤ go_len dbV0
                        ∧ go_get (Added db) h = Some (of_V0 v0 uuid id))
        ∧ (∀ h h' e e', h ≠ h' →
             is_Some (go_get dbV0 h) → is_Some (go_get dbV0 h') →
             go_get (Added db) h = Some e → go_get (Added db) h' = Some e' →
             ID e ≠ ID e')
  end.
Proof.
  intros Hread Hcur HV0 [Hpos Hmax].
  rewrite (LoadJSONDatabase_readable _ _ _ _ Hread).
  unfold parse_database, accepts_current in *.
  destruct (Unmarshal data empty_database) as [db1 err1]. cbn [fst].
  rewrite Hcur, HV0.
  assert ((0 <? go_len dbV0) = true) as -> by (by apply Z.ltb_lt).
  cbn [is_nil andb].
  run_monad.
  set (l := go_range (order w1) dbV0).
  pose proof (go_range_length (order w1) dbV0) as Hlen. fold l in Hlen.
  destruct (Added db1) as [|a0] eqn:Ha.
  { rewrite range_V0_nil; [done|]. intros Hl. rewrite Hl in Hlen. simpl in Hlen. lia. }
  destruct (range_V0_spec l a0 1 w1 (go_range_NoDup _ _)) as (a' & w' & -> & R & Hout & Hin).
  { unfold MinInt64; lia. }
  { unfold MaxInt64 in *. lia. }
  eexists _, w'. split; [reflexivity|].
  match goal with
  | |- context [with_sequence_and_checksum ?d ?s] =>
      destruct (with_sequence_and_checksum_fields d s) as (-> & -> & ->)
  end.
  cbn [Metadata Added Retry fst snd].
  split.
  { rewrite Hlen. replace (1 + go_len dbV0 - 1) with (go_len dbV0) by lia.
    apply wrap64_small. unfold MinInt64, MaxInt64 in *. lia. }
  split; [done|].
  assert (∀ h v0, go_get dbV0 h = Some v0 →
            ∃ (i : nat) uuid, uuid ≠ "" ∧ Z.of_nat i < go_len dbV0
              ∧ l !! i = Some (h, v0)
              ∧ a' !! h = Some (of_V0 v0 uuid (1 + Z.of_nat i))) as Hidx.
  { intros h v0 Hv. apply (go_range_elem (order w1)) in Hv.
    apply list_elem_of_lookup in Hv as [i Hi].
    destruct (Hin i h v0 Hi) as (uuid & Hne & He). exists i, uuid.
    split; [done|]. split; [|done]. pose proof (lookup_lt_Some _ _ _ Hi) as Hlt.
    rewrite <- Hlen. unfold l in *. lia. }
  split.
  - intros h v0 Hv. destruct (Hidx h v0 Hv) as (i & uuid & Hne & Hi & _ & He).
    exists uuid, (1 + Z.of_nat i). split; [done|]. split; [lia|]. done.
  - intros h h' e e' Hne [v Hv] [v' Hv'] He He'.
    destruct (Hidx h v Hv) as (i & u & _ & _ & Hi & Hl).
    destruct (Hidx h' v' Hv') as (i' & u' & _ & _ & Hi' & Hl').
    unfold go_get in He, He'. simpl in He, He'.
    rewrite Hl in He. rewrite Hl' in He'. injection He as <-. injection He' as <-.
    simpl. intros Heq. assert (i = i') as -> by lia. congruence.
Qed.

(** The flat map of the first version beside a member ["added": null]:
    the parse under the current schema sets the "added" map to nil, the
    flat map has two entries, and the load panics. *)
Example flat_map_with_null_added_panics :
  let data := compact (JObj [("added", JNull); ("abc", JObj [("hash", JStr "abc")])]) in
  accepts_current data empty_database = false
  ∧ Added (Unmarshal data empty_database).1 = GoNil
  ∧ (∃ dbV0, UnmarshalV0 data make = (dbV0, None) ∧ go_len dbV0 = 2)
  ∧ LoadJSONDatabase "/old.json" (quiet {[ "/old.json" := data ]}) = None.
Proof. vm_compute. split; [done|]. split; [done|]. split; [|done]. eexists. by split. Qed.

(** ** The cases of the repository's tests *)

Example ValidateMagnetURI_tests :
  ValidateMagnetURI
    "magnet:?xt=urn:btih:aaaaaaaaaaaaaaaaaaaaaaaaaaaaaaaaaaaaaaaa&dn=Test+File" = true
  ∧ ValidateMagnetURI "magnet:?xt=urn:btih:aaaaaaaaaaaaaaaaaaaaaaaaaaaaaaaa&dn=Test" = true
  ∧ ValidateMagnetURI
      "magnet:?xt=urn:btih:aaaaaaaaaaaaaaaaaaaaaaaaaaaaaaaaaaaaaaaa&dn=Test%20File" = true
  ∧ ValidateMagnetURI "http://example.com" = false
  ∧ ValidateMagnetURI "magnet:?dn=Test+File" = false
  ∧ ValidateMagnetURI "" = false
  ∧ ValidateMagnetURI "magnet:?xt=urn:btih:aaa;rm -rf /" = false
  ∧ ValidateMagnetURI "magnet:?xt=urn:btih:aaa`id`" = false.
Proof. vm_compute. repeat split. Qed.

Example ExtractMagnetName_tests :
  ExtractMagnetName "magnet:?xt=urn:btih:aaa&dn=Test+File+Name" = "Test File Name"
  ∧ ExtractMagnetName "magnet:?xt=urn:btih:aaa&dn=Test%20File%20Name" = "Test File Name"
  ∧ ExtractMagnetName "magnet:?xt=urn:btih:aaa&dn=Test%27s%20File" = "Test's File"
  ∧ ExtractMagnetName "magnet:?xt=urn:btih:aaa" = "Unknown"
  ∧ ExtractMagnetName "" = "Unknown".
Proof. vm_compute. repeat split. Qed.

(** ** The further theorems at concrete inputs *)

Lemma merge_sequence_covers_ids_witness :
  ID (sample_entry hash_h "remote" 5)
  ≤ LastSequence (Metadata (MergeDatabases (quiet ∅) local_added_1 remote_retry_5)).
Proof.
  apply (merge_sequence_covers_ids (quiet ∅) local_added_1 remote_retry_5 5 hash_h).
  - lia.
  - vm_compute. reflexivity.
  - apply (bool_decide_unpack _). vm_compute. exact I.
  - apply (bool_decide_unpack _). vm_compute. exact I.
  - apply (bool_decide_unpack _). vm_compute. exact I.
  - apply (bool_decide_unpack _). vm_compute. exact I.
  - right. vm_compute. reflexivity.
Defined.

Lemma merge_absorbs_witness :
  entries (Added (MergeDatabases (quiet ∅) local_added_1 local_added_1))
  = entries (Added local_added_1)
  ∧ entries (Retry (MergeDatabases (quiet ∅) local_added_1 local_added_1))
    = entries (Retry local_added_1).
Proof.
  apply (merge_absorbs (quiet ∅) local_added_1 local_added_1).
  - apply (bool_decide_unpack _). vm_compute. exact I.
  - apply (bool_decide_unpack _). vm_compute. exact I.
  - apply (bool_decide_unpack _). vm_compute. exact I.
  - reflexivity.
  - reflexivity.
Defined.

Lemma overlay_applies_updates_witness :
  (go_get (Added update_preset_50) hash_h = Some (sample_entry hash_h "preset" 50) →
   ∃ e, go_get (Added overlaid_preset_50) hash_h = Some e
        ∧ (e = sample_entry hash_h "preset" 50
           ∨ (ID (sample_entry hash_h "preset" 50) = 0
              ∧ e = with_ID (sample_entry hash_h "preset" 50) (ID e))))
  ∧ (go_get (Retry update_preset_50) hash_h = Some (sample_entry hash_h "preset" 50) →
     ∃ e, go_get (Retry overlaid_preset_50) hash_h = Some e
          ∧ (e = sample_entry hash_h "preset" 50
             ∨ (ID (sample_entry hash_h "preset" 50) = 0
                ∧ e = with_ID (sample_entry hash_h "preset" 50) (ID e)))).
Proof.
  apply (overlay_applies_updates in_order reconciled_seq_3 update_preset_50).
  vm_compute. reflexivity.
Defined.

Lemma overlay_keeps_other_entries_witness :
  go_get (Added overlaid_two) hash_h = go_get (Added local_added_1) hash_h
  ∧ go_get (Retry overlaid_two) hash_h = go_get (Retry local_added_1) hash_h.
Proof.
  apply (overlay_keeps_other_entries in_order local_added_1 content_seq_0).
  - vm_compute. reflexivity.
  - vm_compute. reflexivity.
  - vm_compute. reflexivity.
Defined.

Lemma overlay_added_leaves_retry_witness :
  is_Some (go_get (Added overlaid_done) hash_h) ∧ go_get (Retry overlaid_done) hash_h = None.
Proof.
  apply (overlay_added_leaves_retry in_order remote_retry_5 reconciled_added).
  - vm_compute. reflexivity.
  - vm_compute. eexists. reflexivity.
  - vm_compute. reflexivity.
Defined.

Lemma overlay_assigns_fresh_ids_witness :
  LastSequence (Metadata overlaid_again)
  = LastSequence (Metadata reconciled_seq_3) + unassigned (Added update_retry)
    + unassigned (Retry update_retry)
  ∧ (∀ h u, go_get (Added update_retry) h = Some u → ID u = 0 →
       ∃ e, go_get (Added overlaid_again) h = Some e
            ∧ LastSequence (Metadata reconciled_seq_3) < ID e
              ≤ LastSequence (Metadata overlaid_again))
  ∧ (∀ h u, go_get (Retry update_retry) h = Some u → ID u = 0 →
       ∃ e, go_get (Retry overlaid_again) h = Some e
            ∧ LastSequence (Metadata reconciled_seq_3) < ID e
              ≤ LastSequence (Metadata overlaid_again)).
Proof.
  apply (overlay_assigns_fresh_ids in_order reconciled_seq_3 update_retry).
  - vm_compute. reflexivity.
  - vm_compute. discriminate.
  - vm_compute. reflexivity.
Defined.

Lemma load_survives_failed_reads_witness :
  LoadJSONDatabase "/db.json" (flaky saved_local_added_1 [Some busy; Some busy; None])
  = parse_database (MarshalIndent local_added_1).1 empty_database
      (set_faults (flaky saved_local_added_1 [Some busy; Some busy; None]) []).
Proof.
  apply (load_survives_failed_reads "/db.json" _ [busy; busy] []).
  - vm_compute. reflexivity.
  - reflexivity.
  - simpl. lia.
Defined.

Lemma load_gives_up_after_five_reads_witness :
  LoadJSONDatabase "/db.json"
    (flaky saved_local_added_1 [Some busy; Some busy; Some busy; Some busy; Some busy])
  = Some ((Some empty_database, Some (ErrIO (fault_msg busy))),
          set_faults
            (flaky saved_local_added_1 [Some busy; Some busy; Some busy; Some busy; Some busy])
            []).
Proof.
  apply (load_gives_up_after_five_reads "/db.json" (MarshalIndent local_added_1).1
           [busy; busy; busy; busy] busy []).
  - vm_compute. reflexivity.
  - reflexivity.
  - reflexivity.
Defined.

Lemma GenerateUUID_shape_witness :
  ∃ g1 g2 g3 g4 g5,
    GenerateUUID (set_entropy (quiet ∅) ["0123456789abcdef"])
    = Some (g1 +:+ "-" +:+ g2 +:+ "-" +:+ g3 +:+ "-" +:+ g4 +:+ "-" +:+ g5,
            set_entropy (set_entropy (quiet ∅) ["0123456789abcdef"]) [])
    ∧ (String.length g1 = 8 ∧ String.length g2 = 4 ∧ String.length g3 = 4
       ∧ String.length g4 = 4 ∧ String.length g5 = 12)%nat
    ∧ all_chars lower_hex (g1 +:+ g2 +:+ g3 +:+ g4 +:+ g5) = true
    ∧ String.get 0 g3 = Some "4"%char
    ∧ (∃ c, String.get 0 g4 = Some c ∧ (c = "8" ∨ c = "9" ∨ c = "a" ∨ c = "b")%char).
Proof.
  apply (GenerateUUID_shape (set_entropy (quiet ∅) ["0123456789abcdef"])
           "0123456789abcdef" []).
  - reflexivity.
  - reflexivity.
Defined.

Lemma sync_error_only_on_identical_files_witness :
  ∃ ck w1 w2 e0,
    ComputeFileChecksum "/local.json" two_braces = Some ((ck, None), w1)
    ∧ ComputeFileChecksum "/remote.json" w1 = Some ((ck, None), w2)
    ∧ (None : option MagnetDatabase) = None
    ∧ Wrapf "failed to load local: " (Errorf "unrecognized format")
      = Wrapf "failed to load local: " e0.
Proof.
  apply (sync_error_only_on_identical_files "/local.json" "/remote.json" two_braces
           two_braces).
  vm_compute. reflexivity.
Defined.

Lemma SaveJSONDatabase_error_witness :
  (∃ e0, Wrapf "failed to save local: " (ErrIO "no space left")
         = Wrapf "failed to save local: " e0)
  ∧ files (world_after (SaveJSONDatabase "/db.json" content_seq_0 None) full_at_save)
      !! "/db.json"
    = files full_at_save !! "/db.json".
Proof.
  apply (SaveJSONDatabase_error "/db.json" content_seq_0 None full_at_save).
  vm_compute. reflexivity.
Defined.

Lemma SaveJSONDatabase_stores_updates_witness :
  ∃ db,
    files (world_after (SaveJSONDatabase "/db.json" content_seq_0 None) (quiet ∅))
      !! "/db.json" = Some (MarshalIndent db).1
    ∧ (∀ h u, go_get (Added content_seq_0) h = Some u →
         ∃ e, go_get (Added db) h = Some e ∧ (e = u ∨ (ID u = 0 ∧ e = with_ID u (ID e))))
    ∧ (∀ h u, go_get (Retry content_seq_0) h = Some u →
         ∃ e, go_get (Retry db) h = Some e ∧ (e = u ∨ (ID u = 0 ∧ e = with_ID u (ID e)))).
Proof.
  apply (SaveJSONDatabase_stores_updates "/db.json" "" content_seq_0 None (quiet ∅)).
  - vm_compute. reflexivity.
  - vm_compute. reflexivity.
  - discriminate.
  - intros H. vm_compute in H. discriminate H.
Defined.

Lemma save_leaves_other_files_witness :
  files (world_after (SaveDatabaseLocal "/db.json" local_added_1) with_other_file)
    !! "/other.json"
  = files with_other_file !! "/other.json".
Proof.
  apply (save_leaves_other_files "/db.json" "/other.json" local_added_1 with_other_file _
           (stamp (clock with_other_file) local_added_1, None)).
  - vm_compute. reflexivity.
  - discriminate.
  - intros H. vm_compute in H. discriminate H.
Defined.

Lemma migrate_gives_every_entry_a_uuid_witness :
  ∃ db w',
    MigrateFileFormat "/db.json" (quiet saved_local_added_1) = Some (None, w')
    ∧ files w' !! "/db.json" = Some (MarshalIndent db).1
    ∧ LastSequence (Metadata db) = LastSequence (Metadata local_added_1)
    ∧ (∀ h, match go_get (Added local_added_1) h with
            | Some e => ∃ e', go_get (Added db) h = Some e' ∧ with_some_UUID e e'
            | None => go_get (Added db) h = None
            end)
    ∧ (∀ h, match go_get (Retry local_added_1) h with
            | Some e => ∃ e', go_get (Retry db) h = Some e' ∧ with_some_UUID e e'
            | None => go_get (Retry db) h = None
            end).
Proof.
  apply (migrate_gives_every_entry_a_uuid "/db.json" local_added_1
           (quiet saved_local_added_1) (quiet saved_local_added_1)).
  - reflexivity.
  - vm_compute. reflexivity.
Defined.

Lemma ExtractMagnetName_unknown_witness :
  ExtractMagnetName "magnet:?xt=urn:btih:aaa" = "Unknown".
Proof. apply ExtractMagnetName_unknown. reflexivity. Defined.

Lemma ExtractMagnetName_plain_witness :
  ExtractMagnetName ("magnet:?xt=urn:btih:aaa&" +:+ "dn=" +:+ "Test+File+Name" +:+ "&tr=x")
  = map_chars plus_to_space "Test+File+Name".
Proof.
  apply (ExtractMagnetName_plain "magnet:?xt=urn:btih:aaa&" "Test+File+Name" "&tr=x").
  - vm_compute. reflexivity.
  - discriminate.
  - vm_compute. reflexivity.
  - reflexivity.
Defined.

Lemma load_flat_map_witness :
  ∃ db w',
    LoadJSONDatabase "/old.json" (quiet {[ "/old.json" := flat_text ]})
    = Some ((Some db, None), w')
    ∧ LastSequence (Metadata db) = go_len (GoMap {[ "abc" := flat_entry ]})
    ∧ Retry db = Retry (Unmarshal flat_text empty_database).1
    ∧ (∀ h v0, go_get (GoMap {[ "abc" := flat_entry ]}) h = Some v0 →
         ∃ uuid id, uuid ≠ "" ∧ 1 ≤ id ≤ go_len (GoMap {[ "abc" := flat_entry ]})
                    ∧ go_get (Added db) h = Some (of_V0 v0 uuid id))
    ∧ (∀ h h' e e', h ≠ h' →
         is_Some (go_get (GoMap {[ "abc" := flat_entry ]}) h) →
         is_Some (go_get (GoMap {[ "abc" := flat_entry ]}) h') →
         go_get (Added db) h = Some e → go_get (Added db) h' = Some e' →
         ID e ≠ ID e').
Proof.
  assert (Added (Unmarshal flat_text empty_database).1 = GoMap ∅) as E
    by (vm_compute; reflexivity).
  pose proof (load_flat_map "/old.json" flat_text (GoMap {[ "abc" := flat_entry ]})
                (quiet {[ "/old.json" := flat_text ]})
                (quiet {[ "/old.json" := flat_text ]})) as H.
  rewrite E in H. apply H.
  - vm_compute. reflexivity.
  - vm_compute. reflexivity.
  - vm_compute. reflexivity.
  - vm_compute. split; reflexivity.
Defined.
